(** * jsonextractor.py: extraction of JSON fragments and concept lists

    A shallow embedding of [src/data_output/temp/jsonextractor.py] and the
    properties of its three functions [extract_json_from_text],
    [extract_conceptual_space] and [main], and of the script entry point.

    Conventions of the embedding.
    - A Python [str] is the list of the bytes of its UTF-8 encoding, a
      lone surrogate standing as the three bytes its code point would
      take; [match.encode()] gives the text back, or raises
      [UnicodeEncodeError] when the text holds a lone surrogate.  Every
      delimiter the script looks for is an ASCII character, and an ASCII
      byte never occurs inside a multi-byte sequence, so scanning bytes
      and scanning code points find the same fragments.
    - Exceptions are values of the result type [py]; a function of the
      script that returns normally yields [Ok].
    - The library functions the script calls ([re.findall] for its two
      patterns, [json.loads], [json.dumps], [hashlib.md5],
      [str.strip], [str.split]) are embedded from their documented
      behaviour; what pandas writes for a frame and the printing of
      floats are parameters of the development.
    - The interpreter is CPython 3.11 with its limits as they come: an
      integer literal of more than 4300 digits makes [int] raise
      [ValueError], and the scanner of [json.loads] enters one call for
      every container it opens, of the 1000 calls the interpreter
      allows.  The calls already on the stack are those of a run of the
      script: the module calls [main], and [main] calls the extractors. *)

From Stdlib Require Import List Ascii String NArith ZArith Arith Lia Bool.
From Stdlib Require Import DecimalString.
From Stdlib Require DecimalPos DecimalFacts.
From stdpp Require Import gmap strings list.
Import ListNotations.

#[local] Open Scope list_scope.

(* ===================================================================== *)
(** ** Text *)
(* ===================================================================== *)

Definition str := list ascii.

Definition dquote : ascii := ascii_of_nat 34.

(** Literals: the apostrophe stands for the double quote, so that JSON
    text can be written down as it appears in an input file. *)
Definition lit (s : string) : str :=
  map (fun c => if Ascii.eqb c "'"%char then dquote else c)
      (list_ascii_of_string s).

Definition mem_char (c : ascii) (s : str) : bool :=
  existsb (Ascii.eqb c) s.

(* ===================================================================== *)
(** ** Exceptions *)
(* ===================================================================== *)

Inductive exn : Type :=
| TypeError
| ValueError
| JSONDecodeError
| UnicodeEncodeError
| RecursionError
| FileNotFoundError
| FileExistsError
| NotADirectoryError
| IsADirectoryError
| EOFError.

#[global] Instance exn_eq_dec : EqDecision exn.
Proof. solve_decision. Defined.

Inductive py (A : Type) : Type :=
| Ok (a : A)
| Raise (e : exn).
Arguments Ok {A} a.
Arguments Raise {A} e.

Definition bind {A B : Type} (m : py A) (k : A -> py B) : py B :=
  match m with
  | Ok a => k a
  | Raise e => Raise e
  end.

Notation "'let*' x ':=' m 'in' k" := (bind m (fun x => k))
  (at level 10, x pattern, m at level 100, k at level 200).

(** [try: body  except caught: handler].  The script catches
    [json.JSONDecodeError] only, a class with no subclass; that it is
    itself a [ValueError] plays no part. *)
Definition try_except {A : Type} (body : py A) (caught : exn) (handler : py A)
  : py A :=
  match body with
  | Ok a => Ok a
  | Raise e => if decide (e = caught) then handler else Raise e
  end.

(** A lone surrogate, U+D800 to U+DFFF: the byte [0xED] followed by a
    byte from [0xA0] on. *)
Fixpoint has_surrogate (s : str) : bool :=
  match s with
  | b0 :: rest =>
      match rest with
      | b1 :: _ =>
          ((N_of_ascii b0 =? 0xED)%N && (0xA0 <=? N_of_ascii b1)%N
           && (N_of_ascii b1 <=? 0xBF)%N)
          || has_surrogate rest
      | [] => false
      end
  | [] => false
  end.

(** [s.encode()] *)
Definition str_encode (s : str) : py str :=
  if has_surrogate s then Raise UnicodeEncodeError else Ok s.

(* ===================================================================== *)
(** ** The interpreter

    [sys.getrecursionlimit()] and [sys.get_int_max_str_digits()] as
    CPython 3.11 sets them, and the number of calls on the stack while
    the code of the module, the body of [main] and the body of an
    extractor called by [main] run. *)
(* ===================================================================== *)

Definition recursion_limit : nat := 1000.

Definition int_max_str_digits : nat := 4300.

Definition at_module : nat := 1.
Definition in_main : nat := 2.
Definition in_extractor : nat := 3.

(* ===================================================================== *)
(** ** The two regular expressions

    [re.compile(r'\{.*?\}', re.DOTALL)] and
    [re.compile(r'\[.*?\]', re.DOTALL)] have the same shape: a literal
    opening character, a lazy star over any character (with [DOTALL] the
    dot also matches a newline), a literal closing character. *)
(* ===================================================================== *)

Module Regex.

(** The lazy star followed by the closing literal, tried at the head of
    [s]: the star first takes no character and hands over to the literal;
    when the literal fails the star takes one more character and tries
    again.  Returns what the star consumed and what follows the match. *)
Fixpoint lazy_until (close : ascii) (s : str) : option (str * str) :=
  match s with
  | [] => None
  | ch :: rest =>
      if Ascii.eqb ch close then Some ([], rest)
      else match lazy_until close rest with
           | Some (body, after) => Some (ch :: body, after)
           | None => None
           end
  end.

(** The whole pattern anchored at the head of [s]. *)
Definition match_at (open close : ascii) (s : str) : option (str * str) :=
  match s with
  | [] => None
  | ch :: rest =>
      if Ascii.eqb ch open then
        match lazy_until close rest with
        | Some (body, after) => Some (open :: body ++ [close], after)
        | None => None
        end
      else None
  end.

(** [pattern.findall(text)]: the leftmost match from the current position
    is emitted and the scan resumes right after it; where the pattern does
    not match, the scan moves one character on. *)
Fixpoint findall_from (fuel : nat) (open close : ascii) (s : str) : list str :=
  match fuel with
  | O => []
  | S fuel' =>
      match s with
      | [] => []
      | _ :: rest =>
          match match_at open close s with
          | Some (m, after) => m :: findall_from fuel' open close after
          | None => findall_from fuel' open close rest
          end
      end
  end.

Definition findall (open close : ascii) (s : str) : list str :=
  findall_from (length s) open close s.

End Regex.

Definition json_pattern : str -> list str := Regex.findall "{"%char "}"%char.
Definition concept_pattern : str -> list str := Regex.findall "["%char "]"%char.

(* ===================================================================== *)
(** ** MD5 (RFC 1321), as [hashlib.md5(data).hexdigest()]

    32-bit words are numbers below [2^32]; every addition wraps around. *)
(* ===================================================================== *)

Module MD5.

#[local] Open Scope N_scope.

Definition mask32 : N := 0xFFFFFFFF.

Definition add32 (a b : N) : N := N.land (a + b) mask32.

Definition not32 (a : N) : N := N.lxor a mask32.

Definition rotl32 (x c : N) : N :=
  N.lor (N.land (N.shiftl x c) mask32) (N.shiftr x (32 - c)).

(** Per-round shift amounts. *)
Definition shifts : list N :=
  [7; 12; 17; 22; 7; 12; 17; 22; 7; 12; 17; 22; 7; 12; 17; 22;
   5;  9; 14; 20; 5;  9; 14; 20; 5;  9; 14; 20; 5;  9; 14; 20;
   4; 11; 16; 23; 4; 11; 16; 23; 4; 11; 16; 23; 4; 11; 16; 23;
   6; 10; 15; 21; 6; 10; 15; 21; 6; 10; 15; 21; 6; 10; 15; 21].

(** The sine table: [floor (2^32 * abs (sin (i + 1)))]. *)
Definition sines : list N :=
  [0xd76aa478; 0xe8c7b756; 0x242070db; 0xc1bdceee;
   0xf57c0faf; 0x4787c62a; 0xa8304613; 0xfd469501;
   0x698098d8; 0x8b44f7af; 0xffff5bb1; 0x895cd7be;
   0x6b901122; 0xfd987193; 0xa679438e; 0x49b40821;
   0xf61e2562; 0xc040b340; 0x265e5a51; 0xe9b6c7aa;
   0xd62f105d; 0x02441453; 0xd8a1e681; 0xe7d3fbc8;
   0x21e1cde6; 0xc33707d6; 0xf4d50d87; 0x455a14ed;
   0xa9e3e905; 0xfcefa3f8; 0x676f02d9; 0x8d2a4c8a;
   0xfffa3942; 0x8771f681; 0x6d9d6122; 0xfde5380c;
   0xa4beea44; 0x4bdecfa9; 0xf6bb4b60; 0xbebfbc70;
   0x289b7ec6; 0xeaa127fa; 0xd4ef3085; 0x04881d05;
   0xd9d4d039; 0xe6db99e5; 0x1fa27cf8; 0xc4ac5665;
   0xf4292244; 0x432aff97; 0xab9423a7; 0xfc93a039;
   0x655b59c3; 0x8f0ccc92; 0xffeff47d; 0x85845dd1;
   0x6fa87e4f; 0xfe2ce6e0; 0xa3014314; 0x4e0811a1;
   0xf7537e82; 0xbd3af235; 0x2ad7d2bb; 0xeb86d391].

Record state : Type := State { sa : N; sb : N; sc : N; sd : N }.

Definition init : state :=
  State 0x67452301 0xefcdab89 0x98badcfe 0x10325476.

(** Little-endian 32-bit word of four bytes. *)
Definition word_of_bytes (b0 b1 b2 b3 : N) : N :=
  N.lor b0 (N.lor (N.shiftl b1 8) (N.lor (N.shiftl b2 16) (N.shiftl b3 24))).

Fixpoint words_of_bytes (bs : list N) : list N :=
  match bs with
  | b0 :: b1 :: b2 :: b3 :: rest => word_of_bytes b0 b1 b2 b3 :: words_of_bytes rest
  | _ => []
  end.

Definition bytes_of_word (n : nat) (w : N) : list N :=
  map (fun i => N.land (N.shiftr w (8 * N.of_nat i)) 0xFF) (seq 0 n).

(** Padding: a [1] bit, zeros up to 56 modulo 64, then the bit length as
    a 64-bit little-endian number. *)
Definition pad (msg : list N) : list N :=
  let len := N.of_nat (length msg) in
  let zeros := N.to_nat ((119 - len mod 64) mod 64) in
  msg ++ [0x80] ++ repeat 0 zeros ++ bytes_of_word 8 ((8 * len) mod 2 ^ 64).

(** One of the 64 operations on the block [m]. *)
Definition step (m : list N) (st : state) (i : nat) : state :=
  let '(State a b c d) := st in
  let '(f, g) :=
    match (i / 16)%nat with
    | 0%nat => (N.lor (N.land b c) (N.land (not32 b) d), i)
    | 1%nat => (N.lor (N.land d b) (N.land (not32 d) c), ((5 * i + 1) mod 16)%nat)
    | 2%nat => (N.lxor b (N.lxor c d), ((3 * i + 5) mod 16)%nat)
    | _ => (N.lxor c (N.lor b (not32 d)), ((7 * i) mod 16)%nat)
    end in
  let f' := add32 (add32 (add32 f a) (nth i sines 0)) (nth g m 0) in
  State d (add32 b (rotl32 f' (nth i shifts 0))) b c.

Definition block (st : state) (m : list N) : state :=
  let '(State a b c d) := st in
  let '(State a' b' c' d') := fold_left (step m) (seq 0 64) st in
  State (add32 a a') (add32 b b') (add32 c c') (add32 d d').

Fixpoint blocks (fuel : nat) (st : state) (ws : list N) : state :=
  match fuel with
  | O => st
  | S fuel' =>
      match ws with
      | [] => st
      | _ => blocks fuel' (block st (firstn 16 ws)) (skipn 16 ws)
      end
  end.

Definition digest (msg : list N) : list N :=
  let ws := words_of_bytes (pad msg) in
  let '(State a b c d) := blocks (length ws) init ws in
  bytes_of_word 4 a ++ bytes_of_word 4 b ++ bytes_of_word 4 c ++ bytes_of_word 4 d.

Definition hex_digit (n : N) : ascii :=
  nth (N.to_nat n) (list_ascii_of_string "0123456789abcdef") "0"%char.

Definition hex_of_byte (b : N) : str := [hex_digit (b / 16); hex_digit (b mod 16)].

Definition hexdigest (data : str) : str :=
  concat (map hex_of_byte (digest (map N_of_ascii data))).

End MD5.

(* ===================================================================== *)
(** ** JSON values

    [json.loads] yields [None], [bool], [int], [float], [str], [list] and
    [dict].  A [dict] keeps its keys in insertion order, and assigning to
    a key that is present keeps the key where it is.  A float is kept as
    the literal it was read from. *)
(* ===================================================================== *)

#[warnings="-register-all"]
Inductive json : Type :=
| JNull
| JBool (b : bool)
| JInt (z : Z)
| JFloat (literal : str)
| JString (s : str)
| JArray (items : list json)
| JObject (members : list (str * json)).

Definition dict := list (str * json).

(** [d[k]] and [d[k] = v]. *)
Fixpoint dict_get (d : dict) (k : str) : option json :=
  match d with
  | [] => None
  | (k', v') :: d' => if decide (k' = k) then Some v' else dict_get d' k
  end.

Fixpoint dict_set (d : dict) (k : str) (v : json) : dict :=
  match d with
  | [] => [(k, v)]
  | (k', v') :: d' =>
      if decide (k' = k) then (k', v) :: d' else (k', v') :: dict_set d' k v
  end.

Definition dict_keys (d : dict) : list str := map fst d.

(** [dict(pairs)] *)
Definition dict_of_pairs (pairs : list (str * json)) : dict :=
  fold_left (fun d kv => dict_set d (fst kv) (snd kv)) pairs [].

(** [obj[key] = value] on an arbitrary JSON value: only a [dict] accepts
    a string subscript. *)
Definition setitem (obj : json) (key : str) (value : json) : py dict :=
  match obj with
  | JObject d => Ok (dict_set d key value)
  | _ => Raise TypeError
  end.

(* ===================================================================== *)
(** ** [json.loads] *)
(* ===================================================================== *)

Module Decoder.

#[local] Open Scope char_scope.

(** What a scan comes to: a value and the text behind it, a text that
    is not JSON ([json.JSONDecodeError]), another exception, or fuel that
    did not last. *)
Inductive parse (A : Type) : Type :=
| Parsed (a : A) (rest : str)
| Malformed
| Failed (e : exn)
| Exhausted.
Arguments Parsed {A} a rest.
Arguments Malformed {A}.
Arguments Failed {A} e.
Arguments Exhausted {A}.

Definition backslash : ascii := ascii_of_nat 92.

Definition is_ws (c : ascii) : bool :=
  (c =? " ") || (c =? ascii_of_nat 9) || (c =? ascii_of_nat 10)
  || (c =? ascii_of_nat 13).

Fixpoint skip_ws (s : str) : str :=
  match s with
  | c :: rest => if is_ws c then skip_ws rest else s
  | [] => []
  end.

Fixpoint strip_prefix (p s : str) : option str :=
  match p, s with
  | [], _ => Some s
  | a :: p', b :: s' => if a =? b then strip_prefix p' s' else None
  | _ :: _, [] => None
  end.

(** *** Strings *)

Definition hex_val (c : ascii) : option N :=
  let n := N_of_ascii c in
  if (48 <=? n)%N && (n <=? 57)%N then Some (n - 48)%N
  else if (97 <=? n)%N && (n <=? 102)%N then Some (n - 87)%N
  else if (65 <=? n)%N && (n <=? 70)%N then Some (n - 55)%N
  else None.

Definition hex4 (a b c d : ascii) : option N :=
  match hex_val a, hex_val b, hex_val c, hex_val d with
  | Some x, Some y, Some z, Some w => Some (((x * 16 + y) * 16 + z) * 16 + w)%N
  | _, _, _, _ => None
  end.

Definition continuation (n : N) : ascii :=
  ascii_of_N (N.lor 0x80 (N.land n 0x3F)).

(** UTF-8 bytes of a code point (a lone surrogate takes the three-byte
    form). *)
Definition utf8 (cp : N) : str :=
  if (cp <? 0x80)%N then [ascii_of_N cp]
  else if (cp <? 0x800)%N then
    [ascii_of_N (N.lor 0xC0 (N.shiftr cp 6)); continuation cp]
  else if (cp <? 0x10000)%N then
    [ascii_of_N (N.lor 0xE0 (N.shiftr cp 12));
     continuation (N.shiftr cp 6); continuation cp]
  else
    [ascii_of_N (N.lor 0xF0 (N.shiftr cp 18));
     continuation (N.shiftr cp 12); continuation (N.shiftr cp 6);
     continuation cp].

Definition is_high_surrogate (u : N) : bool := (0xD800 <=? u)%N && (u <=? 0xDBFF)%N.
Definition is_low_surrogate (u : N) : bool := (0xDC00 <=? u)%N && (u <=? 0xDFFF)%N.
Definition join_surrogates (hi lo : N) : N :=
  (0x10000 + N.lor (N.shiftl (hi - 0xD800) 10) (lo - 0xDC00))%N.

(** The one-character escapes. *)
Definition unescape (e : ascii) : option ascii :=
  if e =? dquote then Some dquote
  else if e =? backslash then Some backslash
  else if e =? "/" then Some "/"
  else if e =? "b" then Some (ascii_of_nat 8)
  else if e =? "f" then Some (ascii_of_nat 12)
  else if e =? "n" then Some (ascii_of_nat 10)
  else if e =? "r" then Some (ascii_of_nat 13)
  else if e =? "t" then Some (ascii_of_nat 9)
  else None.

Definition prepend (chunk : str) (r : option (str * str)) : option (str * str) :=
  match r with
  | Some (v, rest) => Some (chunk ++ v, rest)
  | None => None
  end.

(** [scanstring], entered after the opening quote, in strict mode: a
    control character inside a string is an error. *)
Fixpoint scanstring (s : str) : option (str * str) :=
  match s with
  | [] => None
  | c :: rest =>
      if c =? dquote then Some ([], rest)
      else if c =? backslash then
        match rest with
        | [] => None
        | e :: rest1 =>
            if e =? "u" then
              match rest1 with
              | h1 :: h2 :: h3 :: h4 :: rest2 =>
                  match hex4 h1 h2 h3 h4 with
                  | None => None
                  | Some u =>
                      if is_high_surrogate u then
                        match rest2 with
                        | b :: e2 :: l1 :: l2 :: l3 :: l4 :: rest3 =>
                            if (b =? backslash) && (e2 =? "u") then
                              match hex4 l1 l2 l3 l4 with
                              | None => None
                              | Some u2 =>
                                  if is_low_surrogate u2
                                  then prepend (utf8 (join_surrogates u u2)) (scanstring rest3)
                                  else prepend (utf8 u) (scanstring rest2)
                              end
                            else prepend (utf8 u) (scanstring rest2)
                        | _ => prepend (utf8 u) (scanstring rest2)
                        end
                      else prepend (utf8 u) (scanstring rest2)
                  end
              | _ => None
              end
            else
              match unescape e with
              | Some ch => prepend [ch] (scanstring rest1)
              | None => None
              end
        end
      else if (N_of_ascii c <? 32)%N then None
      else prepend [c] (scanstring rest)
  end.

(** *** Numbers

    The number pattern of the scanner has three groups: an integer part
    (an optional minus sign, then either a single zero or a non-zero
    digit followed by digits), an optional fraction (a dot and at least
    one digit) and an optional exponent (e or E, an optional sign and at
    least one digit). *)

Definition is_digit (c : ascii) : bool :=
  let n := N_of_ascii c in (48 <=? n)%N && (n <=? 57)%N.

Fixpoint span_digits (s : str) : str * str :=
  match s with
  | c :: rest =>
      if is_digit c then let '(ds, r) := span_digits rest in (c :: ds, r)
      else ([], s)
  | [] => ([], [])
  end.

Definition int_of_digits (ds : str) : Z :=
  fold_left (fun acc c => (10 * acc + Z.of_N (N_of_ascii c - 48))%Z) ds 0%Z.

(** The integer group: an optional sign, then [0] or a digit string
    without a leading zero. *)
Definition match_integer (s : str) : option (str * str) :=
  let '(sign, s1) :=
    match s with
    | c :: r => if c =? "-" then ([c], r) else ([], s)
    | [] => ([], s)
    end in
  match s1 with
  | c :: r =>
      if c =? "0" then Some (sign ++ [c], r)
      else if is_digit c then
        let '(ds, r') := span_digits r in Some (sign ++ c :: ds, r')
      else None
  | [] => None
  end.

(** The fraction group, empty when it does not match. *)
Definition match_frac (s : str) : str * str :=
  match s with
  | c :: r =>
      if c =? "." then
        match span_digits r with
        | ([], _) => ([], s)
        | (ds, r') => (c :: ds, r')
        end
      else ([], s)
  | [] => ([], s)
  end.

(** The exponent group, empty when it does not match. *)
Definition match_exp (s : str) : str * str :=
  match s with
  | c :: r =>
      if (c =? "e") || (c =? "E") then
        let '(sign, r1) :=
          match r with
          | g :: r0 => if (g =? "-") || (g =? "+") then ([g], r0) else ([], r)
          | [] => ([], r)
          end in
        match span_digits r1 with
        | ([], _) => ([], s)
        | (ds, r') => (c :: sign ++ ds, r')
        end
      else ([], s)
  | [] => ([], s)
  end.

(** [int(integer)] for the text of an integer group: the digits behind
    the sign are counted against the limit before they are converted. *)
Definition int_of_literal (integer : str) : py Z :=
  let '(negative, ds) :=
    match integer with
    | c :: ds => if c =? "-" then (true, ds) else (false, integer)
    | [] => (false, [])
    end in
  if (int_max_str_digits <? length ds)%nat then Raise ValueError
  else Ok (if negative then (- int_of_digits ds)%Z else int_of_digits ds).

(** A number: the three groups are matched, then the text is converted,
    by [int] when there is neither fraction nor exponent. *)
Definition match_number (s : str) : parse json :=
  match match_integer s with
  | None => Malformed
  | Some (integer, r1) =>
      let '(frac, r2) := match_frac r1 in
      let '(exp, r3) := match_exp r2 in
      match frac, exp with
      | [], [] =>
          match int_of_literal integer with
          | Ok v => Parsed (JInt v) r3
          | Raise e => Failed e
          end
      | _, _ => Parsed (JFloat (integer ++ frac ++ exp)) r3
      end
  end.

(** The constants and the numbers, tried in the order of [scan_once]. *)
Definition scan_atom (s : str) : parse json :=
  let keyword (w : string) (v : json) (otherwise : parse json) :=
    match strip_prefix (list_ascii_of_string w) s with
    | Some r => Parsed v r
    | None => otherwise
    end in
  keyword "null"%string JNull
  (keyword "true"%string (JBool true)
  (keyword "false"%string (JBool false)
  match match_number s with
  | Malformed =>
      keyword "NaN"%string (JFloat (list_ascii_of_string "NaN"%string))
      (keyword "Infinity"%string (JFloat (list_ascii_of_string "Infinity"%string))
      (keyword "-Infinity"%string (JFloat (list_ascii_of_string "-Infinity"%string))
       Malformed))
  | number => number
  end)).

(** What a loop does with the result of a scan inside it. *)
Definition and_then {A B : Type} (p : parse A) (k : A -> str -> parse B)
  : parse B :=
  match p with
  | Parsed a r => k a r
  | Malformed => Malformed
  | Failed e => Failed e
  | Exhausted => Exhausted
  end.

(** *** Values, arrays and objects

    [scan_once] at the head of [s]; [parse_elements] is the loop of
    [JSONArray] entered at the first element, [parse_members] the loop of
    [JSONObject] entered at the opening quote of a key.  Each recursive
    call spends one unit of [fuel].  The scanner enters a call of the
    interpreter at every opening brace and bracket, before it looks
    at what follows; [room] is the number of calls it may still enter. *)
Fixpoint scan_once (fuel room : nat) (s : str) : parse json :=
  match fuel with
  | O => Exhausted
  | S fuel' =>
      match s with
      | [] => Malformed
      | c :: rest =>
          if c =? dquote then
            match scanstring rest with
            | Some (v, r) => Parsed (JString v) r
            | None => Malformed
            end
          else if c =? "{" then
            match room with
            | O => Failed RecursionError
            | S room' =>
                match skip_ws rest with
                | c1 :: r1 =>
                    if c1 =? "}" then Parsed (JObject []) r1
                    else
                      and_then (parse_members fuel' room' (c1 :: r1))
                        (fun pairs r => Parsed (JObject (dict_of_pairs pairs)) r)
                | [] => Malformed
                end
            end
          else if c =? "[" then
            match room with
            | O => Failed RecursionError
            | S room' =>
                match skip_ws rest with
                | c1 :: r1 =>
                    if c1 =? "]" then Parsed (JArray []) r1
                    else
                      and_then (parse_elements fuel' room' (c1 :: r1))
                        (fun items r => Parsed (JArray items) r)
                | [] => Malformed
                end
            end
          else scan_atom s
      end
  end

with parse_elements (fuel room : nat) (s : str) : parse (list json) :=
  match fuel with
  | O => Exhausted
  | S fuel' =>
      and_then (scan_once fuel' room s)
        (fun v r =>
           match skip_ws r with
           | c :: r1 =>
               if c =? "]" then Parsed [v] r1
               else if c =? "," then
                 and_then (parse_elements fuel' room (skip_ws r1))
                   (fun vs r2 => Parsed (v :: vs) r2)
               else Malformed
           | [] => Malformed
           end)
  end

with parse_members (fuel room : nat) (s : str) : parse (list (str * json)) :=
  match fuel with
  | O => Exhausted
  | S fuel' =>
      match s with
      | q :: r0 =>
          if q =? dquote then
            match scanstring r0 with
            | Some (key, r1) =>
                match skip_ws r1 with
                | c :: r2 =>
                    if c =? ":" then
                      and_then (scan_once fuel' room (skip_ws r2))
                        (fun v r3 =>
                           match skip_ws r3 with
                           | c' :: r4 =>
                               if c' =? "}" then Parsed [(key, v)] r4
                               else if c' =? "," then
                                 and_then (parse_members fuel' room (skip_ws r4))
                                   (fun kvs r5 => Parsed ((key, v) :: kvs) r5)
                               else Malformed
                           | [] => Malformed
                           end)
                    else Malformed
                | [] => Malformed
                end
            | None => Malformed
            end
          else Malformed
      | [] => Malformed
      end
  end.

(** [JSONDecoder.decode]: leading white space, one value, trailing white
    space, end of input. *)
Definition decode (room : nat) (s : str) : parse json :=
  and_then (scan_once (2 * length s + 2) room (skip_ws s))
    (fun v r =>
       match skip_ws r with
       | [] => Parsed v []
       | _ :: _ => Malformed
       end).

End Decoder.

(** The calls the scanner may enter when [json.loads] is called from
    code that runs [depth] calls deep: above it stand, besides those
    [depth] calls, the calls of [loads], [decode], [raw_decode] and of the
    scanner itself. *)
Definition scanner_room (depth : nat) : nat := recursion_limit - (depth + 4).

(** [json.loads(s)], called from code that runs [depth] calls deep. *)
Definition json_loads_at (depth : nat) (s : str) : py json :=
  match Decoder.decode (scanner_room depth) s with
  | Decoder.Parsed v _ => Ok v
  | Decoder.Failed e => Raise e
  | Decoder.Malformed | Decoder.Exhausted => Raise JSONDecodeError
  end.

(** [json.loads(s)] called from the code of a module. *)
Definition json_loads : str -> py json := json_loads_at at_module.

(* ===================================================================== *)
(** ** [json.dumps(obj, indent=4)]

    With an indent the pure encoder runs: [ensure_ascii] is on, the item
    separator is a comma followed by a new line, the key separator is a
    colon and a space, and an empty container is printed closed. *)
(* ===================================================================== *)

Module Encoder.

(** Code points of a UTF-8 byte string; a byte that does not start a
    complete sequence stands for itself. *)
Fixpoint code_points (s : str) : list N :=
  let cont (b : ascii) : N := N.land (N_of_ascii b) 0x3F in
  match s with
  | [] => []
  | b0 :: r0 =>
      let n0 := N_of_ascii b0 in
      if (n0 <? 0xC0)%N then n0 :: code_points r0
      else
        match r0 with
        | [] => [n0]
        | b1 :: r1 =>
            if (n0 <? 0xE0)%N then
              N.lor (N.shiftl (N.land n0 0x1F) 6) (cont b1) :: code_points r1
            else
              match r1 with
              | [] => n0 :: code_points r0
              | b2 :: r2 =>
                  if (n0 <? 0xF0)%N then
                    N.lor (N.shiftl (N.land n0 0x0F) 12)
                      (N.lor (N.shiftl (cont b1) 6) (cont b2)) :: code_points r2
                  else
                    match r2 with
                    | [] => n0 :: code_points r0
                    | b3 :: r3 =>
                        N.lor (N.shiftl (N.land n0 0x07) 18)
                          (N.lor (N.shiftl (cont b1) 12)
                             (N.lor (N.shiftl (cont b2) 6) (cont b3)))
                          :: code_points r3
                    end
              end
        end
  end.

Definition hex4 (n : N) : str :=
  map (fun i => MD5.hex_digit (N.land (N.shiftr n (4 * i)) 0xF)) [3; 2; 1; 0]%N.

Definition u_escape (n : N) : str :=
  Decoder.backslash :: "u"%char :: hex4 n.

(** The replacement of one character by [encode_basestring_ascii]. *)
Definition escape_char (n : N) : str :=
  if (n =? 34)%N then [Decoder.backslash; dquote]
  else if (n =? 92)%N then [Decoder.backslash; Decoder.backslash]
  else if (n =? 8)%N then [Decoder.backslash; "b"%char]
  else if (n =? 12)%N then [Decoder.backslash; "f"%char]
  else if (n =? 10)%N then [Decoder.backslash; "n"%char]
  else if (n =? 13)%N then [Decoder.backslash; "r"%char]
  else if (n =? 9)%N then [Decoder.backslash; "t"%char]
  else if (32 <=? n)%N && (n <=? 126)%N then [ascii_of_N n]
  else if (n <? 0x10000)%N then u_escape n
  else
    let m := (n - 0x10000)%N in
    u_escape (N.lor 0xD800 (N.land (N.shiftr m 10) 0x3FF))
    ++ u_escape (N.lor 0xDC00 (N.land m 0x3FF)).

Definition encode_string (s : str) : str :=
  dquote :: concat (map escape_char (code_points s)) ++ [dquote].

Definition int_repr (z : Z) : str :=
  list_ascii_of_string (NilEmpty.string_of_int (Z.to_int z)).

Fixpoint join (sep : str) (parts : list str) : str :=
  match parts with
  | [] => []
  | [x] => x
  | x :: rest => x ++ sep ++ join sep rest
  end.

Definition newline_indent (indent level : nat) : str :=
  ascii_of_nat 10 :: repeat " "%char (indent * level).

Section Floats.

(** [float.__repr__] of the float a literal denotes. *)
Variable float_repr : str -> str.

Fixpoint iterencode (indent level : nat) (v : json) : str :=
  match v with
  | JNull => list_ascii_of_string "null"
  | JBool true => list_ascii_of_string "true"
  | JBool false => list_ascii_of_string "false"
  | JInt z => int_repr z
  | JFloat literal => float_repr literal
  | JString s => encode_string s
  | JArray [] => list_ascii_of_string "[]"
  | JArray items =>
      "["%char :: newline_indent indent (S level)
      ++ join (","%char :: newline_indent indent (S level))
              (map (iterencode indent (S level)) items)
      ++ newline_indent indent level ++ ["]"%char]
  | JObject [] => list_ascii_of_string "{}"
  | JObject members =>
      "{"%char :: newline_indent indent (S level)
      ++ join (","%char :: newline_indent indent (S level))
              (map (fun kv => encode_string (fst kv) ++ list_ascii_of_string ": "
                              ++ iterencode indent (S level) (snd kv)) members)
      ++ newline_indent indent level ++ ["}"%char]
  end.

End Floats.

End Encoder.

Definition json_dumps (float_repr : str -> str) (indent : nat) (v : json) : str :=
  Encoder.iterencode float_repr indent 0 v.

(* ===================================================================== *)
(** ** [str.strip] and [str.split] *)
(* ===================================================================== *)

Definition raw (s : string) : str := list_ascii_of_string s.

Fixpoint lstrip (chars s : str) : str :=
  match s with
  | c :: rest => if mem_char c chars then lstrip chars rest else s
  | [] => []
  end.

Definition rstrip (chars s : str) : str := rev (lstrip chars (rev s)).

(** [s.strip(chars)]: every leading and every trailing character that
    occurs in [chars] goes. *)
Definition str_strip (chars s : str) : str := rstrip chars (lstrip chars s).

(** [s.partition(sep)] when [sep] occurs: the text before the first
    occurrence and the text after it. *)
Fixpoint str_partition (sep s : str) : option (str * str) :=
  match Decoder.strip_prefix sep s with
  | Some after => Some ([], after)
  | None =>
      match s with
      | [] => None
      | c :: rest =>
          match str_partition sep rest with
          | Some (before, after) => Some (c :: before, after)
          | None => None
          end
      end
  end.

Fixpoint split_from (fuel : nat) (sep s : str) : list str :=
  match fuel with
  | O => [s]
  | S fuel' =>
      match str_partition sep s with
      | Some (before, after) => before :: split_from fuel' sep after
      | None => [s]
      end
  end.

(** [s.split(sep)] for a separator that is not empty: cut at each
    occurrence found from left to right, occurrences not overlapping. *)
Definition str_split (sep s : str) : list str := split_from (length s) sep s.

(* ===================================================================== *)
(** ** The two extractors *)
(* ===================================================================== *)

Definition chunk_id_key : str := raw "chunk_id".

(** The loop of [extract_json_from_text] over the matches that are left,
    [json_objects] being the list built so far.  The body of the loop is
    one [try]: of what [json.loads], [match.encode()] and the assignment
    may raise, only [json.JSONDecodeError] is caught, and the loop goes on
    with the next match. *)
Fixpoint extract_loop (matches : list str) (json_objects : list dict)
  : py (list dict) :=
  match matches with
  | [] => Ok json_objects
  | m :: rest =>
      let* json_objects :=
        try_except
          (let* json_obj := json_loads_at in_extractor m in
           let* data := str_encode m in
           let chunk_id := MD5.hexdigest data in
           let* json_obj := setitem json_obj chunk_id_key (JString chunk_id) in
           Ok (json_objects ++ [json_obj]))
          JSONDecodeError
          (Ok json_objects) in
      extract_loop rest json_objects
  end.

Definition extract_json_from_text (text : str) : py (list dict) :=
  let matches := json_pattern text in
  extract_loop matches [].

(** A conceptual space: a [dict] from a name to a list of token lists. *)
Definition space := list (str * list (list str)).

Definition all_concepts : str := raw "all concepts".

(** [conceptual_space[key].append(concepts)] *)
Definition append_at (key : str) (concepts : list str) (cs : space) : space :=
  map (fun entry => if decide (fst entry = key)
                    then (fst entry, snd entry ++ [concepts])
                    else entry) cs.

Definition extract_conceptual_space (text : str) : space :=
  let matches := concept_pattern text in
  fold_left
    (fun conceptual_space m =>
       let concepts := str_split (raw ", ") (str_strip (raw "[]") m) in
       append_at all_concepts concepts conceptual_space)
    matches [(all_concepts, [])].

Definition json_of_space (cs : space) : json :=
  JObject (dict_of_pairs
    (map (fun entry =>
            (fst entry, JArray (map (fun g => JArray (map JString g)) (snd entry))))
         cs)).

(* ===================================================================== *)
(** ** Files and console

    A path is its list of components, the empty path being the directory
    the program runs in; a file holds the text that reading it in text
    mode returns.  A computation of the script starts in a file system and
    ends with a result, a file system and the lines it printed; what was
    written and printed before an exception stays. *)
(* ===================================================================== *)

Abbreviation path := (list str).

Record filesystem : Type := FileSystem {
  files : gmap path str;
  dirs : gset path
}.

Record outcome (A : Type) : Type := Outcome {
  result : py A;
  final : filesystem;
  printed : list str
}.
Arguments Outcome {A} _ _ _.
Arguments result {A} _.
Arguments final {A} _.
Arguments printed {A} _.

Definition io (A : Type) : Type := filesystem -> outcome A.

Definition io_ret {A : Type} (a : A) : io A := fun fs => Outcome (Ok a) fs [].

Definition io_bind {A B : Type} (m : io A) (k : A -> io B) : io B :=
  fun fs =>
    let o := m fs in
    match result o with
    | Ok a =>
        let o' := k a (final o) in
        Outcome (result o') (final o') (printed o ++ printed o')
    | Raise e => Outcome (Raise e) (final o) (printed o)
    end.

Definition lift {A : Type} (r : py A) : io A := fun fs => Outcome r fs [].

Notation "'let!' x ':=' m 'in' k" := (io_bind m (fun x => k))
  (at level 10, x pattern, m at level 100, k at level 200).
Notation "m ';;' k" := (io_bind m (fun _ => k))
  (at level 100, k at level 200, right associativity).

Definition print (line : str) : io unit := fun fs => Outcome (Ok tt) fs [line].

Definition is_file (fs : filesystem) (p : path) : bool :=
  match files fs !! p with Some _ => true | None => false end.

Definition is_dir (fs : filesystem) (p : path) : bool :=
  bool_decide (p = []) || bool_decide (p ∈ dirs fs).

(** The path itself and the directories above it, outermost first. *)
Fixpoint prefixes (p : path) : list path :=
  match p with
  | [] => []
  | c :: rest => [c] :: map (cons c) (prefixes rest)
  end.

Definition parent (p : path) : path := removelast p.

(** Why a path that names nothing cannot be opened: a regular file
    stands where one of the directories above it has to be, or there is
    no such directory. *)
Definition no_entry (fs : filesystem) (p : path) : exn :=
  if existsb (is_file fs) (prefixes (parent p)) then NotADirectoryError
  else FileNotFoundError.

(** [open(p, 'r')] followed by [read()]. *)
Definition read_text (p : path) : io str :=
  fun fs =>
    match files fs !! p with
    | Some content => Outcome (Ok content) fs []
    | None =>
        Outcome (Raise (if is_dir fs p then IsADirectoryError
                        else no_entry fs p)) fs []
    end.

(** [open(p, 'w')] followed by [write(content)], for a content the
    encoding of the file can take. *)
Definition write_text (p : path) (content : str) : io unit :=
  fun fs =>
    if is_dir fs p then Outcome (Raise IsADirectoryError) fs []
    else if is_dir fs (parent p) then
      Outcome (Ok tt) (FileSystem (<[p := content]> (files fs)) (dirs fs)) []
    else Outcome (Raise (no_entry fs p)) fs [].

(** [Path.mkdir(parents=True, exist_ok=True)] *)
Definition mkdir_parents (p : path) : io unit :=
  fun fs =>
    if existsb (is_file fs) (prefixes p) then
      Outcome (Raise (if is_file fs p then FileExistsError
                      else NotADirectoryError)) fs []
    else
      Outcome (Ok tt)
        (FileSystem (files fs) (dirs fs ∪ list_to_set (prefixes p))) [].

(** [directory / name] and [str(path)]. *)
Definition join_path (directory : path) (name : str) : path := directory ++ [name].

Definition path_str (p : path) : str := Encoder.join (raw "/") p.

(* ===================================================================== *)
(** ** The data frame

    [pd.DataFrame(records)] for a list of [dict]s: the columns are the keys
    in the order in which they first occur, and a cell holds the value a
    record has under the key of the column.  The cell is missing when the
    record has not the key, and also when the value is [None] or the float
    NaN, which pandas counts as missing values. *)
(* ===================================================================== *)

Record DataFrame : Type := Frame {
  columns : list str;
  rows : list (list (option json))
}.

(** [pd.isna(v)] *)
Definition is_na (v : json) : bool :=
  match v with
  | JNull => true
  | JFloat literal => bool_decide (literal = list_ascii_of_string "NaN")
  | _ => false
  end.

(** The cell of a record under a column. *)
Definition cell (d : dict) (k : str) : option json :=
  match dict_get d k with
  | Some v => if is_na v then None else Some v
  | None => None
  end.

Definition add_column (cols : list str) (k : str) : list str :=
  if decide (k ∈ cols) then cols else cols ++ [k].

Definition union_keys (records : list dict) : list str :=
  fold_left (fun cols d => fold_left add_column (dict_keys d) cols) records [].

Definition make_frame (records : list dict) : DataFrame :=
  let cols := union_keys records in
  Frame cols (map (fun d => map (cell d) cols) records).

(** What [df.to_csv(file, sep=sep, index=index)] comes to.  pandas opens
    the file before it writes, so a call that raises while it writes
    leaves the file with what was written until then. *)
Inductive rendering : Type :=
| Rendered (csv : str)
| Broken (partial : str) (e : exn)
| Refused (e : exn).

(** The exception of a call that does not return. *)
Definition failure (r : rendering) : option exn :=
  match r with
  | Rendered _ => None
  | Broken _ e | Refused e => Some e
  end.

(* ===================================================================== *)
(** ** [main] and the script *)
(* ===================================================================== *)

Section Script.

(** [float.__repr__] of the float a literal denotes. *)
Variable float_repr : str -> str.

(** What pandas does for a frame: it writes the text of the frame
    ([Rendered]), or raises an exception after it has opened the file and
    written some text ([Broken]), or raises one before it opens the file
    ([Refused]). *)
Variable to_csv : ascii -> bool -> DataFrame -> rendering.

(** [df.to_csv(file, sep=sep, index=index)] *)
Definition df_to_csv (df : DataFrame) (file : path) (sep : ascii) (index : bool)
  : io unit :=
  match to_csv sep index df with
  | Rendered csv => write_text file csv
  | Broken partial e => write_text file partial ;; lift (Raise e)
  | Refused e => lift (Raise e)
  end.

Definition cleaned_data_json : str := raw "cleaned_data.json".
Definition graph_csv : str := raw "graph.csv".
Definition conceptual_space_json : str := raw "conceptual_space.json".

Definition no_json_message : str :=
  raw "No valid JSON objects found to save to CSV.".

Definition main (input_file output_directory : path) : io unit :=
  let! input_text := read_text input_file in
  let! json_objects := lift (extract_json_from_text input_text) in
  let conceptual_space := extract_conceptual_space input_text in
  let final_json := json_dumps float_repr 4 (JArray (map JObject json_objects)) in
  mkdir_parents output_directory ;;
  let json_output_file := join_path output_directory cleaned_data_json in
  write_text json_output_file final_json ;;
  print (raw "Cleaned JSON data has been saved to " ++ path_str json_output_file) ;;
  match json_objects with
  | _ :: _ =>
      let df := make_frame json_objects in
      let csv_output_file := join_path output_directory graph_csv in
      df_to_csv df csv_output_file "|"%char false ;;
      print (raw "CSV data has been saved to " ++ path_str csv_output_file)
  | [] => print no_json_message
  end ;;
  let conceptual_space_file := join_path output_directory conceptual_space_json in
  write_text conceptual_space_file
    (json_dumps float_repr 4 (json_of_space conceptual_space)) ;;
  print (raw "Conceptual space data has been saved to "
         ++ path_str conceptual_space_file).

(** What the read of the file name prompt comes to: a line was entered,
    the alarm went off first, or the input was at its end. *)
Inductive prompt : Type :=
| Entered (line : str)
| TimedOut
| EndOfInput.

(** The body of the script once the two arguments are parsed. *)
Definition script (input_file output_directory : path) (answer : prompt)
  : io unit :=
  let output_filename := raw "clean_json" in
  print (raw "Please enter the output filename (default is 'clean_json'):") ;;
  let! output_filename :=
    match answer with
    | Entered line => io_ret line
    | TimedOut =>
        print (ascii_of_nat 10
               :: raw "Timeout reached, using default output filename 'clean_json'.") ;;
        io_ret output_filename
    | EndOfInput => lift (Raise EOFError)
    end in
  main input_file output_directory.

End Script.

(* ===================================================================== *)
(** ** Notions used in the statements *)
(* ===================================================================== *)

(** What a parser returns when its fuel covers the text: never
    [Exhausted], and a value only after consuming some of the text. *)
Definition productive {A : Type} (s : str) (p : Decoder.parse A) : Prop :=
  match p with
  | Decoder.Parsed _ r => length r < length s
  | Decoder.Malformed | Decoder.Failed _ => True
  | Decoder.Exhausted => False
  end.

(** The record the loop appends for a match: the decoded object with
    the digest of the match under ["chunk_id"]. *)
Definition record_of (m : str) : option dict :=
  match json_loads_at in_extractor m, str_encode m with
  | Ok (JObject d), Ok data =>
      Some (dict_set d chunk_id_key (JString (MD5.hexdigest data)))
  | _, _ => None
  end.

(** The exception with which the loop ends at a match, if it ends
    there: one of [json.loads] other than [json.JSONDecodeError], or the
    one of [encode], or the one of the assignment. *)
Definition escapes (m : str) : option exn :=
  match json_loads_at in_extractor m with
  | Raise e => if decide (e = JSONDecodeError) then None else Some e
  | Ok v =>
      match str_encode m with
      | Raise e => Some e
      | Ok _ => match v with JObject _ => None | _ => Some TypeError end
      end
  end.

(** The first exception that ends the loop, and what the loop comes to
    over a list of matches. *)
Definition first_escape (matches : list str) : option exn :=
  head (omap escapes matches).

Definition collected (matches : list str) : py (list dict) :=
  match first_escape matches with
  | Some e => Raise e
  | None => Ok (omap record_of matches)
  end.

(** A text [t0 o1 t1 ... on tn]: fragments [oi], each followed by other
    text [ti]. *)
Fixpoint embed (t0 : str) (segments : list (str * str)) : str :=
  match segments with
  | [] => t0
  | (o, t) :: rest => t0 ++ o ++ embed t rest
  end.

Definition is_container (v : json) : bool :=
  match v with
  | JArray _ | JObject _ => true
  | _ => false
  end.

(** A well-formed flat JSON object: it decodes to an object none of whose
    values is an object or an array. *)
Definition flat_object (o : str) : bool :=
  match json_loads o with
  | Ok (JObject d) => forallb (fun kv => negb (is_container (snd kv))) d
  | _ => false
  end.

(** A fragment the loop can turn into a record: an opening brace, a
    closing brace as last character and nowhere else, a text that
    [json.loads] decodes where the loop calls it, and no lone
    surrogate. *)
Definition closed_once (o : str) : bool :=
  match o with
  | c :: rest =>
      Ascii.eqb c "{"
      && match rev rest with
         | l :: body => Ascii.eqb l "}" && negb (mem_char "}" body)
         | [] => false
         end
      && match json_loads_at in_extractor o with
         | Ok _ => true
         | Raise _ => false
         end
      && negb (has_surrogate o)
  | [] => false
  end.

(** Each fragment of a text is extracted exactly once: the records
    returned answer the fragments one for one, in order, each record
    being the record of its fragment. *)
Definition extracts_each_once (t0 : str) (segments : list (str * str)) : Prop :=
  exists records,
    extract_json_from_text (embed t0 segments) = Ok records
    /\ Forall2 (fun seg r => record_of (fst seg) = Some r) segments records.

(** The fragments of a text are plain: each has its only closing brace at
    its end, and the text after it has no opening brace. *)
Definition plain_segments (segments : list (str * str)) : bool :=
  forallb (fun seg => closed_once (fst seg) && negb (mem_char "{" (snd seg)))
          segments.

(** An opening brace or bracket, and how many of them a text holds. *)
Definition is_opener (c : ascii) : bool := Ascii.eqb c "{" || Ascii.eqb c "[".

Fixpoint count_openers (s : str) : nat :=
  match s with
  | [] => 0
  | c :: rest => (if is_opener c then 1 else 0) + count_openers rest
  end.

(** No run of digits of a text is longer than [n]. *)
Fixpoint digit_runs_within (n : nat) (s : str) : bool :=
  match s with
  | [] => true
  | _ :: rest =>
      (length (fst (Decoder.span_digits s)) <=? n)
      && digit_runs_within n rest
  end.

(** A text that stays within the limits of the interpreter wherever the
    loop takes it: no integer literal in it can pass the limit on digits,
    the scanner cannot open more containers in it than it may enter
    calls, and there is no lone surrogate. *)
Definition within_limits (m : str) : bool :=
  digit_runs_within int_max_str_digits m
  && (count_openers m <=? scanner_room in_extractor)
  && negb (has_surrogate m).

(** A bracketed span without its first and its last character. *)
Definition inner (m : str) : str := removelast (tl m).

(** No end of [body] is one of [chars]. *)
Definition edges_kept (chars body : str) : bool :=
  match body with
  | [] => true
  | c :: _ => negb (mem_char c chars)
  end
  && match rev body with
     | [] => true
     | c :: _ => negb (mem_char c chars)
     end.

(** The token list of a bracketed span. *)
Definition concepts_of (m : str) : list str :=
  str_split (raw ", ") (str_strip (raw "[]") m).

(** The names of the files a run writes for the records it extracted. *)
Definition output_names (records : list dict) : list str :=
  match records with
  | [] => [cleaned_data_json; conceptual_space_json]
  | _ :: _ => [cleaned_data_json; graph_csv; conceptual_space_json]
  end.

(** The output directory can be made and the named files can be written
    in it: no file stands where the directory or one above it has to be,
    and no directory stands where a file has to be. *)
Definition writable (fs : filesystem) (out : path) (names : list str) : bool :=
  negb (existsb (is_file fs) (prefixes out))
  && forallb (fun n => negb (bool_decide (join_path out n ∈ dirs fs))) names.


Section Outputs.

Variable float_repr : str -> str.

(** The text of [cleaned_data.json] and of [conceptual_space.json]. *)
Definition cleaned_text (records : list dict) : str :=
  json_dumps float_repr 4 (JArray (map JObject records)).

Definition space_text (text : str) : str :=
  json_dumps float_repr 4 (json_of_space (extract_conceptual_space text)).

(** The files after a run that extracted [records] from [text] and got
    the text [csv] from pandas. *)
Definition written (out : path) (text : str) (records : list dict) (csv : str)
           (before : gmap path str) : gmap path str :=
  let cleaned :=
    <[join_path out cleaned_data_json := cleaned_text records]> before in
  let table :=
    match records with
    | [] => cleaned
    | _ :: _ => <[join_path out graph_csv := csv]> cleaned
    end in
  <[join_path out conceptual_space_json := space_text text]> table.

(** The lines a run prints. *)
Definition messages (out : path) (records : list dict) : list str :=
  [raw "Cleaned JSON data has been saved to "
   ++ path_str (join_path out cleaned_data_json);
   match records with
   | [] => no_json_message
   | _ :: _ => raw "CSV data has been saved to "
               ++ path_str (join_path out graph_csv)
   end;
   raw "Conceptual space data has been saved to "
   ++ path_str (join_path out conceptual_space_json)].

End Outputs.

(** [conceptual_space.json] for a text without a bracketed span. *)
Definition empty_space_text : str :=
  lit "{
    'all concepts': []
}".

(** ** Sample runs *)

(** A rendering of frames that writes the header line only, and a
    printing of floats that repeats the literal; they stand in for
    pandas and for [float.__repr__] where a run is evaluated. *)
Definition header_only (sep : ascii) (index : bool) (df : DataFrame)
  : rendering :=
  Rendered (Encoder.join [sep] (columns df) ++ [ascii_of_nat 10]).

Definition literal_repr (literal : str) : str := literal.

(** Another stand-in for pandas: it writes the header line and a line
    for every row, with the cells that are strings as they stand and
    nothing for the other cells, and like a file opened for UTF-8 text it
    gives up, with [UnicodeEncodeError], at the first line that holds a
    lone surrogate, the lines before it written. *)
Definition cell_text (c : option json) : str :=
  match c with
  | Some (JString s) => s
  | _ => []
  end.

Definition table_lines (sep : ascii) (df : DataFrame) : list str :=
  (Encoder.join [sep] (columns df) ++ [ascii_of_nat 10])
  :: map (fun row => Encoder.join [sep] (map cell_text row) ++ [ascii_of_nat 10])
         (rows df).

Fixpoint write_lines (done : str) (lines : list str) : rendering :=
  match lines with
  | [] => Rendered done
  | l :: rest =>
      if has_surrogate l then Broken done UnicodeEncodeError
      else write_lines (done ++ l) rest
  end.

Definition strings_only (sep : ascii) (index : bool) (df : DataFrame)
  : rendering :=
  write_lines [] (table_lines sep df).

Definition notes_txt : path := [raw "notes.txt"].

Definition results_dir : path := [raw "out"; raw "run1"].

(** A file system holding one file, with two fragments and one concept
    list; one holding an empty file. *)
Definition notes_fs : filesystem :=
  FileSystem {[ notes_txt := lit "x {'a': 1} y {'b': [2, 3], 'a': null} [p, q]" ]} ∅.

Definition blank_fs : filesystem := FileSystem {[ notes_txt := [] ]} ∅.

(** One holding a fragment whose string is a lone surrogate, written as
    an escape. *)
Definition surrogate_fs : filesystem :=
  FileSystem {[ notes_txt := lit "{'a': '\ud800'}" ]} ∅.

(* ===================================================================== *)
(** ** Further notions *)
(* ===================================================================== *)

(** Every opening character of a text is followed, later in the text, by
    a closing character. *)
Fixpoint closed_text (open close : ascii) (s : str) : bool :=
  match s with
  | [] => true
  | c :: rest =>
      (if Ascii.eqb c open then mem_char close rest else true)
      && closed_text open close rest
  end.

(** Gaps and matches laid out in turn, then a last gap. *)
Fixpoint weave (pieces : list (str * str)) (tail : str) : str :=
  match pieces with
  | [] => tail
  | (gap, m) :: rest => gap ++ m ++ weave rest tail
  end.

(** A lower-case hexadecimal digit. *)
Definition is_hex (c : ascii) : bool :=
  mem_char c (raw "0123456789abcdef").

(** A computation changes no file outside [region], removes no file and
    no directory. *)
Definition confined {A : Type} (region : path -> Prop) (m : io A) : Prop :=
  forall fs,
    (forall p, ~ region p -> files (final (m fs)) !! p = files fs !! p)
    /\ (forall p, is_file fs p = true -> is_file (final (m fs)) p = true)
    /\ dirs fs ⊆ dirs (final (m fs)).

(** The three files of an output directory. *)
Definition output_file (out : path) (p : path) : Prop :=
  p = join_path out cleaned_data_json
  \/ p = join_path out graph_csv
  \/ p = join_path out conceptual_space_json.

(** A character of the ASCII range. *)
Definition is_ascii7 (c : ascii) : bool := (N_of_ascii c <? 128)%N.

(** What can stand behind a value in a printed document: nothing, a
    comma or a new line. *)
Definition delimited (rest : str) : bool :=
  match rest with
  | [] => true
  | c :: _ => Ascii.eqb c "," || Ascii.eqb c (ascii_of_nat 10)
  end.

(** A value without a float, all of whose strings and keys are ASCII
    and none of whose objects has a key twice. *)
Fixpoint plain_json (v : json) : bool :=
  match v with
  | JNull | JBool _ | JInt _ => true
  | JFloat _ => false
  | JString s => forallb is_ascii7 s
  | JArray items => forallb plain_json items
  | JObject members =>
      bool_decide (NoDup (map fst members))
      && forallb (fun kv => forallb is_ascii7 (fst kv) && plain_json (snd kv))
                 members
  end.

(** The characters of a decimal numeral, and the numeral of a text of
    digits. *)
Definition digits_of (d : Decimal.uint) : str :=
  list_ascii_of_string (NilEmpty.string_of_uint d).

Fixpoint uint_of_digits (ds : str) : Decimal.uint :=
  match ds with
  | [] => Decimal.Nil
  | c :: rest =>
      let d := uint_of_digits rest in
      match N_of_ascii c with
      | 48%N => Decimal.D0 d
      | 49%N => Decimal.D1 d
      | 50%N => Decimal.D2 d
      | 51%N => Decimal.D3 d
      | 52%N => Decimal.D4 d
      | 53%N => Decimal.D5 d
      | 54%N => Decimal.D6 d
      | 55%N => Decimal.D7 d
      | 56%N => Decimal.D8 d
      | _ => Decimal.D9 d
      end
  end.

(** How deep the containers of a value are nested. *)
Fixpoint nesting (v : json) : nat :=
  match v with
  | JArray items => S (fold_right (fun v n => Nat.max (nesting v) n) 0 items)
  | JObject members =>
      S (fold_right (fun kv n => Nat.max (nesting (snd kv)) n) 0 members)
  | _ => 0
  end.

(** The number of digits [int.__repr__] prints for an integer, and a
    value none of whose integers has more digits than [int] reads. *)
Definition int_digits (z : Z) : nat := length (Encoder.int_repr (Z.abs z)).

Fixpoint ints_within (v : json) : bool :=
  match v with
  | JInt z => int_digits z <=? int_max_str_digits
  | JArray items => forallb ints_within items
  | JObject members => forallb (fun kv => ints_within (snd kv)) members
  | _ => true
  end.

(** A value within the limits of a scan with room [room]: its
    containers are nested no deeper than [room], and its integers are
    within the limit on digits. *)
Definition bounded (room : nat) (v : json) : Prop :=
  nesting v <= room /\ ints_within v = true.

(** A printed value is read back: behind it the scanner, given fuel
    enough and room for the containers of the value, finds the delimiter
    that followed the value. *)
Definition reads_back (float_repr : str -> str) (indent : nat) (v : json)
  : Prop :=
  forall room level rest,
    nesting v <= room ->
    delimited rest = true ->
    exists f0, forall fuel, f0 <= fuel ->
      Decoder.scan_once fuel room
        (Encoder.iterencode float_repr indent level v ++ rest)
      = Decoder.Parsed v rest.

(** A file system holding one file of records whose values are
    integers, strings, constants and containers of these. *)
Definition plain_fs : filesystem :=
  FileSystem
    {[ notes_txt :=
         lit "x {'a': -12, 'b': ['p\n', [null, false]], 'd': true} y [u, v]" ]} ∅.

(** The file of [notes_fs] in a file system that holds more: another
    file, the output directory, and an old table in it. *)
Definition crowded_fs : filesystem :=
  FileSystem
    {[ notes_txt := lit "x {'a': 1} y {'b': [2, 3], 'a': null} [p, q]";
       [raw "old.txt"] := raw "kept";
       join_path results_dir graph_csv := raw "stale" ]}
    {[ [raw "out"]; results_dir ]}.

(** Three fragments that the loop does not survive: an integer of 4301
    digits, arrays nested 1000 deep, and a lone surrogate in the text
    itself. *)
Definition long_integer : str :=
  lit "{'a': " ++ repeat "1"%char 4301 ++ lit "}".

Definition deep_arrays : str :=
  lit "{'a': " ++ repeat "["%char 1000 ++ repeat "]"%char 1000 ++ lit "}".

Definition raw_surrogate : str :=
  lit "{'a': '" ++ Decoder.utf8 0xD800 ++ lit "'}".

(* ===================================================================== *)
(** * Properties *)
(* ===================================================================== *)

(** ** The library models on known values *)

(** The test suite of RFC 1321. *)
Example md5_empty :
  MD5.hexdigest (raw "") = raw "d41d8cd98f00b204e9800998ecf8427e".
Proof. vm_compute. reflexivity. Qed.

Example md5_a :
  MD5.hexdigest (raw "a") = raw "0cc175b9c0f1b6a831c399e269772661".
Proof. vm_compute. reflexivity. Qed.

Example md5_abc :
  MD5.hexdigest (raw "abc") = raw "900150983cd24fb0d6963f7d28e17f72".
Proof. vm_compute. reflexivity. Qed.

Example md5_message_digest :
  MD5.hexdigest (raw "message digest") = raw "f96b697d7cb7938d525a2f31aaf161d0".
Proof. vm_compute. reflexivity. Qed.

(** A message longer than one block. *)
Example md5_two_blocks :
  MD5.hexdigest
    (raw "12345678901234567890123456789012345678901234567890123456789012345678901234567890")
  = raw "57edf4a22be3c955ac49da2e2107b67a".
Proof. vm_compute. reflexivity. Qed.

Example loads_object :
  json_loads (lit "{ 'a' : [1, -2.5e3, true, null], 'b': {'c': 'x\u00e9y'} }")
  = Ok (JObject
            [(raw "a", JArray [JInt 1; JFloat (raw "-2.5e3"); JBool true; JNull]);
             (raw "b", JObject [(raw "c", JString (map ascii_of_nat
                                                    [120; 195; 169; 121]))])]).
Proof. vm_compute. reflexivity. Qed.

(** A key given twice keeps its first place and its last value. *)
Example loads_duplicate_key :
  json_loads (lit "{'a': 1, 'b': 2, 'a': 3}")
  = Ok (JObject [(raw "a", JInt 3); (raw "b", JInt 2)]).
Proof. vm_compute. reflexivity. Qed.

Example loads_rejects :
  json_loads (lit "{'a': 1,}") = Raise JSONDecodeError
  /\ json_loads (lit "{'a': 01}") = Raise JSONDecodeError
  /\ json_loads (lit "{a: 1}") = Raise JSONDecodeError
  /\ json_loads (lit "{'a': 1} x") = Raise JSONDecodeError
  /\ json_loads (lit "{'a': 'x\qy'}") = Raise JSONDecodeError.
Proof. vm_compute. repeat split; reflexivity. Qed.

(** The limits of the interpreter: 4300 digits are read and 4301 are
    not, with or without a sign, but a float may have more; called from
    the module the scanner follows 995 containers and not 996, and called
    from an extractor 993 and not 994; what is met first decides. *)
Example loads_limits :
  json_loads (repeat "1"%char 4301) = Raise ValueError
  /\ json_loads ("-"%char :: repeat "1"%char 4301) = Raise ValueError
  /\ (exists z, json_loads ("-"%char :: repeat "1"%char 4300) = Ok (JInt z))
  /\ (exists f, json_loads (repeat "1"%char 4301 ++ raw ".5") = Ok (JFloat f))
  /\ (exists v, json_loads (repeat "["%char 995 ++ repeat "]"%char 995) = Ok v)
  /\ json_loads (repeat "["%char 996 ++ repeat "]"%char 996)
     = Raise RecursionError
  /\ (exists v, json_loads_at in_extractor
                  (repeat "["%char 993 ++ repeat "]"%char 993) = Ok v)
  /\ json_loads_at in_extractor (repeat "["%char 994 ++ repeat "]"%char 994)
     = Raise RecursionError
  /\ json_loads (lit "{'a': " ++ repeat "1"%char 4301 ++ lit " x}")
     = Raise ValueError
  /\ json_loads (lit "{'a': x, 'b': " ++ repeat "1"%char 4301 ++ lit "}")
     = Raise JSONDecodeError
  /\ json_loads (lit "{'a': " ++ repeat "["%char 1000 ++ lit " }")
     = Raise RecursionError.
Proof.
  repeat split; try (vm_compute; reflexivity);
    eexists; vm_compute; reflexivity.
Qed.

(** [encode] gives up at a lone surrogate and at nothing else. *)
Example encode_examples :
  str_encode (Decoder.utf8 0xD800) = Raise UnicodeEncodeError
  /\ str_encode (raw "x" ++ Decoder.utf8 0xDFFF) = Raise UnicodeEncodeError
  /\ str_encode (Decoder.utf8 0xD7FF ++ Decoder.utf8 0xE000
                 ++ Decoder.utf8 0x1F600)
     = Ok (map ascii_of_nat [237; 159; 191; 238; 128; 128; 240; 159; 152; 128]).
Proof. vm_compute. repeat split; reflexivity. Qed.

Example dumps_nested :
  json_dumps literal_repr 4
    (JArray [JObject [(raw "a", JInt 1); (raw "b", JArray [])]])
  = lit "[
    {
        'a': 1,
        'b': []
    }
]".
Proof. vm_compute. reflexivity. Qed.

Example findall_lazy :
  json_pattern (lit "x { y {'a': 1} z {'b':'}'} w")
  = [lit "{ y {'a': 1}"; lit "{'b':'}"].
Proof. vm_compute. reflexivity. Qed.

Example split_examples :
  str_split (raw ", ") (raw "a, , b,  c") = [raw "a"; raw ""; raw "b"; raw " c"]
  /\ str_strip (raw "[]") (raw "[[a[]") = raw "a".
Proof. vm_compute. repeat split; reflexivity. Qed.

(** The fuel of [MD5.blocks] covers every block: more of it changes
    nothing. *)
Lemma md5_blocks_enough (n : nat) (st : MD5.state) (ws : list N) :
  length ws <= n -> MD5.blocks n st ws = MD5.blocks (length ws) st ws.
Proof.
  revert st ws. induction n as [n IH] using lt_wf_ind. intros st ws Hn.
  destruct ws as [|w ws]; [destruct n; reflexivity|].
  destruct n as [|n]; [simpl in Hn; lia|].
  cbn [MD5.blocks length].
  assert (Hs : length (skipn 16 (w :: ws)) <= length ws).
  { rewrite length_skipn. simpl. lia. }
  simpl in Hn. rewrite (IH n) by lia.
  rewrite (IH (length ws)) by lia. reflexivity.
Qed.

(** ** The patterns *)

Section RegexFacts.

Variables open close : ascii.

Lemma mem_char_app c (s t : str) :
  mem_char c (s ++ t) = mem_char c s || mem_char c t.
Proof. unfold mem_char. apply existsb_app. Qed.

Lemma mem_char_cons c d (s : str) :
  mem_char c (d :: s) = Ascii.eqb c d || mem_char c s.
Proof. reflexivity. Qed.

(** The lazy star stops at the first closing character. *)
Lemma lazy_until_first (body after : str) :
  mem_char close body = false ->
  Regex.lazy_until close (body ++ close :: after) = Some (body, after).
Proof.
  induction body as [|ch body IH]; intros Hfree; simpl.
  - now rewrite Ascii.eqb_refl.
  - rewrite mem_char_cons in Hfree. apply orb_false_iff in Hfree as [Hch Hbody].
    rewrite Ascii.eqb_sym, Hch, (IH Hbody). reflexivity.
Qed.

Lemma lazy_until_inv (s body after : str) :
  Regex.lazy_until close s = Some (body, after) ->
  s = body ++ close :: after /\ mem_char close body = false.
Proof.
  revert body. induction s as [|ch s IH]; intros body; simpl; [discriminate|].
  destruct (Ascii.eqb ch close) eqn:E.
  - intros [= <- <-]. apply Ascii.eqb_eq in E. subst. now split.
  - destruct (Regex.lazy_until close s) as [[b a]|]; [|discriminate].
    intros [= <- <-]. destruct (IH b eq_refl) as [-> Hb]. split; [reflexivity|].
    rewrite mem_char_cons, Ascii.eqb_sym, E. exact Hb.
Qed.

Lemma lazy_until_none (s : str) :
  mem_char close s = false -> Regex.lazy_until close s = None.
Proof.
  induction s as [|ch s IH]; simpl; [reflexivity|].
  rewrite Ascii.eqb_sym. intros H. apply orb_false_iff in H as [-> H].
  now rewrite (IH H).
Qed.

Lemma match_at_shorter (s m after : str) :
  Regex.match_at open close s = Some (m, after) -> length after < length s.
Proof.
  destruct s as [|ch s]; simpl; [discriminate|].
  destruct (Ascii.eqb ch open); [|discriminate].
  destruct (Regex.lazy_until close s) as [[b a]|] eqn:E; [|discriminate].
  intros [= <- <-]. apply lazy_until_inv in E as [-> _].
  rewrite length_app. simpl. lia.
Qed.

(** More fuel than characters changes nothing. *)
Lemma findall_from_enough (n : nat) (s : str) :
  length s <= n ->
  Regex.findall_from n open close s = Regex.findall open close s.
Proof.
  unfold Regex.findall. revert s.
  induction n as [n IH] using lt_wf_ind. intros s Hn.
  destruct s as [|ch s]; [destruct n; reflexivity|].
  destruct n as [|n]; [simpl in Hn; lia|].
  cbn [length Regex.findall_from].
  destruct (Regex.match_at open close (ch :: s)) as [[m after]|] eqn:E.
  - pose proof (match_at_shorter _ _ _ E) as Hlt. simpl in Hlt, Hn.
    rewrite (IH n) by lia. rewrite (IH (length s)) by lia. reflexivity.
  - simpl in Hn. rewrite (IH n) by lia. reflexivity.
Qed.

Lemma findall_nil : Regex.findall open close [] = [].
Proof. reflexivity. Qed.

Lemma findall_cons (ch : ascii) (s : str) :
  Regex.findall open close (ch :: s) =
  match Regex.match_at open close (ch :: s) with
  | Some (m, after) => m :: Regex.findall open close after
  | None => Regex.findall open close s
  end.
Proof.
  unfold Regex.findall at 1. cbn [length Regex.findall_from].
  destruct (Regex.match_at open close (ch :: s)) as [[m after]|] eqn:E.
  - rewrite findall_from_enough; [reflexivity|].
    apply match_at_shorter in E. simpl in E. lia.
  - reflexivity.
Qed.

(** Text without the opening character is passed over. *)
Lemma findall_skip (t s : str) :
  mem_char open t = false ->
  Regex.findall open close (t ++ s) = Regex.findall open close s.
Proof.
  induction t as [|ch t IH]; intros Hfree; [reflexivity|].
  rewrite mem_char_cons in Hfree. apply orb_false_iff in Hfree as [Hch Ht].
  simpl. rewrite findall_cons. simpl.
  rewrite Ascii.eqb_sym, Hch. auto.
Qed.

(** A span from an opening character to the first closing character
    after it is one match, and the scan goes on behind it. *)
Lemma findall_span (body after : str) :
  mem_char close body = false ->
  Regex.findall open close (open :: body ++ close :: after) =
  (open :: body ++ [close]) :: Regex.findall open close after.
Proof.
  intros Hfree. rewrite findall_cons. simpl.
  rewrite Ascii.eqb_refl, (lazy_until_first _ _ Hfree). reflexivity.
Qed.

(** Every match is such a span. *)
Lemma findall_shape (s m : str) :
  In m (Regex.findall open close s) ->
  exists body, m = open :: body ++ [close] /\ mem_char close body = false.
Proof.
  remember (length s) as n eqn:Hn. revert s Hn.
  induction n as [n IH] using lt_wf_ind. intros s -> Hin.
  destruct s as [|ch s]; [contradiction|].
  rewrite findall_cons in Hin.
  destruct (Regex.match_at open close (ch :: s)) as [[m' after]|] eqn:E.
  - destruct Hin as [<-|Hin].
    + simpl in E. destruct (Ascii.eqb ch open); [|discriminate].
      destruct (Regex.lazy_until close s) as [[b a]|] eqn:El; [|discriminate].
      injection E as <- <-. apply lazy_until_inv in El as [_ Hb]. eauto.
    + apply match_at_shorter in E. eapply (IH (length after)); eauto.
  - eapply (IH (length s)); eauto; simpl; lia.
Qed.

End RegexFacts.

(** ** The decoder *)

Ltac break_hyp H :=
  match type of H with
  | context [match ?x with _ => _ end] =>
      lazymatch x with
      | context [match _ with _ => _ end] => fail
      | _ => destruct x eqn:?
      end
  end.

Ltac break_goal :=
  match goal with
  | |- context [match ?x with _ => _ end] => destruct x eqn:?
  end.

Section DecoderFacts.

Import Decoder.

Lemma skip_ws_length (s : str) : length (skip_ws s) <= length s.
Proof.
  induction s as [|c s IH]; simpl; [lia|].
  destruct (is_ws c); simpl; lia.
Qed.

Lemma skip_ws_not_ws (c : ascii) (s : str) :
  is_ws c = false -> skip_ws (c :: s) = c :: s.
Proof. intros H. simpl. now rewrite H. Qed.

Lemma strip_prefix_length (p s r : str) :
  strip_prefix p s = Some r -> length s = length p + length r.
Proof.
  revert s. induction p as [|a p IH]; intros [|b s]; simpl; try discriminate.
  - now intros [= <-].
  - now intros [= <-].
  - destruct (Ascii.eqb a b); [|discriminate]. intros H. apply IH in H. lia.
Qed.

Lemma prepend_inv (chunk : str) (o : option (str * str)) (v r : str) :
  prepend chunk o = Some (v, r) -> exists v', o = Some (v', r).
Proof. destruct o as [[v' r']|]; simpl; [|discriminate]. intros [= _ <-]. eauto. Qed.

Lemma scanstring_shorter (s v r : str) :
  scanstring s = Some (v, r) -> length r < length s.
Proof.
  remember (length s) as n eqn:Hn. revert s v r Hn.
  induction n as [n IH] using lt_wf_ind. intros s v r -> H.
  assert (Hrec : forall chunk t, length t < length s ->
            prepend chunk (scanstring t) = Some (v, r) -> length r < length s).
  { intros chunk t Ht Hp. apply prepend_inv in Hp as [v' Hp].
    specialize (IH _ Ht t v' r eq_refl Hp). lia. }
  destruct s as [|c s]; simpl in H; [discriminate|].
  repeat (first [ discriminate
                | match type of H with Some _ = Some _ => injection H as <- <- end
                | match type of H with prepend _ _ = Some _ =>
                    eapply Hrec in H; [exact H | simpl; lia] end
                | break_hyp H ]); simpl; lia.
Qed.

Lemma span_digits_length (s ds r : str) :
  span_digits s = (ds, r) -> length r <= length s.
Proof.
  revert ds r. induction s as [|c s IH]; simpl; intros ds r.
  - intros [= <- <-]. simpl. lia.
  - destruct (is_digit c).
    + destruct (span_digits s) as [ds' r'] eqn:E. intros [= <- <-].
      specialize (IH _ _ eq_refl). lia.
    + intros [= <- <-]. simpl. lia.
Qed.

Lemma match_integer_shorter (s ds r : str) :
  match_integer s = Some (ds, r) -> length r < length s.
Proof.
  unfold match_integer. intros H.
  repeat (first [ discriminate
                | match type of H with Some _ = Some _ => injection H as <- <- end
                | match type of H with
                  | context [span_digits ?t] =>
                      let E := fresh "E" in
                      destruct (span_digits t) eqn:E; apply span_digits_length in E
                  end
                | break_hyp H ]);
  repeat match goal with
         | E : (_, _) = (_, _) |- _ => injection E as <- <-
         end; simpl in *; try lia.
Qed.

Lemma match_frac_length (s ds r : str) :
  match_frac s = (ds, r) -> length r <= length s.
Proof.
  unfold match_frac. intros H.
  repeat (first [ match type of H with (_, _) = (_, _) => injection H as <- <- end
                | match type of H with
                  | context [span_digits ?t] =>
                      let E := fresh "E" in
                      destruct (span_digits t) eqn:E; apply span_digits_length in E
                  end
                | break_hyp H ]); simpl in *; try lia.
Qed.

Lemma match_exp_length (s ds r : str) :
  match_exp s = (ds, r) -> length r <= length s.
Proof.
  unfold match_exp. intros H.
  repeat (first [ match type of H with (_, _) = (_, _) => injection H as <- <- end
                | match type of H with
                  | context [span_digits ?t] =>
                      let E := fresh "E" in
                      destruct (span_digits t) eqn:E; apply span_digits_length in E
                  end
                | break_hyp H ]);
  repeat match goal with
         | E : (_, _) = (_, _) |- _ => injection E as <- <-
         end; simpl in *; try lia.
Qed.

(** What [match_number] returns: the text behind the three groups, with
    an integer when the last two are empty and [int] reads the first. *)
Lemma match_number_inv (s : str) (v : json) (r : str) :
  match_number s = Parsed v r ->
  exists integer r1 frac r2 exp,
    match_integer s = Some (integer, r1)
    /\ match_frac r1 = (frac, r2)
    /\ match_exp r2 = (exp, r)
    /\ ((frac = [] /\ exp = []
         /\ exists z, int_of_literal integer = Ok z /\ v = JInt z)
        \/ v = JFloat (integer ++ frac ++ exp)).
Proof.
  unfold match_number. intros H.
  destruct (match_integer s) as [[integer r1]|] eqn:E1; [|discriminate].
  destruct (match_frac r1) as [frac r2] eqn:E2.
  destruct (match_exp r2) as [exp r3] eqn:E3.
  exists integer, r1, frac, r2, exp.
  destruct frac as [|f frac], exp as [|x exp];
    try (injection H as <- <-; repeat split; auto; fail).
  destruct (int_of_literal integer) as [z|e] eqn:Ez; [|discriminate].
  injection H as <- <-. repeat split; auto. left. eauto.
Qed.

Lemma match_number_shorter (s : str) (v : json) (r : str) :
  match_number s = Parsed v r -> length r < length s.
Proof.
  intros H. apply match_number_inv in H
    as (integer & r1 & frac & r2 & exp & E1 & E2 & E3 & _).
  apply match_integer_shorter in E1. apply match_frac_length in E2.
  apply match_exp_length in E3. lia.
Qed.

(** The only exception of [match_number] is the one of [int]. *)
Lemma match_number_failed (s : str) (e : exn) :
  match_number s = Failed e -> e = ValueError.
Proof.
  unfold match_number, int_of_literal. intros H.
  repeat (first [ discriminate
                | match type of H with Failed _ = Failed _ => injection H as <- end
                | break_hyp H ]); try reflexivity.
  all: repeat match goal with
              | E : Raise _ = Raise _ |- _ => injection E as <-
              | E : Ok _ = Raise _ |- _ => discriminate E
              end; try reflexivity.
Qed.

Lemma match_number_exhausted (s : str) : match_number s <> Exhausted.
Proof.
  unfold match_number. intros H.
  repeat (first [ discriminate | break_hyp H ]).
Qed.

(** What [scan_atom] returns is a constant behind its name or what
    [match_number] returns. *)
Lemma scan_atom_cases (s : str) :
  (exists w v r, strip_prefix (list_ascii_of_string w) s = Some r
                 /\ w <> EmptyString
                 /\ scan_atom s = Parsed v r)
  \/ (scan_atom s = match_number s /\ match_number s <> Malformed)
  \/ (scan_atom s = Malformed /\ match_number s = Malformed).
Proof.
  unfold scan_atom.
  repeat match goal with
         | |- context [strip_prefix (list_ascii_of_string ?w) s] =>
             let E := fresh "E" in
             destruct (strip_prefix (list_ascii_of_string w) s) eqn:E;
             [left; exists w; do 2 eexists; split; [exact E|];
              split; [discriminate|reflexivity]|]
         | |- context [match_number s] =>
             let E := fresh "E" in
             destruct (match_number s) eqn:E;
             try (right; left; split; [reflexivity|discriminate])
         end.
  right. right. split; reflexivity.
Qed.

Lemma scan_atom_shorter (s : str) (v : json) (r : str) :
  scan_atom s = Parsed v r -> length r < length s.
Proof.
  destruct (scan_atom_cases s)
    as [(w & v' & r' & E & Hw & ->)|[[-> _]|[-> _]]]; [| |discriminate].
  - intros [= <- <-]. apply strip_prefix_length in E.
    destruct w; [congruence|]. simpl in E. lia.
  - apply match_number_shorter.
Qed.

Lemma scan_atom_failed (s : str) (e : exn) :
  scan_atom s = Failed e -> e = ValueError.
Proof.
  destruct (scan_atom_cases s)
    as [(w & v' & r' & E & Hw & ->)|[[-> _]|[-> _]]]; try discriminate.
  apply match_number_failed.
Qed.

Lemma scan_atom_exhausted (s : str) : scan_atom s <> Exhausted.
Proof.
  destruct (scan_atom_cases s)
    as [(w & v' & r' & E & Hw & ->)|[[-> _]|[-> _]]]; try discriminate.
  apply match_number_exhausted.
Qed.

Lemma productive_and_then {A B : Type} (k : A -> str -> parse B) (s t : str)
      (p : parse A) :
  productive t p ->
  (forall a r, length r < length t -> productive s (k a r)) ->
  productive s (and_then p k).
Proof. destruct p; simpl; auto. Qed.

Lemma fuel_covers (fuel : nat) :
  (forall room s, 2 * length s + 1 <= fuel ->
                  productive s (scan_once fuel room s)) /\
  (forall room s, 2 * length s + 2 <= fuel ->
                  productive s (parse_elements fuel room s)) /\
  (forall room s, 2 * length s + 2 <= fuel ->
                  productive s (parse_members fuel room s)).
Proof.
  induction fuel as [|fuel (IHv & IHe & IHm)].
  { repeat split; intros room s Hs; lia. }
  repeat split; intros room s Hs.
  - (* scan_once *)
    destruct s as [|c s]; [exact I|]. cbn [scan_once]. simpl in Hs.
    destruct (Ascii.eqb c dquote).
    { destruct (scanstring s) as [[v r]|] eqn:E; [|exact I].
      apply scanstring_shorter in E. simpl. lia. }
    destruct (Ascii.eqb c "{").
    { destruct room as [|room]; [exact I|].
      pose proof (skip_ws_length s) as Hw.
      destruct (skip_ws s) as [|c1 r1]; [exact I|]. simpl in Hw.
      destruct (Ascii.eqb c1 "}"); [simpl; lia|].
      apply (productive_and_then _ _ (c1 :: r1)).
      - apply IHm. simpl. lia.
      - intros a r Hr. simpl in *. lia. }
    destruct (Ascii.eqb c "[").
    { destruct room as [|room]; [exact I|].
      pose proof (skip_ws_length s) as Hw.
      destruct (skip_ws s) as [|c1 r1]; [exact I|]. simpl in Hw.
      destruct (Ascii.eqb c1 "]"); [simpl; lia|].
      apply (productive_and_then _ _ (c1 :: r1)).
      - apply IHe. simpl. lia.
      - intros a r Hr. simpl in *. lia. }
    destruct (scan_atom (c :: s)) as [v r| | e|] eqn:E; try exact I.
    + apply scan_atom_shorter in E. exact E.
    + now apply scan_atom_exhausted in E.
  - (* parse_elements *)
    cbn [parse_elements].
    apply (productive_and_then _ _ s); [apply IHv; lia|].
    intros v r Hr. pose proof (skip_ws_length r) as Hw.
    destruct (skip_ws r) as [|c r1]; [exact I|]. simpl in Hw.
    destruct (Ascii.eqb c "]"); [simpl; lia|].
    destruct (Ascii.eqb c ","); [|exact I].
    pose proof (skip_ws_length r1) as Hw1.
    apply (productive_and_then _ _ (skip_ws r1)); [apply IHe; lia|].
    intros vs r2 Hr2. simpl. lia.
  - (* parse_members *)
    cbn [parse_members].
    destruct s as [|q r0]; [exact I|]. simpl in Hs.
    destruct (Ascii.eqb q dquote); [|exact I].
    destruct (scanstring r0) as [[key r1]|] eqn:E; [|exact I].
    apply scanstring_shorter in E.
    pose proof (skip_ws_length r1) as Hw1.
    destruct (skip_ws r1) as [|c r2]; [exact I|]. simpl in Hw1.
    destruct (Ascii.eqb c ":"); [|exact I].
    pose proof (skip_ws_length r2) as Hw2.
    apply (productive_and_then _ _ (skip_ws r2)); [apply IHv; lia|].
    intros v r3 Hr3. pose proof (skip_ws_length r3) as Hw3.
    destruct (skip_ws r3) as [|c' r4]; [exact I|]. simpl in Hw3.
    destruct (Ascii.eqb c' "}"); [simpl; lia|].
    destruct (Ascii.eqb c' ","); [|exact I].
    pose proof (skip_ws_length r4) as Hw4.
    apply (productive_and_then _ _ (skip_ws r4)); [apply IHm; lia|].
    intros kvs r5 Hr5. simpl. lia.
Qed.

Lemma and_then_exhausted {A B : Type} (p : parse A) (k : A -> str -> parse B) :
  p <> Exhausted -> (forall a r, k a r <> Exhausted) ->
  and_then p k <> Exhausted.
Proof. destruct p; simpl; auto. Qed.

(** [decode] is given enough fuel: a failure of [json.loads] is a
    failure to parse or an exception of the scanner. *)
Lemma decode_not_exhausted (room : nat) (s : str) : decode room s <> Exhausted.
Proof.
  unfold decode. pose proof (skip_ws_length s) as Hw.
  destruct (fuel_covers (2 * length s + 2)) as (Hv & _ & _).
  specialize (Hv room (skip_ws s) ltac:(lia)).
  apply and_then_exhausted.
  - intros E. now rewrite E in Hv.
  - intros v r. destruct (skip_ws r); discriminate.
Qed.

Lemma and_then_parsed {A B : Type} (p : parse A) (k : A -> str -> parse B)
      (b : B) (r : str) :
  and_then p k = Parsed b r ->
  exists a r0, p = Parsed a r0 /\ k a r0 = Parsed b r.
Proof. destruct p; simpl; try discriminate. eauto. Qed.

Lemma and_then_failed {A B : Type} (p : parse A) (k : A -> str -> parse B)
      (e : exn) :
  and_then p k = Failed e ->
  p = Failed e \/ exists a r0, p = Parsed a r0 /\ k a r0 = Failed e.
Proof.
  destruct p as [a r0| | e0|]; simpl; try discriminate.
  - intros H. right. eauto.
  - intros [= ->]. now left.
Qed.

(** A text that opens with a brace decodes, if at all, to an object,
    built by [dict] from the pairs read. *)
Lemma scan_once_brace (fuel room : nat) (rest : str) (v : json) (r : str) :
  scan_once fuel room ("{"%char :: rest) = Parsed v r ->
  exists pairs, v = JObject (dict_of_pairs pairs).
Proof.
  destruct fuel as [|fuel]; [discriminate|]. cbn [scan_once].
  change (Ascii.eqb "{" dquote) with false. change (Ascii.eqb "{" "{") with true.
  cbv iota.
  destruct room as [|room]; [discriminate|].
  destruct (skip_ws rest) as [|c1 r1]; [discriminate|].
  destruct (Ascii.eqb c1 "}").
  - intros [= <- _]. now exists [].
  - intros (pairs & r0 & _ & [= <- _])%and_then_parsed. eauto.
Qed.

(** The exceptions of the scanner are the one of [int] and the one of
    the interpreter. *)
Lemma scan_failed (fuel : nat) :
  (forall room s e, scan_once fuel room s = Failed e ->
                    e = ValueError \/ e = RecursionError)
  /\ (forall room s e, parse_elements fuel room s = Failed e ->
                       e = ValueError \/ e = RecursionError)
  /\ (forall room s e, parse_members fuel room s = Failed e ->
                       e = ValueError \/ e = RecursionError).
Proof.
  induction fuel as [|fuel (IHv & IHe & IHm)].
  { repeat split; intros room s e H; discriminate H. }
  repeat split; intros room s e.
  - cbn [scan_once]. destruct s as [|c s]; [discriminate|].
    destruct (Ascii.eqb c dquote).
    { destruct (scanstring s) as [[v r]|]; discriminate. }
    destruct (Ascii.eqb c "{").
    { destruct room as [|room]; [intros [= <-]; now right|].
      destruct (skip_ws s) as [|c1 r1]; [discriminate|].
      destruct (Ascii.eqb c1 "}"); [discriminate|].
      intros [H|(a & r0 & _ & H)]%and_then_failed; [eauto|discriminate]. }
    destruct (Ascii.eqb c "[").
    { destruct room as [|room]; [intros [= <-]; now right|].
      destruct (skip_ws s) as [|c1 r1]; [discriminate|].
      destruct (Ascii.eqb c1 "]"); [discriminate|].
      intros [H|(a & r0 & _ & H)]%and_then_failed; [eauto|discriminate]. }
    intros H%scan_atom_failed. now left.
  - cbn [parse_elements].
    intros [H|(v & r & _ & H)]%and_then_failed; [eauto|].
    destruct (skip_ws r) as [|c r1]; [discriminate|].
    destruct (Ascii.eqb c "]"); [discriminate|].
    destruct (Ascii.eqb c ","); [|discriminate].
    apply and_then_failed in H as [H|(a & r0 & _ & H)]; [eauto|discriminate].
  - cbn [parse_members]. destruct s as [|q r0]; [discriminate|].
    destruct (Ascii.eqb q dquote); [|discriminate].
    destruct (scanstring r0) as [[key r1]|]; [|discriminate].
    destruct (skip_ws r1) as [|c r2]; [discriminate|].
    destruct (Ascii.eqb c ":"); [|discriminate].
    intros [H|(v & r3 & _ & H)]%and_then_failed; [eauto|].
    destruct (skip_ws r3) as [|c' r4]; [discriminate|].
    destruct (Ascii.eqb c' "}"); [discriminate|].
    destruct (Ascii.eqb c' ","); [|discriminate].
    apply and_then_failed in H as [H|(a & r5 & _ & H)]; [eauto|discriminate].
Qed.

(** With more room the scanner does what it did, unless it had run out
    of room. *)
Lemma room_stable (fuel : nat) :
  (forall room room' s, room <= room' ->
     scan_once fuel room s <> Failed RecursionError ->
     scan_once fuel room' s = scan_once fuel room s)
  /\ (forall room room' s, room <= room' ->
        parse_elements fuel room s <> Failed RecursionError ->
        parse_elements fuel room' s = parse_elements fuel room s)
  /\ (forall room room' s, room <= room' ->
        parse_members fuel room s <> Failed RecursionError ->
        parse_members fuel room' s = parse_members fuel room s).
Proof.
  induction fuel as [|fuel (IHv & IHe & IHm)].
  { repeat split; reflexivity. }
  repeat split; intros room room' s Hle.
  - cbn [scan_once]. destruct s as [|c s]; [reflexivity|].
    destruct (Ascii.eqb c dquote); [reflexivity|].
    destruct (Ascii.eqb c "{").
    { destruct room as [|room]; [intros H; now contradiction H|].
      destruct room' as [|room']; [lia|].
      destruct (skip_ws s) as [|c1 r1]; [reflexivity|].
      destruct (Ascii.eqb c1 "}"); [reflexivity|].
      intros H. rewrite (IHm room room' (c1 :: r1)); [reflexivity|lia|].
      intros E. now rewrite E in H. }
    destruct (Ascii.eqb c "[").
    { destruct room as [|room]; [intros H; now contradiction H|].
      destruct room' as [|room']; [lia|].
      destruct (skip_ws s) as [|c1 r1]; [reflexivity|].
      destruct (Ascii.eqb c1 "]"); [reflexivity|].
      intros H. rewrite (IHe room room' (c1 :: r1)); [reflexivity|lia|].
      intros E. now rewrite E in H. }
    reflexivity.
  - cbn [parse_elements]. intros H.
    rewrite (IHv room room' s Hle) by (intros E; now rewrite E in H).
    destruct (scan_once fuel room s) as [v r| | e|]; try reflexivity.
    cbn [and_then] in *.
    destruct (skip_ws r) as [|c r1]; [reflexivity|].
    destruct (Ascii.eqb c "]"); [reflexivity|].
    destruct (Ascii.eqb c ","); [|reflexivity].
    rewrite (IHe room room' (skip_ws r1) Hle); [reflexivity|].
    intros E. now rewrite E in H.
  - cbn [parse_members]. destruct s as [|q r0]; [reflexivity|].
    destruct (Ascii.eqb q dquote); [|reflexivity].
    destruct (scanstring r0) as [[key r1]|]; [|reflexivity].
    destruct (skip_ws r1) as [|c r2]; [reflexivity|].
    destruct (Ascii.eqb c ":"); [|reflexivity].
    intros H.
    rewrite (IHv room room' (skip_ws r2) Hle) by (intros E; now rewrite E in H).
    destruct (scan_once fuel room (skip_ws r2)) as [v r3| | e|]; try reflexivity.
    cbn [and_then] in *.
    destruct (skip_ws r3) as [|c' r4]; [reflexivity|].
    destruct (Ascii.eqb c' "}"); [reflexivity|].
    destruct (Ascii.eqb c' ","); [|reflexivity].
    rewrite (IHm room room' (skip_ws r4) Hle); [reflexivity|].
    intros E. now rewrite E in H.
Qed.

End DecoderFacts.

(** ** [json.loads] *)

(** What [json.loads] raises. *)
Lemma json_loads_at_raises (depth : nat) (s : str) (e : exn) :
  json_loads_at depth s = Raise e ->
  e = JSONDecodeError \/ e = ValueError \/ e = RecursionError.
Proof.
  unfold json_loads_at, Decoder.decode.
  destruct (Decoder.scan_once _ _ _) as [v r| | e'|] eqn:E; cbn [Decoder.and_then].
  - destruct (Decoder.skip_ws r); [discriminate|]. intros [= <-]. now left.
  - intros [= <-]. now left.
  - intros [= <-]. right.
    now apply (proj1 (scan_failed _)) in E.
  - intros [= <-]. now left.
Qed.

Lemma json_loads_at_brace (depth : nat) (rest : str) (v : json) :
  json_loads_at depth ("{"%char :: rest) = Ok v ->
  exists pairs, v = JObject (dict_of_pairs pairs).
Proof.
  unfold json_loads_at, Decoder.decode.
  rewrite skip_ws_not_ws by reflexivity.
  destruct (Decoder.scan_once _ _ _) as [v' r| | e|] eqn:E;
    cbn [Decoder.and_then]; try discriminate.
  apply scan_once_brace in E as [pairs ->].
  destruct (Decoder.skip_ws r); [|discriminate]. intros [= <-]. eauto.
Qed.

(** Called from less deep, [json.loads] does what it did, unless the
    scanner had run out of room. *)
Lemma json_loads_at_shallower (depth depth' : nat) (s : str) :
  depth' <= depth ->
  json_loads_at depth s <> Raise RecursionError ->
  json_loads_at depth' s = json_loads_at depth s.
Proof.
  intros Hle. unfold json_loads_at, Decoder.decode. intros H.
  destruct (room_stable (2 * length s + 2)) as (Hv & _ & _).
  rewrite (Hv (scanner_room depth) (scanner_room depth')); [reflexivity| |].
  - unfold scanner_room. lia.
  - intros E. rewrite E in H. now apply H.
Qed.

Lemma json_loads_of_extractor (m : str) (v : json) :
  json_loads_at in_extractor m = Ok v -> json_loads m = Ok v.
Proof.
  intros H. unfold json_loads.
  rewrite (json_loads_at_shallower in_extractor at_module);
    [exact H|unfold at_module, in_extractor; lia|].
  rewrite H. discriminate.
Qed.

Lemma json_loads_malformed (m : str) :
  json_loads_at in_extractor m = Raise JSONDecodeError ->
  json_loads m = Raise JSONDecodeError.
Proof.
  intros H. unfold json_loads.
  rewrite (json_loads_at_shallower in_extractor at_module);
    [exact H|unfold at_module, in_extractor; lia|].
  rewrite H. discriminate.
Qed.

(** ** Dictionaries *)

Lemma dict_get_set_same (d : dict) (k : str) (v : json) :
  dict_get (dict_set d k v) k = Some v.
Proof.
  induction d as [|[k' v'] d IH]; simpl.
  - now rewrite decide_True.
  - destruct (decide (k' = k)) as [->|Hne]; simpl.
    + now rewrite decide_True.
    + now rewrite decide_False.
Qed.

Lemma dict_get_set_other (d : dict) (k k0 : str) (v : json) :
  k0 <> k -> dict_get (dict_set d k v) k0 = dict_get d k0.
Proof.
  intros Hne. induction d as [|[k' v'] d IH]; simpl.
  - now rewrite decide_False by congruence.
  - destruct (decide (k' = k)) as [->|Hk]; simpl.
    + now rewrite !decide_False by congruence.
    + destruct (decide (k' = k0)); auto.
Qed.

(** Assigning to a key that is present keeps the keys as they are;
    a new key goes to the end. *)
Lemma dict_keys_set (d : dict) (k : str) (v : json) :
  dict_keys (dict_set d k v) =
  if decide (k ∈ dict_keys d) then dict_keys d else dict_keys d ++ [k].
Proof.
  unfold dict_keys. induction d as [|[k' v'] d IH]; cbn [dict_set map fst].
  - rewrite decide_False; [reflexivity|]. apply not_elem_of_nil.
  - destruct (decide (k' = k)) as [->|Hk]; cbn [map fst].
    + rewrite decide_True; [reflexivity|]. apply elem_of_cons. now left.
    + rewrite IH.
      destruct (decide (k ∈ map fst d)) as [Hi|Hi].
      * rewrite decide_True; [reflexivity|]. apply elem_of_cons. now right.
      * rewrite decide_False; [reflexivity|].
        intros [Hj|Hj]%elem_of_cons; [congruence|contradiction].
Qed.

(** ** [extract_json_from_text] *)

Lemma json_pattern_shape (text m : str) :
  In m (json_pattern text) ->
  exists body, m = "{"%char :: body ++ ["}"%char] /\ mem_char "}" body = false.
Proof. apply findall_shape. Qed.

(** What a record is made of. *)
Lemma record_of_inv (m : str) (r : dict) :
  record_of m = Some r ->
  exists d,
    json_loads_at in_extractor m = Ok (JObject d)
    /\ has_surrogate m = false
    /\ r = dict_set d chunk_id_key (JString (MD5.hexdigest m)).
Proof.
  unfold record_of, str_encode.
  destruct (json_loads_at in_extractor m) as [[| | | | | |d]|]; try discriminate.
  destruct (has_surrogate m); [discriminate|].
  intros [= <-]. eauto.
Qed.

Lemma record_of_decoded (m : str) (d : dict) :
  json_loads_at in_extractor m = Ok (JObject d) ->
  has_surrogate m = false ->
  record_of m = Some (dict_set d chunk_id_key (JString (MD5.hexdigest m)))
  /\ escapes m = None.
Proof.
  intros Hd Hs. unfold record_of, escapes, str_encode. now rewrite Hd, Hs.
Qed.

Lemma record_of_malformed (m : str) :
  json_loads_at in_extractor m = Raise JSONDecodeError ->
  record_of m = None /\ escapes m = None.
Proof. intros H. unfold record_of, escapes. now rewrite H. Qed.

(** With a match that opens with a brace the loop ends only at an
    exception of the scanner or of [encode]. *)
Lemma escapes_kinds (rest : str) (e : exn) :
  escapes ("{"%char :: rest) = Some e ->
  e = ValueError \/ e = RecursionError \/ e = UnicodeEncodeError.
Proof.
  unfold escapes, str_encode.
  destruct (json_loads_at in_extractor _) as [v|e0] eqn:E.
  - apply json_loads_at_brace in E as [pairs ->].
    destruct (has_surrogate _); [|discriminate]. intros [= <-]. auto.
  - destruct (decide (e0 = JSONDecodeError)); [discriminate|].
    intros [= <-]. apply json_loads_at_raises in E as [?|[?|?]]; auto.
    contradiction.
Qed.

(** A match that opens with a brace and yields neither a record nor an
    exception is one that [json.loads] rejects. *)
Lemma skipped_is_malformed (rest : str) :
  record_of ("{"%char :: rest) = None ->
  escapes ("{"%char :: rest) = None ->
  json_loads_at in_extractor ("{"%char :: rest) = Raise JSONDecodeError.
Proof.
  unfold record_of, escapes, str_encode.
  destruct (json_loads_at in_extractor _) as [v|e0] eqn:E.
  - apply json_loads_at_brace in E as [pairs ->].
    destruct (has_surrogate _); discriminate.
  - destruct (decide (e0 = JSONDecodeError)) as [->|]; [reflexivity|discriminate].
Qed.

Lemma first_escape_cons (m : str) (matches : list str) :
  first_escape (m :: matches)
  = match escapes m with
    | Some e => Some e
    | None => first_escape matches
    end.
Proof. unfold first_escape. cbn [omap list_omap]. now destruct (escapes m). Qed.

Lemma first_escape_app (ms1 ms2 : list str) :
  first_escape (ms1 ++ ms2)
  = match first_escape ms1 with
    | Some e => Some e
    | None => first_escape ms2
    end.
Proof.
  induction ms1 as [|m ms1 IH]; [reflexivity|].
  cbn [app]. rewrite !first_escape_cons. now destruct (escapes m).
Qed.

Lemma first_escape_none (matches : list str) :
  first_escape matches = None <-> Forall (fun m => escapes m = None) matches.
Proof.
  induction matches as [|m matches IH]; [split; [constructor|reflexivity]|].
  rewrite first_escape_cons, Forall_cons.
  destruct (escapes m) as [e|]; [split; [discriminate|intros [[=] _]]|].
  rewrite IH. tauto.
Qed.

Lemma first_escape_some (matches : list str) (e : exn) :
  first_escape matches = Some e -> exists m, In m matches /\ escapes m = Some e.
Proof.
  induction matches as [|m matches IH]; [discriminate|].
  rewrite first_escape_cons. destruct (escapes m) as [e0|] eqn:E.
  - intros [= <-]. exists m. split; [now left|exact E].
  - intros (m' & Hin & Hm')%IH. exists m'. split; [now right|exact Hm'].
Qed.

(** The loop over any list of matches: it ends at the first match at
    which an exception escapes, and otherwise returns the list it was
    given followed by the records of the matches. *)
Lemma extract_loop_spec (matches : list str) (json_objects : list dict) :
  extract_loop matches json_objects
  = match first_escape matches with
    | Some e => Raise e
    | None => Ok (json_objects ++ omap record_of matches)
    end.
Proof.
  revert json_objects.
  induction matches as [|m matches IH]; intros acc.
  - cbn. now rewrite app_nil_r.
  - rewrite first_escape_cons. cbn [extract_loop omap list_omap].
    unfold record_of, escapes, str_encode.
    destruct (json_loads_at in_extractor m) as [v|e]; cbn [bind try_except].
    + destruct (has_surrogate m); cbn [bind try_except]; [reflexivity|].
      destruct v; cbn [setitem bind try_except]; try reflexivity.
      rewrite IH. destruct (first_escape matches); [reflexivity|].
      now rewrite <- app_assoc.
    + destruct (decide (e = JSONDecodeError)); cbn [bind]; [apply IH|reflexivity].
Qed.

Lemma extract_json_from_text_spec (text : str) :
  extract_json_from_text text = collected (json_pattern text).
Proof. unfold extract_json_from_text. apply extract_loop_spec. Qed.

(** When the function returns, no exception escaped and the list holds
    the records of the matches. *)
Lemma extract_ok_inv (text : str) (records : list dict) :
  extract_json_from_text text = Ok records ->
  first_escape (json_pattern text) = None
  /\ records = omap record_of (json_pattern text).
Proof.
  rewrite extract_json_from_text_spec. unfold collected.
  destruct (first_escape _); [discriminate|]. intros [= <-]. auto.
Qed.

Lemma collected_ok (matches : list str) :
  Forall (fun m => escapes m = None) matches ->
  collected matches = Ok (omap record_of matches).
Proof. intros H%first_escape_none. unfold collected. now rewrite H. Qed.

(** *** Texts within the limits *)

Section LimitFacts.

Import Decoder.

Ltac suffix_tac :=
  repeat first [ assumption | reflexivity | apply suffix_cons_r ].

Lemma skip_ws_suffix (s : str) : skip_ws s `suffix_of` s.
Proof.
  induction s as [|c s IH]; [reflexivity|]. simpl.
  destruct (is_ws c); suffix_tac.
Qed.

Lemma strip_prefix_suffix (p s r : str) :
  strip_prefix p s = Some r -> r `suffix_of` s.
Proof.
  revert s. induction p as [|a p IH]; intros s; simpl.
  - intros [= ->]. reflexivity.
  - destruct s as [|b s]; [discriminate|].
    destruct (Ascii.eqb a b); [|discriminate].
    intros H%IH. suffix_tac.
Qed.

Lemma scanstring_suffix (s v r : str) :
  scanstring s = Some (v, r) -> r `suffix_of` s.
Proof.
  remember (length s) as n eqn:Hn. revert s v r Hn.
  induction n as [n IH] using lt_wf_ind. intros s v r -> H.
  assert (Hrec : forall chunk t, length t < length s -> t `suffix_of` s ->
            prepend chunk (scanstring t) = Some (v, r) -> r `suffix_of` s).
  { intros chunk t Ht Hts Hp. apply prepend_inv in Hp as [v' Hp].
    specialize (IH _ Ht t v' r eq_refl Hp). now transitivity t. }
  destruct s as [|c s]; simpl in H; [discriminate|].
  repeat (first [ discriminate
                | match type of H with Some _ = Some _ => injection H as <- <- end
                | match type of H with prepend _ _ = Some _ =>
                    eapply Hrec in H; [exact H | simpl; lia | suffix_tac] end
                | break_hyp H ]); suffix_tac.
Qed.

Lemma span_digits_suffix (s ds r : str) :
  span_digits s = (ds, r) -> r `suffix_of` s.
Proof.
  revert ds r. induction s as [|c s IH]; simpl; intros ds r.
  - intros [= <- <-]. reflexivity.
  - destruct (is_digit c).
    + destruct (span_digits s) as [ds' r'] eqn:E. intros [= <- <-].
      specialize (IH _ _ eq_refl). suffix_tac.
    + intros [= <- <-]. reflexivity.
Qed.

Lemma match_integer_suffix (s ds r : str) :
  match_integer s = Some (ds, r) -> r `suffix_of` s.
Proof.
  unfold match_integer. intros H.
  repeat (first [ discriminate
                | match type of H with Some _ = Some _ => injection H as <- <- end
                | match type of H with
                  | context [span_digits ?t] =>
                      let E := fresh "E" in
                      destruct (span_digits t) eqn:E; apply span_digits_suffix in E
                  end
                | break_hyp H ]);
  repeat match goal with
         | E : (_, _) = (_, _) |- _ => injection E as <- <-
         end; suffix_tac.
Qed.

Lemma match_frac_suffix (s ds r : str) :
  match_frac s = (ds, r) -> r `suffix_of` s.
Proof.
  unfold match_frac. intros H.
  repeat (first [ match type of H with (_, _) = (_, _) => injection H as <- <- end
                | match type of H with
                  | context [span_digits ?t] =>
                      let E := fresh "E" in
                      destruct (span_digits t) eqn:E; apply span_digits_suffix in E
                  end
                | break_hyp H ]); suffix_tac.
Qed.

Lemma match_exp_suffix (s ds r : str) :
  match_exp s = (ds, r) -> r `suffix_of` s.
Proof.
  unfold match_exp. intros H.
  repeat (first [ match type of H with (_, _) = (_, _) => injection H as <- <- end
                | match type of H with
                  | context [span_digits ?t] =>
                      let E := fresh "E" in
                      destruct (span_digits t) eqn:E; apply span_digits_suffix in E
                  end
                | break_hyp H ]);
  repeat match goal with
         | E : (_, _) = (_, _) |- _ => injection E as <- <-
         end; suffix_tac.
Qed.

Lemma scan_atom_suffix (s : str) (v : json) (r : str) :
  scan_atom s = Parsed v r -> r `suffix_of` s.
Proof.
  destruct (scan_atom_cases s)
    as [(w & v' & r' & E & Hw & ->)|[[-> _]|[-> _]]]; [| |discriminate].
  - intros [= <- <-]. now apply strip_prefix_suffix in E.
  - intros H. apply match_number_inv in H
      as (integer & r1 & frac & r2 & exp & E1 & E2 & E3 & _).
    apply match_integer_suffix in E1. apply match_frac_suffix in E2.
    apply match_exp_suffix in E3.
    transitivity r2; [exact E3|]. now transitivity r1.
Qed.

(** What is left behind a value is the end of the text. *)
Lemma scan_suffix (fuel : nat) :
  (forall room s v r, scan_once fuel room s = Parsed v r -> r `suffix_of` s)
  /\ (forall room s v r, parse_elements fuel room s = Parsed v r ->
                         r `suffix_of` s)
  /\ (forall room s v r, parse_members fuel room s = Parsed v r ->
                         r `suffix_of` s).
Proof.
  induction fuel as [|fuel (IHv & IHe & IHm)].
  { repeat split; intros room s v r H; discriminate H. }
  repeat split; intros room s v r.
  - cbn [scan_once]. destruct s as [|c s]; [discriminate|].
    destruct (Ascii.eqb c dquote).
    { destruct (scanstring s) as [[v0 r0]|] eqn:E; [|discriminate].
      intros [= _ <-]. apply scanstring_suffix in E. suffix_tac. }
    destruct (Ascii.eqb c "{").
    { destruct room as [|room]; [discriminate|].
      pose proof (skip_ws_suffix s) as Hw.
      destruct (skip_ws s) as [|c1 r1]; [discriminate|].
      destruct (Ascii.eqb c1 "}").
      - intros [= _ <-]. apply suffix_cons_r. transitivity (c1 :: r1); suffix_tac.
      - intros (a & r0 & H & [= _ <-])%and_then_parsed. apply IHm in H.
        apply suffix_cons_r. now transitivity (c1 :: r1). }
    destruct (Ascii.eqb c "[").
    { destruct room as [|room]; [discriminate|].
      pose proof (skip_ws_suffix s) as Hw.
      destruct (skip_ws s) as [|c1 r1]; [discriminate|].
      destruct (Ascii.eqb c1 "]").
      - intros [= _ <-]. apply suffix_cons_r. transitivity (c1 :: r1); suffix_tac.
      - intros (a & r0 & H & [= _ <-])%and_then_parsed. apply IHe in H.
        apply suffix_cons_r. now transitivity (c1 :: r1). }
    apply scan_atom_suffix.
  - cbn [parse_elements].
    intros (v0 & r0 & H & Hk)%and_then_parsed. apply IHv in H.
    pose proof (skip_ws_suffix r0) as Hw.
    destruct (skip_ws r0) as [|c r1]; [discriminate|].
    assert (Hr1 : r1 `suffix_of` s).
    { transitivity r0; [|exact H]. transitivity (c :: r1); suffix_tac. }
    destruct (Ascii.eqb c "]"); [now injection Hk as _ <-|].
    destruct (Ascii.eqb c ","); [|discriminate].
    apply and_then_parsed in Hk as (vs & r2 & Hk & [= _ <-]). apply IHe in Hk.
    transitivity (skip_ws r1); [exact Hk|].
    transitivity r1; [apply skip_ws_suffix|exact Hr1].
  - cbn [parse_members]. destruct s as [|q r0]; [discriminate|].
    destruct (Ascii.eqb q dquote); [|discriminate].
    destruct (scanstring r0) as [[key r1]|] eqn:E; [|discriminate].
    apply scanstring_suffix in E.
    pose proof (skip_ws_suffix r1) as Hw1.
    destruct (skip_ws r1) as [|c r2]; [discriminate|].
    destruct (Ascii.eqb c ":"); [|discriminate].
    assert (Hr2 : skip_ws r2 `suffix_of` q :: r0).
    { apply suffix_cons_r. transitivity r1; [|exact E].
      transitivity (c :: r2); [|exact Hw1].
      apply suffix_cons_r, skip_ws_suffix. }
    intros (v0 & r3 & H & Hk)%and_then_parsed. apply IHv in H.
    pose proof (skip_ws_suffix r3) as Hw3.
    destruct (skip_ws r3) as [|c' r4]; [discriminate|].
    assert (Hr4 : r4 `suffix_of` q :: r0).
    { transitivity (skip_ws r2); [|exact Hr2]. transitivity r3; [|exact H].
      transitivity (c' :: r4); suffix_tac. }
    destruct (Ascii.eqb c' "}"); [now injection Hk as _ <-|].
    destruct (Ascii.eqb c' ","); [|discriminate].
    apply and_then_parsed in Hk as (kvs & r5 & Hk & [= _ <-]). apply IHm in Hk.
    transitivity (skip_ws r4); [exact Hk|].
    transitivity r4; [apply skip_ws_suffix|exact Hr4].
Qed.

Lemma count_openers_app (s t : str) :
  count_openers (s ++ t) = count_openers s + count_openers t.
Proof. induction s as [|c s IH]; simpl; [reflexivity|]. rewrite IH. lia. Qed.

Lemma count_openers_suffix (r s : str) :
  r `suffix_of` s -> count_openers r <= count_openers s.
Proof. intros [k ->]. rewrite count_openers_app. lia. Qed.

Lemma digit_runs_suffix (n : nat) (r s : str) :
  r `suffix_of` s -> digit_runs_within n s = true -> digit_runs_within n r = true.
Proof.
  intros [k ->]. induction k as [|c k IH]; [auto|].
  cbn [app digit_runs_within]. intros [_ H]%andb_true_iff. auto.
Qed.

(** The digits [int] counts are a run of digits of the text. *)
Lemma int_of_literal_within (s integer r : str) :
  digit_runs_within int_max_str_digits s = true ->
  match_integer s = Some (integer, r) ->
  exists z, int_of_literal integer = Ok z.
Proof.
  assert (Hrun : forall c t ds r',
            is_digit c = true -> (c =? "-")%char = false ->
            digit_runs_within int_max_str_digits (c :: t) = true ->
            span_digits t = (ds, r') ->
            exists z, int_of_literal (c :: ds) = Ok z).
  { intros c t ds r' Hc Hm Hruns E. unfold int_of_literal. rewrite Hm.
    cbn [digit_runs_within span_digits] in Hruns. rewrite Hc, E in Hruns.
    apply andb_true_iff in Hruns as [Hlen _]. cbn [fst] in Hlen.
    apply Nat.leb_le in Hlen.
    destruct (int_max_str_digits <? length (c :: ds)) eqn:El; [|eauto].
    apply Nat.ltb_lt in El. lia. }
  assert (Hzero : forall sign, sign = [] \/ sign = ["-"%char] ->
            exists z, int_of_literal (sign ++ ["0"%char]) = Ok z).
  { intros sign [-> | ->]; eexists; reflexivity. }
  assert (Hsigned : forall c ds, is_digit c = true ->
            (exists z, int_of_literal (c :: ds) = Ok z) ->
            exists z, int_of_literal ("-"%char :: c :: ds) = Ok z).
  { intros c ds Hc [z Hz]. unfold int_of_literal in *.
    change (("-" =? "-")%char) with true. cbv iota.
    assert (Hm : (c =? "-")%char = false)
      by (destruct (Ascii.eqb_spec c "-"); [now subst c|reflexivity]).
    rewrite Hm in Hz.
    destruct (int_max_str_digits <? length (c :: ds)); [discriminate|eauto]. }
  intros Hruns. unfold match_integer.
  destruct s as [|c0 s0]; [discriminate|].
  destruct (Ascii.eqb c0 "-") eqn:E0.
  - apply Ascii.eqb_eq in E0. subst c0.
    cbn [digit_runs_within] in Hruns. apply andb_true_iff in Hruns as [_ Hruns].
    destruct s0 as [|c t]; [discriminate|].
    destruct (Ascii.eqb c "0") eqn:Ez.
    + intros [= <- _]. apply Ascii.eqb_eq in Ez. subst c.
      apply (Hzero ["-"%char]). now right.
    + destruct (is_digit c) eqn:Hc; [|discriminate].
      destruct (span_digits t) as [ds r'] eqn:E. intros [= <- _].
      cbn [app]. apply Hsigned; [exact Hc|].
      apply (Hrun c t ds r'); auto.
      destruct (Ascii.eqb_spec c "-"); [now subst c|reflexivity].
  - destruct (Ascii.eqb c0 "0") eqn:Ez.
    + intros [= <- _]. apply Ascii.eqb_eq in Ez. subst c0.
      apply (Hzero []). now left.
    + destruct (is_digit c0) eqn:Hc; [|discriminate].
      destruct (span_digits s0) as [ds r'] eqn:E. intros [= <- _].
      cbn [app]. now apply (Hrun c0 s0 ds r').
Qed.

Lemma match_number_within (s : str) (e : exn) :
  digit_runs_within int_max_str_digits s = true ->
  match_number s <> Failed e.
Proof.
  intros Hruns H. unfold match_number in H.
  destruct (match_integer s) as [[integer r1]|] eqn:E1; [|discriminate].
  destruct (int_of_literal_within _ _ _ Hruns E1) as [z Hz].
  rewrite Hz in H.
  destruct (match_frac r1) as [frac r2]. destruct (match_exp r2) as [exp r3].
  destruct frac, exp; discriminate.
Qed.

Lemma opener_room (c : ascii) (s : str) (room : nat) :
  is_opener c = true -> count_openers (c :: s) <= room ->
  exists room', room = S room' /\ count_openers s <= room'.
Proof.
  intros Hc. cbn [count_openers]. rewrite Hc.
  destruct room as [|room']; [lia|]. intros H. exists room'. split; [reflexivity|lia].
Qed.

(** In a text without a long run of digits and with no more opening
    braces and brackets than the scanner has room for, the scanner
    raises no exception. *)
Lemma no_overflow (fuel : nat) :
  (forall room s e,
      digit_runs_within int_max_str_digits s = true ->
      count_openers s <= room ->
      scan_once fuel room s <> Failed e)
  /\ (forall room s e,
        digit_runs_within int_max_str_digits s = true ->
        count_openers s <= room ->
        parse_elements fuel room s <> Failed e)
  /\ (forall room s e,
        digit_runs_within int_max_str_digits s = true ->
        count_openers s <= room ->
        parse_members fuel room s <> Failed e).
Proof.
  induction fuel as [|fuel (IHv & IHe & IHm)].
  { repeat split; intros room s e _ _; discriminate. }
  assert (Hin : forall r s room,
            r `suffix_of` s ->
            digit_runs_within int_max_str_digits s = true ->
            count_openers s <= room ->
            digit_runs_within int_max_str_digits r = true
            /\ count_openers r <= room).
  { intros r s room Hrs Hruns Hcount. split.
    - now apply (digit_runs_suffix _ r s).
    - apply count_openers_suffix in Hrs. lia. }
  repeat split; intros room s e Hruns Hcount.
  - cbn [scan_once]. destruct s as [|c s]; [discriminate|].
    destruct (Ascii.eqb c dquote).
    { destruct (scanstring s) as [[v r]|]; discriminate. }
    destruct (Ascii.eqb c "{") eqn:Eb.
    { destruct (opener_room c s room) as (room' & -> & Hroom);
        [unfold is_opener; now rewrite Eb|exact Hcount|].
      pose proof (skip_ws_suffix s) as Hw.
      destruct (skip_ws s) as [|c1 r1]; [discriminate|].
      destruct (Ascii.eqb c1 "}"); [discriminate|].
      intros [H|(a & r0 & _ & H)]%and_then_failed; [|discriminate].
      destruct (Hin (c1 :: r1) s room') as [Hr Hc]; auto.
      { eapply digit_runs_suffix; [|exact Hruns]. suffix_tac. }
      now apply (IHm room' (c1 :: r1) e). }
    destruct (Ascii.eqb c "[") eqn:Ek.
    { destruct (opener_room c s room) as (room' & -> & Hroom);
        [unfold is_opener; rewrite Ek; apply orb_true_r|exact Hcount|].
      pose proof (skip_ws_suffix s) as Hw.
      destruct (skip_ws s) as [|c1 r1]; [discriminate|].
      destruct (Ascii.eqb c1 "]"); [discriminate|].
      intros [H|(a & r0 & _ & H)]%and_then_failed; [|discriminate].
      destruct (Hin (c1 :: r1) s room') as [Hr Hc]; auto.
      { eapply digit_runs_suffix; [|exact Hruns]. suffix_tac. }
      now apply (IHe room' (c1 :: r1) e). }
    destruct (scan_atom_cases (c :: s))
      as [(w & v' & r' & E & Hw & ->)|[[-> _]|[-> _]]]; try discriminate.
    now apply match_number_within.
  - cbn [parse_elements].
    intros [H|(v & r & Hv & H)]%and_then_failed; [now apply IHv in H|].
    apply (proj1 (scan_suffix fuel)) in Hv.
    pose proof (skip_ws_suffix r) as Hw.
    destruct (skip_ws r) as [|c r1]; [discriminate|].
    destruct (Ascii.eqb c "]"); [discriminate|].
    destruct (Ascii.eqb c ","); [|discriminate].
    apply and_then_failed in H as [H|(a & r0 & _ & H)]; [|discriminate].
    destruct (Hin (skip_ws r1) s room) as [Hr Hc]; auto.
    { transitivity r1; [apply skip_ws_suffix|].
      transitivity r; [|exact Hv]. transitivity (c :: r1); suffix_tac. }
    now apply (IHe room (skip_ws r1) e).
  - cbn [parse_members]. destruct s as [|q r0]; [discriminate|].
    destruct (Ascii.eqb q dquote); [|discriminate].
    destruct (scanstring r0) as [[key r1]|] eqn:E; [|discriminate].
    apply scanstring_suffix in E.
    pose proof (skip_ws_suffix r1) as Hw1.
    destruct (skip_ws r1) as [|c r2]; [discriminate|].
    destruct (Ascii.eqb c ":"); [|discriminate].
    assert (Hr2 : skip_ws r2 `suffix_of` q :: r0).
    { apply suffix_cons_r. transitivity r1; [|exact E].
      transitivity (c :: r2); [|exact Hw1].
      apply suffix_cons_r, skip_ws_suffix. }
    intros [H|(v & r3 & Hv & H)]%and_then_failed.
    { destruct (Hin _ _ room Hr2 Hruns Hcount) as [Hr Hc].
      now apply (IHv room (skip_ws r2) e). }
    apply (proj1 (scan_suffix fuel)) in Hv.
    pose proof (skip_ws_suffix r3) as Hw3.
    destruct (skip_ws r3) as [|c' r4]; [discriminate|].
    destruct (Ascii.eqb c' "}"); [discriminate|].
    destruct (Ascii.eqb c' ","); [|discriminate].
    apply and_then_failed in H as [H|(a & r5 & _ & H)]; [|discriminate].
    destruct (Hin (skip_ws r4) (q :: r0) room) as [Hr Hc]; auto.
    { transitivity r4; [apply skip_ws_suffix|].
      transitivity (skip_ws r2); [|exact Hr2]. transitivity r3; [|exact Hv].
      transitivity (c' :: r4); suffix_tac. }
    now apply (IHm room (skip_ws r4) e).
Qed.

End LimitFacts.

(** At a match within the limits no exception escapes the loop. *)
Lemma within_limits_no_escape (rest : str) :
  within_limits ("{"%char :: rest) = true -> escapes ("{"%char :: rest) = None.
Proof.
  unfold within_limits.
  intros [[Hruns Hcount%Nat.leb_le]%andb_true_iff Hs%negb_true_iff]%andb_true_iff.
  unfold escapes, str_encode. rewrite Hs.
  destruct (json_loads_at in_extractor _) as [v|e] eqn:E.
  - now apply json_loads_at_brace in E as [pairs ->].
  - destruct (decide (e = JSONDecodeError)) as [|Hne]; [reflexivity|].
    exfalso. revert E. unfold json_loads_at, Decoder.decode.
    rewrite skip_ws_not_ws by reflexivity.
    destruct (Decoder.scan_once _ _ _) as [v r| | e'|] eqn:Es;
      cbn [Decoder.and_then].
    + destruct (Decoder.skip_ws r); [discriminate|]. intros [= <-]. now apply Hne.
    + intros [= <-]. now apply Hne.
    + now apply (proj1 (no_overflow _)) in Es.
    + intros [= <-]. now apply Hne.
Qed.

(** C2, as amended.  For every input text the function does what the
    loop does over the matches, in order: a match that [json.loads]
    rejects with [json.JSONDecodeError] is passed over, as if it were not
    among the matches; when the function returns, the list holds, in the
    order of the matches, the record of each match that parses, and a
    match gave no record exactly when [json.loads] rejected it; when the
    function raises, the exception is the [ValueError] or the
    [RecursionError] of [json.loads], or the [UnicodeEncodeError] of
    [encode], at the first match at which one of them occurs; and it
    returns whenever every match is within the limits of the
    interpreter. *)
Theorem extract_json_from_text_collects (text : str) :
  extract_json_from_text text = collected (json_pattern text)
  /\ (forall before m after json_objects,
        json_loads_at in_extractor m = Raise JSONDecodeError ->
        extract_loop (before ++ m :: after) json_objects
        = extract_loop (before ++ after) json_objects)
  /\ (forall records,
        extract_json_from_text text = Ok records ->
        records = omap record_of (json_pattern text)
        /\ forall m, In m (json_pattern text) ->
             (record_of m = None
              <-> json_loads_at in_extractor m = Raise JSONDecodeError))
  /\ (forall e,
        extract_json_from_text text = Raise e ->
        (e = ValueError \/ e = RecursionError \/ e = UnicodeEncodeError)
        /\ exists m, In m (json_pattern text) /\ escapes m = Some e)
  /\ (Forall (fun m => within_limits m = true) (json_pattern text) ->
      extract_json_from_text text = Ok (omap record_of (json_pattern text))).
Proof.
  split; [apply extract_json_from_text_spec|]. split; [|split; [|split]].
  - intros before m after acc Hm.
    destruct (record_of_malformed m Hm) as [Hrec Hesc].
    rewrite !extract_loop_spec, !first_escape_app, first_escape_cons, Hesc.
    rewrite !omap_app. cbn [omap list_omap]. now rewrite Hrec.
  - intros records [Hesc ->]%extract_ok_inv. split; [reflexivity|].
    intros m Hin. split; [|now intros H%record_of_malformed].
    rewrite first_escape_none, Forall_forall in Hesc.
    apply json_pattern_shape in Hin as Hshape. destruct Hshape as (body & -> & _).
    intros Hrec. apply skipped_is_malformed; [exact Hrec|].
    apply Hesc. now apply list_elem_of_In.
  - rewrite extract_json_from_text_spec. unfold collected. intros e.
    destruct (first_escape _) as [e'|] eqn:E; [|discriminate].
    intros [= <-]. apply first_escape_some in E as (m & Hin & Hm).
    split; [|eauto].
    apply json_pattern_shape in Hin as (body & -> & _).
    now apply escapes_kinds in Hm.
  - intros Hall. rewrite extract_json_from_text_spec. apply collected_ok.
    apply Forall_forall. intros m Hin. rewrite Forall_forall in Hall.
    specialize (Hall m Hin). apply list_elem_of_In in Hin.
    apply json_pattern_shape in Hin as (body & -> & _).
    now apply within_limits_no_escape.
Qed.

(** C2 as stated fails: an exception that is not
    [json.JSONDecodeError] is not caught.  A fragment with an integer of
    4301 digits ends the function with [ValueError], one with arrays
    nested 1000 deep with [RecursionError], and one with a lone surrogate
    in its text, which [json.loads] accepts, with
    [UnicodeEncodeError]. *)
Lemma uncaught_exceptions :
  json_pattern long_integer = [long_integer]
  /\ extract_json_from_text long_integer = Raise ValueError
  /\ extract_json_from_text deep_arrays = Raise RecursionError
  /\ (exists v, json_loads raw_surrogate = Ok v)
  /\ extract_json_from_text raw_surrogate = Raise UnicodeEncodeError
  /\ extract_json_from_text (lit "{'a': 1} " ++ long_integer) = Raise ValueError
  /\ ~ (forall text, exists records, extract_json_from_text text = Ok records).
Proof.
  assert (H : extract_json_from_text long_integer = Raise ValueError)
    by (vm_compute; reflexivity).
  split; [vm_compute; reflexivity|]. split; [exact H|].
  split; [vm_compute; reflexivity|].
  split; [eexists; vm_compute; reflexivity|].
  split; [vm_compute; reflexivity|]. split; [vm_compute; reflexivity|].
  intros Hall. destruct (Hall long_integer) as [records Hr].
  rewrite H in Hr. discriminate.
Qed.

(** C9.  Every record returned by [extract_json_from_text] comes from a
    match that decodes to an object; it is that object with the MD5 hex
    digest of the match stored under ["chunk_id"], in place of the
    value the object had under that key, if it had one. *)
Theorem chunk_id_is_digest (text : str) (records : list dict) (r : dict) :
  extract_json_from_text text = Ok records ->
  In r records ->
  exists m d,
    In m (json_pattern text)
    /\ json_loads m = Ok (JObject d)
    /\ r = dict_set d chunk_id_key (JString (MD5.hexdigest m))
    /\ dict_get r chunk_id_key = Some (JString (MD5.hexdigest m))
    /\ dict_keys r = (if decide (chunk_id_key ∈ dict_keys d) then dict_keys d
                      else dict_keys d ++ [chunk_id_key]).
Proof.
  intros Hrun Hin.
  apply extract_ok_inv in Hrun as [_ ->].
  apply list_elem_of_In, list_elem_of_omap in Hin as (m & Hm & Hrec).
  apply list_elem_of_In in Hm.
  apply record_of_inv in Hrec as (d & Hd & _ & ->).
  apply json_loads_of_extractor in Hd.
  exists m, d. repeat split; auto using dict_get_set_same, dict_keys_set.
Qed.

Lemma chunk_id_is_digest_witness :
  let text := lit "{'chunk_id': 5, 'z': 'q'}" in
  let r := [(chunk_id_key, JString (raw "7691001291f02ce6f749e659ba1ac6c1"));
            (raw "z", JString (raw "q"))] in
  extract_json_from_text text = Ok [r]
  /\ In r [r]
  /\ exists m d,
       In m (json_pattern text)
       /\ json_loads m = Ok (JObject d)
       /\ r = dict_set d chunk_id_key (JString (MD5.hexdigest m))
       /\ dict_get r chunk_id_key = Some (JString (MD5.hexdigest m))
       /\ dict_keys r = (if decide (chunk_id_key ∈ dict_keys d) then dict_keys d
                         else dict_keys d ++ [chunk_id_key]).
Proof.
  intros text r.
  assert (Hrun : extract_json_from_text text = Ok [r]) by (vm_compute; reflexivity).
  assert (Hin : In r [r]) by (simpl; left; reflexivity).
  split; [exact Hrun|]. split; [exact Hin|].
  exact (chunk_id_is_digest text [r] r Hrun Hin).
Defined.

(** C3.  The object [{"a": {"b": 1}}] is valid JSON, but the pattern
    stops at the first closing brace: the only match is the truncated
    text, which does not parse, and nothing is extracted.  In any text a
    match has no closing brace before its last character. *)
Theorem nested_object_not_extracted :
  let text := lit "{'a': {'b': 1}}" in
  json_loads text = Ok (JObject [(raw "a", JObject [(raw "b", JInt 1)])])
  /\ json_pattern text = [lit "{'a': {'b': 1}"]
  /\ json_loads (lit "{'a': {'b': 1}") = Raise JSONDecodeError
  /\ extract_json_from_text text = Ok []
  /\ (forall any m, In m (json_pattern any) ->
        exists body, m = "{"%char :: body ++ ["}"%char]
                     /\ mem_char "}" body = false).
Proof.
  repeat (split; [vm_compute; reflexivity|]).
  intros any m. apply json_pattern_shape.
Qed.

Lemma mem_char_rev (c : ascii) (s : str) : mem_char c (rev s) = mem_char c s.
Proof.
  induction s as [|d s IH]; [reflexivity|].
  simpl rev. rewrite mem_char_app, IH, mem_char_cons. simpl.
  rewrite orb_false_r. apply orb_comm.
Qed.

Lemma closed_once_inv (o : str) :
  closed_once o = true ->
  exists body d,
    o = "{"%char :: body ++ ["}"%char]
    /\ mem_char "}" body = false
    /\ json_loads_at in_extractor o = Ok (JObject d)
    /\ has_surrogate o = false.
Proof.
  destruct o as [|c rest]; [discriminate|]. unfold closed_once.
  intros H. apply andb_true_iff in H as [H Hs%negb_true_iff].
  apply andb_true_iff in H as [H Hloads].
  apply andb_true_iff in H as [Hc Hrest].
  apply Ascii.eqb_eq in Hc. subst c.
  destruct (rev rest) as [|l body] eqn:Erev; [discriminate|].
  apply andb_true_iff in Hrest as [Hl Hbody].
  apply Ascii.eqb_eq in Hl. subst l.
  apply negb_true_iff in Hbody.
  assert (Hrest : rest = rev body ++ ["}"%char]).
  { rewrite <- (rev_involutive rest), Erev. reflexivity. }
  destruct (json_loads_at in_extractor _) as [v|] eqn:E; [|discriminate].
  destruct (json_loads_at_brace _ _ _ E) as [pairs ->].
  exists (rev body), (dict_of_pairs pairs). rewrite mem_char_rev.
  split; [now f_equal|]. split; [exact Hbody|]. split; [reflexivity|exact Hs].
Qed.

(** In a text of plain fragments the matches are the fragments. *)
Lemma json_pattern_embed (segments : list (str * str)) (t0 : str) :
  mem_char "{" t0 = false ->
  plain_segments segments = true ->
  json_pattern (embed t0 segments) = map fst segments.
Proof.
  unfold json_pattern. revert t0.
  induction segments as [|[o t] segments IH]; intros t0 Ht0 Hplain.
  - simpl. rewrite <- (app_nil_r t0), findall_skip by exact Ht0. reflexivity.
  - simpl in Hplain. apply andb_true_iff in Hplain as [Hseg Hplain].
    apply andb_true_iff in Hseg as [Ho Ht]. apply negb_true_iff in Ht.
    apply closed_once_inv in Ho as (body & d & -> & Hbody & _).
    cbn [embed map fst]. rewrite findall_skip by exact Ht0.
    cbn [app]. rewrite <- app_assoc. cbn [app].
    rewrite findall_span by exact Hbody.
    now rewrite (IH t Ht Hplain).
Qed.

(** The records of plain fragments. *)
Lemma plain_segments_records (segments : list (str * str)) :
  plain_segments segments = true ->
  Forall (fun seg =>
            exists d, json_loads_at in_extractor (fst seg) = Ok (JObject d)
              /\ record_of (fst seg)
                 = Some (dict_set d chunk_id_key
                           (JString (MD5.hexdigest (fst seg))))
              /\ escapes (fst seg) = None)
         segments.
Proof.
  induction segments as [|[o t] segments IH]; [constructor|].
  cbn [plain_segments forallb fst snd].
  intros [[Ho _]%andb_true_iff Hrest]%andb_true_iff.
  constructor; [|now apply IH].
  apply closed_once_inv in Ho as (body & d & _ & _ & Hd & Hs).
  exists d. cbn [fst]. split; [exact Hd|]. now apply record_of_decoded.
Qed.

(** C1, as amended.  In a text whose fragments open with a brace, have
    their only closing brace as last character, are decoded by
    [json.loads] (so are well-formed and within the limits of the
    interpreter) and hold no lone surrogate, each preceded and followed
    by text without an opening brace, every fragment is extracted
    exactly once, in order, and its record carries the MD5 hex digest of
    the fragment's text as identifier. *)
Theorem plain_objects_extracted_once (t0 : str) (segments : list (str * str)) :
  mem_char "{" t0 = false ->
  plain_segments segments = true ->
  extracts_each_once t0 segments
  /\ json_pattern (embed t0 segments) = map fst segments
  /\ Forall (fun seg =>
               exists d, json_loads (fst seg) = Ok (JObject d)
                 /\ record_of (fst seg)
                    = Some (dict_set d chunk_id_key
                              (JString (MD5.hexdigest (fst seg)))))
            segments.
Proof.
  intros Ht0 Hplain.
  pose proof (plain_segments_records segments Hplain) as Hall.
  split; [|split; [now apply json_pattern_embed|]].
  - unfold extracts_each_once.
    rewrite extract_json_from_text_spec.
    rewrite (json_pattern_embed _ _ Ht0 Hplain).
    rewrite collected_ok.
    2:{ apply Forall_map. eapply Forall_impl; [exact Hall|].
        intros seg (d & _ & _ & Hesc). exact Hesc. }
    eexists. split; [reflexivity|].
    clear Ht0 Hplain.
    induction Hall as [|[o t] segments (d & Hd & Hrec & _) _ IH].
    + constructor.
    + cbn [map fst omap list_omap]. cbn [fst] in Hrec. rewrite Hrec.
      constructor; [exact Hrec | exact IH].
  - eapply Forall_impl; [exact Hall|].
    intros seg (d & Hd & Hrec & _). exists d.
    split; [now apply json_loads_of_extractor|exact Hrec].
Qed.

Lemma plain_objects_extracted_once_witness :
  let t0 := lit "see } " in
  let segments := [(lit "{'a': 1}", lit " then "); (lit "{'b': '{'}", lit ".")] in
  mem_char "{" t0 = false
  /\ plain_segments segments = true
  /\ extracts_each_once t0 segments.
Proof.
  intros t0 segments.
  assert (H0 : mem_char "{" t0 = false) by reflexivity.
  assert (H1 : plain_segments segments = true) by (vm_compute; reflexivity).
  split; [exact H0|]. split; [exact H1|].
  exact (proj1 (plain_objects_extracted_once t0 segments H0 H1)).
Defined.

(** C1 as stated fails: a flat object with a closing brace inside a
    string, and a flat object that follows a stray opening brace, are not
    extracted. *)
Lemma flat_object_missed :
  flat_object (lit "{'a': '}'}") = true
  /\ extract_json_from_text (lit "{'a': '}'}") = Ok []
  /\ flat_object (lit "{'a': 1}") = true
  /\ extract_json_from_text (lit "{ {'a': 1}") = Ok []
  /\ ~ (forall t0 segments,
          forallb (fun seg => flat_object (fst seg)) segments = true ->
          extracts_each_once t0 segments).
Proof.
  repeat (split; [vm_compute; reflexivity|]).
  intros H.
  destruct (H [] [(lit "{'a': '}'}", [])] eq_refl) as (records & Hrun & Hall).
  vm_compute in Hrun. injection Hrun as <-. inversion Hall.
Qed.

(** ** [str.split] and [str.strip] *)

Lemma strip_prefix_app (p s r : str) :
  Decoder.strip_prefix p s = Some r <-> s = p ++ r.
Proof.
  revert s. induction p as [|a p IH]; intros s; simpl.
  - split; [now intros [= ->] | now intros ->].
  - destruct s as [|b s]; [split; discriminate|].
    destruct (Ascii.eqb a b) eqn:E.
    + apply Ascii.eqb_eq in E. subst b. rewrite IH.
      split; [now intros -> | now intros [= ->]].
    + split; [discriminate|]. intros [= -> _]. now rewrite Ascii.eqb_refl in E.
Qed.

Lemma str_partition_some (sep s before after : str) :
  str_partition sep s = Some (before, after) -> s = before ++ sep ++ after.
Proof.
  revert before. induction s as [|c s IH]; intros before; simpl.
  - destruct (Decoder.strip_prefix sep []) eqn:E; [|discriminate].
    intros [= <- <-]. now apply strip_prefix_app in E.
  - destruct (Decoder.strip_prefix sep (c :: s)) eqn:E.
    + intros [= <- <-]. now apply strip_prefix_app in E.
    + destruct (str_partition sep s) as [[b a]|]; [|discriminate].
      intros [= <- <-]. now rewrite (IH b eq_refl).
Qed.

Lemma str_partition_none (sep s : str) :
  str_partition sep s = None -> forall before after, s <> before ++ sep ++ after.
Proof.
  induction s as [|c s IH]; simpl.
  - destruct (Decoder.strip_prefix sep []) eqn:E; [discriminate|].
    intros _ before after H. destruct before; [|discriminate].
    cbn [app] in H. apply (proj2 (strip_prefix_app _ _ _)) in H. congruence.
  - destruct (Decoder.strip_prefix sep (c :: s)) eqn:E; [discriminate|].
    destruct (str_partition sep s) as [[b a]|]; [discriminate|].
    intros _ before after H. destruct before as [|c' before].
    + cbn [app] in H. apply (proj2 (strip_prefix_app _ _ _)) in H. congruence.
    + injection H as -> H. now apply (IH eq_refl before after).
Qed.

Lemma str_partition_shorter (sep s before after : str) :
  sep <> [] -> str_partition sep s = Some (before, after) ->
  length after < length s.
Proof.
  intros Hsep E. apply str_partition_some in E. subst s.
  rewrite !length_app. destruct sep; [contradiction|]. simpl. lia.
Qed.

(** More fuel than characters changes nothing. *)
Lemma split_from_enough (sep : str) (n : nat) (s : str) :
  sep <> [] -> length s <= n -> split_from n sep s = str_split sep s.
Proof.
  intros Hsep. unfold str_split. revert s.
  induction n as [n IH] using lt_wf_ind. intros s Hn.
  destruct s as [|c s].
  - destruct n; [reflexivity|]. cbn [split_from length].
    destruct (str_partition sep []) as [[b a]|] eqn:E; [|reflexivity].
    apply (str_partition_shorter _ _ _ _ Hsep) in E. simpl in E. lia.
  - destruct n as [|n]; [simpl in Hn; lia|]. cbn [split_from length].
    destruct (str_partition sep (c :: s)) as [[b a]|] eqn:E; [|reflexivity].
    apply (str_partition_shorter _ _ _ _ Hsep) in E. simpl in E, Hn.
    rewrite (IH n) by lia. rewrite (IH (length s)) by lia. reflexivity.
Qed.

Lemma str_split_unfold (sep s : str) :
  sep <> [] ->
  str_split sep s =
  match str_partition sep s with
  | Some (before, after) => before :: str_split sep after
  | None => [s]
  end.
Proof.
  intros Hsep. unfold str_split at 1.
  destruct (length s) as [|k] eqn:Ek; cbn [split_from].
  - destruct (str_partition sep s) as [[b a]|] eqn:E; [|reflexivity].
    apply (str_partition_shorter _ _ _ _ Hsep) in E. lia.
  - destruct (str_partition sep s) as [[b a]|] eqn:E; [|reflexivity].
    apply (str_partition_shorter _ _ _ _ Hsep) in E.
    rewrite split_from_enough by (auto; lia). reflexivity.
Qed.

(** Without an occurrence of the separator there is one token: the
    whole text. *)
Lemma str_split_whole (sep s : str) :
  sep <> [] ->
  (forall before after, s <> before ++ sep ++ after) ->
  str_split sep s = [s].
Proof.
  intros Hsep Hnone. rewrite str_split_unfold by exact Hsep.
  destruct (str_partition sep s) as [[b a]|] eqn:E; [|reflexivity].
  apply str_partition_some in E. now apply Hnone in E.
Qed.

Lemma lstrip_keep (chars s : str) :
  match s with [] => true | c :: _ => negb (mem_char c chars) end = true ->
  lstrip chars s = s.
Proof.
  destruct s as [|c s]; [reflexivity|]. simpl.
  intros H. apply negb_true_iff in H. now rewrite H.
Qed.

(** Stripping removes exactly the two delimiters when no end of the
    enclosed text is itself one of the stripped characters. *)
Lemma str_strip_delimited (chars body : str) (o c : ascii) :
  mem_char o chars = true -> mem_char c chars = true ->
  edges_kept chars body = true ->
  str_strip chars (o :: body ++ [c]) = body.
Proof.
  intros Ho Hc Hedges. apply andb_true_iff in Hedges as [Hfirst Hlast].
  unfold str_strip, rstrip. cbn [lstrip]. rewrite Ho.
  destruct body as [|b body].
  - simpl. now rewrite Hc.
  - rewrite (lstrip_keep chars ((b :: body) ++ [c])) by exact Hfirst.
    rewrite rev_app_distr. change (rev [c] ++ rev (b :: body)) with (c :: rev (b :: body)).
    cbn [lstrip]. rewrite Hc.
    rewrite (lstrip_keep chars (rev (b :: body))) by exact Hlast.
    apply rev_involutive.
Qed.

(** ** [extract_conceptual_space] *)

Lemma append_loop (f : str -> list str) (matches : list str)
      (groups : list (list str)) :
  fold_left (fun cs m => append_at all_concepts (f m) cs) matches
            [(all_concepts, groups)]
  = [(all_concepts, groups ++ map f matches)].
Proof.
  revert groups. induction matches as [|m matches IH]; intros groups.
  - simpl. now rewrite app_nil_r.
  - cbn [fold_left append_at map fst snd].
    rewrite decide_True by reflexivity.
    rewrite IH, <- app_assoc. reflexivity.
Qed.

Lemma extract_conceptual_space_map (text : str) :
  extract_conceptual_space text
  = [(all_concepts, map concepts_of (concept_pattern text))].
Proof. unfold extract_conceptual_space. now rewrite append_loop. Qed.

Lemma concept_pattern_shape (text m : str) :
  In m (concept_pattern text) ->
  exists body, m = "["%char :: body ++ ["]"%char] /\ mem_char "]" body = false.
Proof. apply findall_shape. Qed.

(** C4, as amended.  For every input text, [extract_conceptual_space]
    returns a dictionary with the single key ["all concepts"], holding
    one token list per bracketed span, in order: the span with every
    leading and trailing bracket character stripped, split on [", "].
    A span is an opening bracket, text without a closing bracket, and a
    closing bracket; when no end of that text is a bracket, what is split
    is exactly that text.  In particular a span [[a, b, c]] that follows
    text without an opening bracket yields the tokens a, b, c. *)
Theorem concepts_per_span (text : str) :
  extract_conceptual_space text
  = [(all_concepts, map concepts_of (concept_pattern text))]
  /\ (forall m, In m (concept_pattern text) ->
        exists body,
          m = "["%char :: body ++ ["]"%char]
          /\ mem_char "]" body = false
          /\ (edges_kept (raw "[]") body = true ->
              concepts_of m = str_split (raw ", ") body))
  /\ (forall pre post, mem_char "[" pre = false ->
        exists others,
          extract_conceptual_space (pre ++ raw "[a, b, c]" ++ post)
          = [(all_concepts, [raw "a"; raw "b"; raw "c"] :: others)]).
Proof.
  split; [apply extract_conceptual_space_map|]. split.
  - intros m Hin. apply concept_pattern_shape in Hin as (body & -> & Hbody).
    exists body. repeat split; auto.
    intros Hedges. unfold concepts_of.
    now rewrite (str_strip_delimited (raw "[]") body "[" "]").
  - intros pre post Hpre.
    exists (map concepts_of (concept_pattern post)).
    rewrite extract_conceptual_space_map. unfold concept_pattern.
    rewrite findall_skip by exact Hpre.
    change (raw "[a, b, c]" ++ post)
      with ("["%char :: raw "a, b, c" ++ "]"%char :: post).
    rewrite findall_span by reflexivity. reflexivity.
Qed.

(** C4 as stated fails: of the span [[[a]] more than the surrounding
    pair of brackets is stripped. *)
Lemma inner_bracket_stripped :
  concept_pattern (raw "[[a]") = [raw "[[a]"]
  /\ str_split (raw ", ") (inner (raw "[[a]")) = [raw "[a"]
  /\ extract_conceptual_space (raw "[[a]") = [(all_concepts, [[raw "a"]])]
  /\ ~ (forall text,
          extract_conceptual_space text
          = [(all_concepts,
              map (fun m => str_split (raw ", ") (inner m))
                  (concept_pattern text))]).
Proof.
  repeat (split; [vm_compute; reflexivity|]).
  intros H. specialize (H (raw "[[a]")). vm_compute in H. discriminate.
Qed.

(** C10.  [str.split] cuts only where the comma is followed by a space:
    a text without that pair stays one token.  The span [[a,b,c]] gives
    the single token a,b,c and the empty span gives the single empty
    token. *)
Theorem split_on_comma_space_only :
  (forall s : str,
      (forall before after, s <> before ++ raw ", " ++ after) ->
      str_split (raw ", ") s = [s])
  /\ extract_conceptual_space (raw "[a,b,c]") = [(all_concepts, [[raw "a,b,c"]])]
  /\ extract_conceptual_space (raw "[]") = [(all_concepts, [[raw ""]])].
Proof.
  split; [|split; vm_compute; reflexivity].
  intros s Hnone. apply str_split_whole; [discriminate|exact Hnone].
Qed.

(** ** The data frame *)







(** ** Paths and the file system *)

Lemma parent_join (directory : path) (name : str) :
  parent (join_path directory name) = directory.
Proof. apply removelast_last. Qed.

Lemma prefixes_length (p q : path) : q ∈ prefixes p -> length q <= length p.
Proof.
  revert q. induction p as [|c p IH]; intros q; simpl.
  - now intros ?%elem_of_nil.
  - intros [->|H]%elem_of_cons; [simpl; lia|].
    apply list_elem_of_fmap in H as (q' & -> & Hq'). apply IH in Hq'. simpl. lia.
Qed.

Lemma prefixes_self (p : path) : p <> [] -> p ∈ prefixes p.
Proof.
  induction p as [|c p IH]; [congruence|]. intros _. simpl.
  destruct p as [|c' p]; [left|].
  right. apply list_elem_of_fmap. exists (c' :: p). split; [reflexivity|].
  apply IH. discriminate.
Qed.

Lemma join_not_prefix (out : path) (name : str) :
  join_path out name ∉ prefixes out.
Proof.
  intros H%prefixes_length. unfold join_path in H.
  rewrite length_app in H. simpl in H. lia.
Qed.

Lemma join_path_inj (out : path) (n1 n2 : str) :
  join_path out n1 = join_path out n2 -> n1 = n2.
Proof. unfold join_path. intros H%app_inv_head. congruence. Qed.

Lemma io_bind_ok {A B : Type} (m : io A) (k : A -> io B) (fs fs' : filesystem)
      (a : A) (lines : list str) :
  m fs = Outcome (Ok a) fs' lines ->
  io_bind m k fs
  = Outcome (result (k a fs')) (final (k a fs')) (lines ++ printed (k a fs')).
Proof. intros H. unfold io_bind. now rewrite H. Qed.

Lemma io_bind_raise {A B : Type} (m : io A) (k : A -> io B) (fs fs' : filesystem)
      (e : exn) (lines : list str) :
  m fs = Outcome (Raise e) fs' lines ->
  io_bind m k fs = Outcome (Raise e) fs' lines.
Proof. intros H. unfold io_bind. now rewrite H. Qed.

Lemma mkdir_parents_ok (p : path) (fs : filesystem) :
  existsb (is_file fs) (prefixes p) = false ->
  mkdir_parents p fs
  = Outcome (Ok tt) (FileSystem (files fs) (dirs fs ∪ list_to_set (prefixes p))) [].
Proof. intros H. unfold mkdir_parents. now rewrite H. Qed.

(** After the directory is made, a file can be written in it unless a
    directory has its name. *)
Lemma write_text_join (fls : gmap path str) (ds : gset path) (out : path)
      (name content : str) :
  join_path out name ∉ ds ->
  write_text (join_path out name) content
             (FileSystem fls (ds ∪ list_to_set (prefixes out)))
  = Outcome (Ok tt)
      (FileSystem (<[join_path out name := content]> fls)
                  (ds ∪ list_to_set (prefixes out))) [].
Proof.
  intros Hfree. unfold write_text, is_dir. cbn [dirs files].
  rewrite parent_join.
  rewrite (bool_decide_eq_false_2 (join_path out name = []))
    by (unfold join_path; now destruct out).
  rewrite (bool_decide_eq_false_2 (join_path out name ∈ _)).
  2:{ rewrite elem_of_union, elem_of_list_to_set.
      intros [H|H]; [contradiction|]. now apply join_not_prefix in H. }
  cbn [orb].
  destruct out as [|c out].
  - now rewrite bool_decide_eq_true_2.
  - rewrite (bool_decide_eq_true_2 (c :: out ∈ _)); [now rewrite orb_true_r|].
    rewrite elem_of_union, elem_of_list_to_set. right.
    now apply prefixes_self.
Qed.

Lemma writable_inv (fs : filesystem) (out : path) (names : list str) :
  writable fs out names = true ->
  existsb (is_file fs) (prefixes out) = false
  /\ forall n, In n names -> join_path out n ∉ dirs fs.
Proof.
  unfold writable. intros [H1 H2]%andb_true_iff.
  apply negb_true_iff in H1. split; [exact H1|].
  intros n Hn. rewrite forallb_forall in H2. specialize (H2 n Hn).
  apply negb_true_iff in H2. now apply bool_decide_eq_false in H2.
Qed.

Lemma io_bind_raise_result {A B : Type} (m : io A) (k : A -> io B)
      (fs : filesystem) (e : exn) :
  result (m fs) = Raise e ->
  io_bind m k fs = Outcome (Raise e) (final (m fs)) (printed (m fs)).
Proof. intros H. unfold io_bind. now rewrite H. Qed.

Lemma io_bind_ok_inv {A B : Type} (m : io A) (k : A -> io B) (fs : filesystem)
      (b : B) :
  result (io_bind m k fs) = Ok b ->
  exists a, result (m fs) = Ok a /\ result (k a (final (m fs))) = Ok b.
Proof.
  unfold io_bind. destruct (result (m fs)) as [a|e]; [|discriminate].
  cbn [result]. eauto.
Qed.

Lemma read_text_ok (p : path) (fs : filesystem) (text : str) :
  files fs !! p = Some text -> read_text p fs = Outcome (Ok text) fs [].
Proof. intros H. unfold read_text. now rewrite H. Qed.


Lemma write_text_dir (p : path) (content : str) (fs : filesystem) :
  p ∈ dirs fs ->
  write_text p content fs = Outcome (Raise IsADirectoryError) fs [].
Proof.
  intros H. unfold write_text, is_dir.
  rewrite (bool_decide_eq_true_2 (p ∈ dirs fs)) by exact H.
  now rewrite orb_true_r.
Qed.

Lemma write_text_join_inv (fls : gmap path str) (ds : gset path) (out : path)
      (name content : str) :
  result (write_text (join_path out name) content
            (FileSystem fls (ds ∪ list_to_set (prefixes out)))) = Ok tt ->
  join_path out name ∉ ds.
Proof.
  intros Hok Hin. rewrite write_text_dir in Hok; [discriminate|].
  cbn [dirs]. apply elem_of_union. now left.
Qed.

Lemma names_distinct :
  cleaned_data_json <> graph_csv
  /\ cleaned_data_json <> conceptual_space_json
  /\ graph_csv <> conceptual_space_json.
Proof. repeat split; discriminate. Qed.

Lemma join_path_ne (out : path) (n1 n2 : str) :
  n1 <> n2 -> join_path out n1 <> join_path out n2.
Proof. intros Hne H%join_path_inj. contradiction. Qed.

Section MainFacts.

Variable float_repr : str -> str.
Variable to_csv : ascii -> bool -> DataFrame -> rendering.

Lemma df_to_csv_rendered (df : DataFrame) (file : path) (sep : ascii)
      (index : bool) (csv : str) :
  to_csv sep index df = Rendered csv ->
  df_to_csv to_csv df file sep index = write_text file csv.
Proof. intros H. unfold df_to_csv. now rewrite H. Qed.

Lemma df_to_csv_ok_inv (df : DataFrame) (file : path) (sep : ascii)
      (index : bool) (fs : filesystem) :
  result (df_to_csv to_csv df file sep index fs) = Ok tt ->
  exists csv, to_csv sep index df = Rendered csv.
Proof.
  unfold df_to_csv. destruct (to_csv sep index df) as [csv|partial e|e].
  - eauto.
  - unfold io_bind, lift.
    destruct (result (write_text file partial fs)); discriminate.
  - discriminate.
Qed.

(** The call of pandas that raises, in the output directory once it is
    made: the file is left as it was when pandas raises before it opens
    the file or cannot open it, and holds what was written otherwise. *)
Lemma df_to_csv_failed (df : DataFrame) (out : path) (name : str) (sep : ascii)
      (index : bool) (fls : gmap path str) (ds : gset path) (e : exn) :
  failure (to_csv sep index df) = Some e ->
  let fs := FileSystem fls (ds ∪ list_to_set (prefixes out)) in
  df_to_csv to_csv df (join_path out name) sep index fs
  = match to_csv sep index df with
    | Broken partial _ =>
        if decide (join_path out name ∈ ds)
        then Outcome (Raise IsADirectoryError) fs []
        else Outcome (Raise e)
               (FileSystem (<[join_path out name := partial]> fls)
                           (ds ∪ list_to_set (prefixes out))) []
    | _ => Outcome (Raise e) fs []
    end.
Proof.
  intros Hfail fs. unfold df_to_csv.
  destruct (to_csv sep index df) as [csv|partial e'|e']; cbn [failure] in Hfail.
  - discriminate.
  - injection Hfail as ->. destruct (decide (join_path out name ∈ ds)) as [Hin|Hout].
    + erewrite io_bind_raise; [reflexivity|].
      apply write_text_dir. cbn [dirs]. apply elem_of_union. now left.
    + subst fs. erewrite io_bind_ok by (now apply write_text_join). reflexivity.
  - now injection Hfail as ->.
Qed.

(** A run in closed form: what [main] leaves and prints when the input
    can be read, the outputs can be written and pandas writes the
    frame. *)
Lemma main_run (input_file out : path) (fs : filesystem) (text : str)
      (records : list dict) (csv : str) :
  files fs !! input_file = Some text ->
  extract_json_from_text text = Ok records ->
  writable fs out (output_names records) = true ->
  (records <> [] -> to_csv "|"%char false (make_frame records) = Rendered csv) ->
  main float_repr to_csv input_file out fs
  = Outcome (Ok tt)
      (FileSystem (written float_repr out text records csv (files fs))
                  (dirs fs ∪ list_to_set (prefixes out)))
      (messages out records).
Proof.
  intros Hread Hextract Hw Hcsv.
  apply writable_inv in Hw as [Hmk Hfree].
  unfold main.
  erewrite io_bind_ok by (apply read_text_ok; eassumption).
  erewrite io_bind_ok by (unfold lift; now rewrite Hextract).
  erewrite io_bind_ok by (now apply mkdir_parents_ok).
  erewrite io_bind_ok.
  2:{ apply write_text_join, Hfree. destruct records; simpl; auto. }
  erewrite io_bind_ok by reflexivity.
  destruct records as [|r records].
  - erewrite io_bind_ok by reflexivity.
    erewrite io_bind_ok.
    2:{ apply write_text_join, Hfree. simpl; auto. }
    reflexivity.
  - erewrite io_bind_ok.
    2:{ rewrite (df_to_csv_rendered _ _ _ _ csv) by (now apply Hcsv).
        erewrite io_bind_ok.
        2:{ apply write_text_join, Hfree. simpl; auto. }
        reflexivity. }
    erewrite io_bind_ok.
    2:{ apply write_text_join, Hfree. simpl; auto. }
    reflexivity.
Qed.

(** A run up to the call of pandas, when that call raises: the
    exception ends the run with [cleaned_data.json] written and
    announced. *)
Lemma main_to_table (input_file out : path) (fs : filesystem) (text : str)
      (records : list dict) (e : exn) :
  files fs !! input_file = Some text ->
  extract_json_from_text text = Ok records ->
  records <> [] ->
  writable fs out [cleaned_data_json] = true ->
  let table :=
    df_to_csv to_csv (make_frame records) (join_path out graph_csv) "|"%char false
      (FileSystem
         (<[join_path out cleaned_data_json := cleaned_text float_repr records]>
            (files fs))
         (dirs fs ∪ list_to_set (prefixes out))) in
  result table = Raise e ->
  main float_repr to_csv input_file out fs
  = Outcome (Raise e) (final table)
      ((raw "Cleaned JSON data has been saved to "
        ++ path_str (join_path out cleaned_data_json)) :: printed table).
Proof.
  intros Hread Hextract Hne Hw table Hres.
  apply writable_inv in Hw as [Hmk Hfree].
  unfold main.
  erewrite io_bind_ok by (apply read_text_ok; eassumption).
  erewrite io_bind_ok by (unfold lift; now rewrite Hextract).
  erewrite io_bind_ok by (now apply mkdir_parents_ok).
  erewrite io_bind_ok by (apply write_text_join, Hfree; now left).
  erewrite io_bind_ok by reflexivity.
  destruct records as [|r records]; [congruence|].
  erewrite io_bind_raise.
  2:{ apply io_bind_raise_result. exact Hres. }
  reflexivity.
Qed.

Lemma written_cleaned (out : path) (text : str) (records : list dict)
      (csv : str) (before : gmap path str) :
  written float_repr out text records csv before !! join_path out cleaned_data_json
  = Some (cleaned_text float_repr records).
Proof.
  destruct names_distinct as (H1 & H2 & H3). unfold written.
  rewrite lookup_insert_ne by (apply join_path_ne; congruence).
  destruct records.
  - apply lookup_insert_eq.
  - rewrite lookup_insert_ne by (apply join_path_ne; congruence).
    apply lookup_insert_eq.
Qed.

Lemma written_space (out : path) (text : str) (records : list dict)
      (csv : str) (before : gmap path str) :
  written float_repr out text records csv before !! join_path out conceptual_space_json
  = Some (space_text float_repr text).
Proof. unfold written. apply lookup_insert_eq. Qed.

Lemma written_table (out : path) (text : str) (records : list dict)
      (csv : str) (before : gmap path str) :
  written float_repr out text records csv before !! join_path out graph_csv
  = match records with
    | [] => before !! join_path out graph_csv
    | _ :: _ => Some csv
    end.
Proof.
  destruct names_distinct as (H1 & H2 & H3). unfold written.
  rewrite lookup_insert_ne by (apply join_path_ne; congruence).
  destruct records.
  - rewrite lookup_insert_ne by (apply join_path_ne; congruence). reflexivity.
  - apply lookup_insert_eq.
Qed.

(** Nothing but the files of the output directory is touched. *)
Lemma written_other (out : path) (text : str) (records : list dict)
      (csv : str) (before : gmap path str) (p : path) :
  (forall n, p <> join_path out n) ->
  written float_repr out text records csv before !! p = before !! p.
Proof.
  intros Hp. unfold written.
  rewrite lookup_insert_ne by (intros H; symmetry in H; now apply Hp in H).
  destruct records.
  - rewrite lookup_insert_ne by (intros H; symmetry in H; now apply Hp in H).
    reflexivity.
  - rewrite !lookup_insert_ne by (intros H; symmetry in H; now apply Hp in H).
    reflexivity.
Qed.

Lemma written_twice (out : path) (text : str) (records : list dict)
      (csv : str) (before : gmap path str) :
  written float_repr out text records csv
    (written float_repr out text records csv before)
  = written float_repr out text records csv before.
Proof.
  apply map_eq. intros p. unfold written.
  destruct records; rewrite !lookup_insert; repeat case_decide; reflexivity.
Qed.

(** A run that ends well had a readable input, an extraction that
    returned, writable outputs and a frame that pandas wrote. *)
Lemma main_ok_inv (input_file out : path) (fs : filesystem) :
  result (main float_repr to_csv input_file out fs) = Ok tt ->
  exists text records csv,
    files fs !! input_file = Some text
    /\ extract_json_from_text text = Ok records
    /\ writable fs out (output_names records) = true
    /\ (records <> [] ->
        to_csv "|"%char false (make_frame records) = Rendered csv).
Proof.
  unfold main. intros Hok.
  apply io_bind_ok_inv in Hok as (text & Hread & Hok).
  assert (Hfile : files fs !! input_file = Some text).
  { unfold read_text in Hread.
    destruct (files fs !! input_file); [now injection Hread as ->|discriminate]. }
  rewrite (read_text_ok _ _ _ Hfile) in Hok. cbn [final] in Hok.
  apply io_bind_ok_inv in Hok as (records & Hextract & Hok).
  unfold lift in Hextract, Hok. cbn [result final] in Hextract, Hok.
  apply io_bind_ok_inv in Hok as ([] & Hmk & Hok).
  destruct (existsb (is_file fs) (prefixes out)) eqn:Emk.
  { unfold mkdir_parents in Hmk. rewrite Emk in Hmk. discriminate. }
  rewrite (mkdir_parents_ok _ _ Emk) in Hok. cbn [final] in Hok.
  apply io_bind_ok_inv in Hok as ([] & Hc & Hok).
  apply write_text_join_inv in Hc.
  rewrite (write_text_join _ _ _ _ _ Hc) in Hok. cbn [final] in Hok.
  apply io_bind_ok_inv in Hok as ([] & _ & Hok). cbn [print final] in Hok.
  apply io_bind_ok_inv in Hok as ([] & Htable & Hok).
  assert (Hwritable : forall names,
            (forall n, In n names -> join_path out n ∉ dirs fs) ->
            writable fs out names = true).
  { intros names Hfree. unfold writable. rewrite Emk. cbn [negb andb].
    apply forallb_forall. intros n Hn. apply negb_true_iff.
    now apply bool_decide_eq_false_2, Hfree. }
  destruct records as [|r rs].
  - cbn [print final] in Hok.
    apply io_bind_ok_inv in Hok as ([] & Hs & _).
    apply write_text_join_inv in Hs.
    exists text, [], []. repeat split; auto; [|congruence].
    apply Hwritable. intros n [<-|[<-|[]]]; assumption.
  - apply io_bind_ok_inv in Htable as ([] & Hdf & _).
    destruct (df_to_csv_ok_inv _ _ _ _ _ Hdf) as [csv Hcsv].
    rewrite (df_to_csv_rendered _ _ _ _ _ Hcsv) in Hdf, Hok.
    apply write_text_join_inv in Hdf.
    erewrite (io_bind_ok (write_text (join_path out graph_csv) csv)) in Hok
      by (now apply write_text_join).
    cbn [print final] in Hok.
    apply io_bind_ok_inv in Hok as ([] & Hs & _).
    apply write_text_join_inv in Hs.
    exists text, (r :: rs), csv. repeat split; auto.
    apply Hwritable. intros n [<-|[<-|[<-|[]]]]; assumption.
Qed.

End MainFacts.

Section FrameFacts.



End FrameFacts.

Section MainTheorems.

Variable float_repr : str -> str.
Variable to_csv : ascii -> bool -> DataFrame -> rendering.

Lemma writable_written (fs : filesystem) (out : path) (text : str)
      (records : list dict) (csv : str) (names : list str) :
  writable fs out names = true ->
  writable (FileSystem (written float_repr out text records csv (files fs))
                       (dirs fs ∪ list_to_set (prefixes out)))
           out names = true.
Proof.
  intros [Hmk Hfree]%writable_inv. unfold writable.
  apply andb_true_iff. split.
  - apply negb_true_iff, not_true_is_false. intros [q [Hq Hfile]]%existsb_exists.
    apply not_true_iff_false in Hmk. apply Hmk, existsb_exists.
    exists q. split; [exact Hq|].
    unfold is_file in *. cbn [files] in Hfile.
    rewrite written_other in Hfile; [exact Hfile|].
    intros n ->. apply list_elem_of_In in Hq. now apply join_not_prefix in Hq.
  - apply forallb_forall. intros n Hn. apply negb_true_iff, bool_decide_eq_false.
    cbn [dirs]. rewrite elem_of_union, elem_of_list_to_set.
    intros [H|H]; [now apply (Hfree n Hn)|now apply join_not_prefix in H].
Qed.

(** C6.  A run that ends well, repeated in the file system it left and
    reading the same input, ends well again, leaves every file as the
    first run left it and prints the same lines. *)
Theorem main_idempotent (input_file out : path) (fs : filesystem) :
  result (main float_repr to_csv input_file out fs) = Ok tt ->
  files (final (main float_repr to_csv input_file out fs)) !! input_file
  = files fs !! input_file ->
  main float_repr to_csv input_file out
       (final (main float_repr to_csv input_file out fs))
  = main float_repr to_csv input_file out fs.
Proof.
  intros Hok Hsame.
  destruct (main_ok_inv _ _ _ _ _ Hok)
    as (text & records & csv & Hread & Hextract & Hw & Hcsv).
  rewrite (main_run _ _ _ _ _ _ _ csv Hread Hextract Hw Hcsv) in *.
  cbn [final] in *. rewrite Hread in Hsame.
  rewrite (main_run _ _ _ _ _ text records csv Hsame Hextract
             (writable_written _ _ _ _ _ _ Hw) Hcsv).
  cbn [files dirs]. rewrite written_twice.
  do 2 f_equal. now rewrite <- (assoc_L (∪)), (idemp_L (∪)).
Qed.

(** X18.  What a run writes into a file of the output directory is
    settled by the text it reads: two runs that end well and read the same text,
    in whatever file systems, print the same lines and agree on
    [cleaned_data.json], on [conceptual_space.json] and, when there are
    records, on [graph.csv]. *)
Lemma main_outputs_from_text (input_file out : path) (fs1 fs2 : filesystem) :
  result (main float_repr to_csv input_file out fs1) = Ok tt ->
  result (main float_repr to_csv input_file out fs2) = Ok tt ->
  files fs1 !! input_file = files fs2 !! input_file ->
  let o1 := main float_repr to_csv input_file out fs1 in
  let o2 := main float_repr to_csv input_file out fs2 in
  printed o1 = printed o2
  /\ files (final o1) !! join_path out cleaned_data_json
     = files (final o2) !! join_path out cleaned_data_json
  /\ files (final o1) !! join_path out conceptual_space_json
     = files (final o2) !! join_path out conceptual_space_json
  /\ (printed o1 <> messages out [] ->
      files (final o1) !! join_path out graph_csv
      = files (final o2) !! join_path out graph_csv).
Proof.
  intros Hok1 Hok2 Hsame o1 o2. subst o1 o2.
  destruct (main_ok_inv _ _ _ _ _ Hok1)
    as (text & records & csv & Hread1 & Hextract & Hw1 & Hcsv).
  destruct (main_ok_inv _ _ _ _ _ Hok2)
    as (text2 & records2 & csv2 & Hread2 & Hextract2 & Hw2 & Hcsv2).
  assert (text2 = text) as -> by congruence.
  assert (records2 = records) as -> by congruence.
  rewrite (main_run _ _ _ _ _ _ _ csv Hread1 Hextract Hw1 Hcsv).
  rewrite (main_run _ _ _ _ _ _ _ csv2 Hread2 Hextract2 Hw2 Hcsv2).
  cbn [printed final files].
  rewrite !written_cleaned, !written_space, !written_table.
  repeat split.
  destruct records as [|r records]; [intros H; now contradiction H|].
  intros _. assert (Rendered csv = Rendered csv2) as [= ->]
    by (rewrite <- Hcsv, <- Hcsv2; congruence). reflexivity.
Qed.

(** C5.  When no valid JSON object is found the run ends well, writes
    an empty array to [cleaned_data.json], leaves [graph.csv] as it was
    (not created, not changed), prints the message that no valid JSON
    objects were found, and writes the concept space; for the empty text
    the concept space written has an empty list of concepts. *)
Theorem no_objects_no_table (input_file out : path) (fs : filesystem)
        (text : str) :
  files fs !! input_file = Some text ->
  extract_json_from_text text = Ok [] ->
  writable fs out (output_names []) = true ->
  let o := main float_repr to_csv input_file out fs in
  result o = Ok tt
  /\ files (final o) !! join_path out cleaned_data_json = Some (raw "[]")
  /\ files (final o) !! join_path out graph_csv
     = files fs !! join_path out graph_csv
  /\ printed o
     = [raw "Cleaned JSON data has been saved to "
        ++ path_str (join_path out cleaned_data_json);
        raw "No valid JSON objects found to save to CSV.";
        raw "Conceptual space data has been saved to "
        ++ path_str (join_path out conceptual_space_json)]
  /\ files (final o) !! join_path out conceptual_space_json
     = Some (space_text float_repr text)
  /\ (text = [] ->
      files (final o) !! join_path out conceptual_space_json
      = Some empty_space_text).
Proof.
  intros Hread Hextract Hw o. subst o.
  rewrite (main_run float_repr to_csv _ _ _ _ _ [] Hread Hextract Hw)
    by congruence.
  cbn [result final printed files].
  rewrite written_cleaned, written_table, written_space.
  repeat split. intros ->. reflexivity.
Qed.


(** C8.  Whatever the prompt comes to, a line entered or the time-out,
    the script ends as [main] ends and leaves the file system [main]
    leaves: two answers give the same result and the same files. *)
Theorem prompt_is_ignored (input_file out : path) (fs : filesystem)
        (answer1 answer2 : prompt) :
  answer1 <> EndOfInput ->
  answer2 <> EndOfInput ->
  result (script float_repr to_csv input_file out answer1 fs)
  = result (script float_repr to_csv input_file out answer2 fs)
  /\ final (script float_repr to_csv input_file out answer1 fs)
     = final (script float_repr to_csv input_file out answer2 fs)
  /\ final (script float_repr to_csv input_file out answer1 fs)
     = final (main float_repr to_csv input_file out fs)
  /\ exists notices,
       printed (script float_repr to_csv input_file out answer1 fs)
       = notices ++ printed (main float_repr to_csv input_file out fs).
Proof.
  intros H1 H2.
  assert (Hrun : forall answer, answer <> EndOfInput ->
            result (script float_repr to_csv input_file out answer fs)
            = result (main float_repr to_csv input_file out fs)
            /\ final (script float_repr to_csv input_file out answer fs)
               = final (main float_repr to_csv input_file out fs)
            /\ exists notices,
                 printed (script float_repr to_csv input_file out answer fs)
                 = notices ++ printed (main float_repr to_csv input_file out fs)).
  { intros [line| |] Hne; [| |congruence];
      unfold script, io_bind, print, io_ret; cbn [result final printed].
    - repeat split. eexists. rewrite app_assoc. reflexivity.
    - repeat split. eexists. rewrite app_assoc. reflexivity. }
  destruct (Hrun answer1 H1) as (Hr1 & Hf1 & Hp1).
  destruct (Hrun answer2 H2) as (Hr2 & Hf2 & _).
  repeat split; congruence || exact Hp1.
Qed.

End MainTheorems.

Lemma main_idempotent_witness :
  let o := main literal_repr header_only notes_txt results_dir notes_fs in
  result o = Ok tt
  /\ files (final o) !! notes_txt = files notes_fs !! notes_txt
  /\ main literal_repr header_only notes_txt results_dir (final o) = o.
Proof.
  intros o.
  assert (Hok : result o = Ok tt) by (vm_compute; reflexivity).
  assert (Hsame : files (final o) !! notes_txt = files notes_fs !! notes_txt)
    by (vm_compute; reflexivity).
  split; [exact Hok|]. split; [exact Hsame|].
  exact (main_idempotent literal_repr header_only notes_txt results_dir
           notes_fs Hok Hsame).
Defined.

Lemma no_objects_no_table_witness :
  let o := main literal_repr header_only notes_txt results_dir blank_fs in
  files blank_fs !! notes_txt = Some []
  /\ extract_json_from_text [] = Ok []
  /\ writable blank_fs results_dir (output_names []) = true
  /\ result o = Ok tt
  /\ files (final o) !! join_path results_dir cleaned_data_json = Some (raw "[]")
  /\ files (final o) !! join_path results_dir graph_csv = None
  /\ In no_json_message (printed o)
  /\ files (final o) !! join_path results_dir conceptual_space_json
     = Some empty_space_text.
Proof.
  intros o.
  assert (Hread : files blank_fs !! notes_txt = Some []) by (vm_compute; reflexivity).
  assert (Hextract : extract_json_from_text [] = Ok []) by reflexivity.
  assert (Hw : writable blank_fs results_dir (output_names []) = true)
    by (vm_compute; reflexivity).
  destruct (no_objects_no_table literal_repr header_only notes_txt results_dir
              blank_fs [] Hread Hextract Hw)
    as (Hok & Hcleaned & Htable & Hprinted & _ & Hspace).
  subst o. repeat (split; [assumption|]).
  split; [rewrite Hprinted; simpl; auto|].
  exact (Hspace eq_refl).
Defined.



Lemma prompt_is_ignored_witness :
  Entered (raw "mine") <> EndOfInput
  /\ TimedOut <> EndOfInput
  /\ final (script literal_repr header_only notes_txt results_dir
              (Entered (raw "mine")) notes_fs)
     = final (script literal_repr header_only notes_txt results_dir
                TimedOut notes_fs).
Proof.
  assert (H1 : Entered (raw "mine") <> EndOfInput) by discriminate.
  assert (H2 : TimedOut <> EndOfInput) by discriminate.
  split; [exact H1|]. split; [exact H2|].
  exact (proj1 (proj2 (prompt_is_ignored literal_repr header_only notes_txt
                         results_dir notes_fs _ _ H1 H2))).
Defined.

(** * Further properties *)
(* ===================================================================== *)

(** ** Scanning *)

Section ScanFacts.

Variables open close : ascii.

Lemma lazy_until_none_inv (s : str) :
  Regex.lazy_until close s = None -> mem_char close s = false.
Proof.
  induction s as [|ch s IH]; simpl; [reflexivity|].
  destruct (Ascii.eqb ch close) eqn:E; [discriminate|].
  destruct (Regex.lazy_until close s) as [[b a]|]; [discriminate|].
  intros _. rewrite Ascii.eqb_sym, E. now apply IH.
Qed.

Lemma findall_no_open (s : str) :
  mem_char open s = false -> Regex.findall open close s = [].
Proof.
  intros H. rewrite <- (app_nil_r s), findall_skip by exact H. reflexivity.
Qed.

Lemma findall_no_close (s : str) :
  mem_char close s = false -> Regex.findall open close s = [].
Proof.
  induction s as [|ch s IH]; [reflexivity|].
  rewrite mem_char_cons. intros [_ Hs]%orb_false_iff.
  rewrite findall_cons. simpl.
  destruct (Ascii.eqb ch open); [|now apply IH].
  rewrite lazy_until_none by exact Hs. now apply IH.
Qed.

(** Text after the last closing character adds no match. *)
Lemma findall_app_no_close (s t : str) :
  mem_char close t = false ->
  Regex.findall open close (s ++ t) = Regex.findall open close s.
Proof.
  intros Ht. remember (length s) as n eqn:Hn. revert s Hn.
  induction n as [n IH] using lt_wf_ind. intros s ->.
  destruct s as [|ch s]; [now apply findall_no_close|].
  cbn [app]. rewrite !findall_cons. cbn [Regex.match_at].
  destruct (Ascii.eqb ch open).
  - destruct (Regex.lazy_until close s) as [[b a]|] eqn:E.
    + apply lazy_until_inv in E as [-> Hb].
      rewrite <- app_assoc. cbn [app].
      rewrite lazy_until_first by exact Hb.
      f_equal. apply (IH (length a)); [|reflexivity].
      simpl. rewrite length_app. simpl. lia.
    + apply lazy_until_none_inv in E.
      rewrite lazy_until_none by (rewrite mem_char_app, E, Ht; reflexivity).
      apply (IH (length s)); [simpl; lia|reflexivity].
  - apply (IH (length s)); [simpl; lia|reflexivity].
Qed.

Lemma closed_text_app_r (s t : str) :
  closed_text open close (s ++ t) = true -> closed_text open close t = true.
Proof.
  induction s as [|c s IH]; [auto|]. simpl. intros [_ H]%andb_true_iff. auto.
Qed.

(** Scanning goes through a closed text and starts afresh behind it. *)
Lemma findall_app_closed (s t : str) :
  closed_text open close s = true ->
  Regex.findall open close (s ++ t)
  = Regex.findall open close s ++ Regex.findall open close t.
Proof.
  remember (length s) as n eqn:Hn. revert s Hn.
  induction n as [n IH] using lt_wf_ind. intros s -> Hclosed.
  destruct s as [|ch s]; [reflexivity|].
  cbn [app]. rewrite !findall_cons. cbn [Regex.match_at].
  simpl in Hclosed. apply andb_true_iff in Hclosed as [Hch Hs].
  destruct (Ascii.eqb ch open).
  - destruct (Regex.lazy_until close s) as [[b a]|] eqn:E.
    + apply lazy_until_inv in E as [-> Hb].
      rewrite <- app_assoc. cbn [app].
      rewrite lazy_until_first by exact Hb.
      cbn [app]. f_equal. apply (IH (length a)); [|reflexivity|].
      * simpl. rewrite length_app. simpl. lia.
      * apply closed_text_app_r in Hs. simpl in Hs.
        now apply andb_true_iff in Hs as [_ ?].
    + apply lazy_until_none_inv in E. congruence.
  - apply (IH (length s)); [simpl; lia|reflexivity|exact Hs].
Qed.

(** A text is its matches, in order and apart from one another, with
    gaps that hold no opening character before each match and a last
    gap that holds no match. *)
Lemma findall_weave (s : str) :
  exists pieces tail,
    s = weave pieces tail
    /\ map snd pieces = Regex.findall open close s
    /\ forallb (fun p => negb (mem_char open (fst p))) pieces = true
    /\ Regex.findall open close tail = [].
Proof.
  remember (length s) as n eqn:Hn. revert s Hn.
  induction n as [n IH] using lt_wf_ind. intros s ->.
  destruct (Regex.findall open close s) as [|m ms] eqn:Hall.
  { exists [], s. repeat split; auto. }
  (* the first match: skip the characters before it *)
  assert (Hfirst : exists gap body after,
             s = gap ++ (open :: body ++ [close]) ++ after
             /\ mem_char open gap = false
             /\ mem_char close body = false).
  { clear IH. revert Hall. induction s as [|ch s IHs]; [discriminate|].
    rewrite findall_cons. cbn [Regex.match_at].
    destruct (Ascii.eqb ch open) eqn:Ech.
    - destruct (Regex.lazy_until close s) as [[b a]|] eqn:E.
      + intros _. apply lazy_until_inv in E as [-> Hb].
        apply Ascii.eqb_eq in Ech. subst ch.
        exists [], b, a. repeat split; auto.
        cbn [app]. now rewrite <- app_assoc.
      + intros H. destruct (IHs H) as (gap & body & after & -> & Hg & Hb).
        apply lazy_until_none_inv in E.
        rewrite !mem_char_app, mem_char_cons, !mem_char_app in E.
        simpl in E. rewrite Ascii.eqb_refl in E.
        rewrite !orb_true_r in E. cbn in E.
        destruct (mem_char close gap), (Ascii.eqb close open),
          (mem_char close body); discriminate.
    - intros H. destruct (IHs H) as (gap & body & after & -> & Hg & Hb).
      exists (ch :: gap), body, after. repeat split; auto.
      rewrite mem_char_cons, Ascii.eqb_sym, Ech. exact Hg. }
  destruct Hfirst as (gap & body & after & -> & Hgap & Hbody).
  rewrite findall_skip in Hall by exact Hgap.
  replace ((open :: body ++ [close]) ++ after)
    with (open :: body ++ close :: after) in *
    by (cbn [app]; now rewrite <- app_assoc).
  rewrite findall_span in Hall by exact Hbody.
  injection Hall as <- <-.
  destruct (IH (length after)) with (s := after)
    as (pieces & tail & Hafter & Hms & Hgaps & Htail); [|reflexivity|].
  { rewrite !length_app. simpl. rewrite length_app. simpl. lia. }
  exists ((gap, open :: body ++ [close]) :: pieces), tail.
  repeat split.
  - cbn [weave]. rewrite <- Hafter. cbn [app]. now rewrite <- !app_assoc.
  - cbn [map snd]. now rewrite Hms.
  - cbn [forallb fst]. now rewrite Hgap, Hgaps.
  - exact Htail.
Qed.

End ScanFacts.

(** ** More on [extract_json_from_text] *)

(** X1.  A text without an opening brace, or without a closing brace,
    yields no record and no exception. *)
Theorem no_brace_no_record (text : str) :
  mem_char "{" text = false \/ mem_char "}" text = false ->
  extract_json_from_text text = Ok [].
Proof.
  intros H. rewrite extract_json_from_text_spec. unfold json_pattern.
  destruct H as [H|H].
  - now rewrite findall_no_open.
  - now rewrite findall_no_close.
Qed.

Lemma no_brace_no_record_witness :
  (mem_char "{" (lit "a } 'b': 1 } c") = false
   \/ mem_char "}" (lit "a } 'b': 1 } c") = false)
  /\ extract_json_from_text (lit "a } 'b': 1 } c") = Ok [].
Proof.
  assert (H : mem_char "{" (lit "a } 'b': 1 } c") = false
              \/ mem_char "}" (lit "a } 'b': 1 } c") = false)
    by (left; reflexivity).
  split; [exact H|]. exact (no_brace_no_record _ H).
Defined.

(** X2.  What stands before the first opening brace and what stands
    after the last closing brace does not matter: the records of a text
    are those of the text between. *)
Theorem surroundings_ignored (pre text post : str) :
  mem_char "{" pre = false ->
  mem_char "}" post = false ->
  extract_json_from_text (pre ++ text ++ post) = extract_json_from_text text.
Proof.
  intros Hpre Hpost. rewrite !extract_json_from_text_spec. unfold json_pattern.
  now rewrite findall_skip, findall_app_no_close.
Qed.

Lemma surroundings_ignored_witness :
  mem_char "{" (lit "}} intro: ") = false
  /\ mem_char "}" (lit " {{ outro") = false
  /\ extract_json_from_text (lit "}} intro: " ++ lit "{'a': 1}" ++ lit " {{ outro")
     = extract_json_from_text (lit "{'a': 1}").
Proof.
  assert (H1 : mem_char "{" (lit "}} intro: ") = false) by reflexivity.
  assert (H2 : mem_char "}" (lit " {{ outro") = false) by reflexivity.
  split; [exact H1|]. split; [exact H2|].
  exact (surroundings_ignored _ (lit "{'a': 1}") _ H1 H2).
Defined.

(** X3.  The records of a text come from stretches of it that lie apart
    and in order: the text is gaps and matches in turn, no gap before a
    match holds an opening brace, the last gap holds no match, and the
    function does what the loop does over these matches: it raises the
    exception of the first match at which one escapes, and returns the
    records of the matches that parse when there is none. *)
Theorem records_from_disjoint_matches (text : str) :
  exists pieces tail,
    text = weave pieces tail
    /\ map snd pieces = json_pattern text
    /\ forallb (fun p => negb (mem_char "{" (fst p))) pieces = true
    /\ json_pattern tail = []
    /\ extract_json_from_text text
       = match first_escape (map snd pieces) with
         | Some e => Raise e
         | None => Ok (omap record_of (map snd pieces))
         end.
Proof.
  destruct (findall_weave "{" "}" text)
    as (pieces & tail & Htext & Hms & Hgaps & Htail).
  exists pieces, tail. repeat split; auto.
  rewrite extract_json_from_text_spec. unfold json_pattern, collected.
  now rewrite Hms.
Qed.

(** X4.  Extraction goes piece by piece: behind a text in which every
    opening brace is followed by a closing brace, the scan starts
    afresh, so the records of the two texts put together are the
    records of the first followed by the records of the second. *)
Theorem extraction_of_closed_texts (text1 text2 : str) :
  closed_text "{" "}" text1 = true ->
  extract_json_from_text (text1 ++ text2)
  = (let* records1 := extract_json_from_text text1 in
     let* records2 := extract_json_from_text text2 in
     Ok (records1 ++ records2)).
Proof.
  intros Hclosed. rewrite !extract_json_from_text_spec.
  unfold json_pattern. rewrite findall_app_closed by exact Hclosed.
  unfold collected. rewrite first_escape_app, omap_app.
  destruct (first_escape (Regex.findall "{" "}" text1)); [reflexivity|].
  now destruct (first_escape (Regex.findall "{" "}" text2)).
Qed.

Lemma extraction_of_closed_texts_witness :
  let text1 := lit "x {'a': 1} } y" in
  let text2 := lit "{'b': 2}" in
  closed_text "{" "}" text1 = true
  /\ extract_json_from_text text1
     = Ok [[(raw "a", JInt 1);
            (chunk_id_key, JString (raw "42b7b4f2921788ea14dac5566e6f06d0"))]]
  /\ extract_json_from_text (text1 ++ text2)
     = (let* records1 := extract_json_from_text text1 in
        let* records2 := extract_json_from_text text2 in
        Ok (records1 ++ records2))
  /\ extract_json_from_text (text1 ++ long_integer) = Raise ValueError.
Proof.
  intros text1 text2.
  assert (H : closed_text "{" "}" text1 = true) by reflexivity.
  split; [exact H|]. split; [vm_compute; reflexivity|].
  split; [exact (extraction_of_closed_texts text1 text2 H)|].
  rewrite (extraction_of_closed_texts text1 long_integer H).
  vm_compute. reflexivity.
Defined.

(** ** Records *)

Lemma dict_set_NoDup (d : dict) (k : str) (v : json) :
  NoDup (dict_keys d) -> NoDup (dict_keys (dict_set d k v)).
Proof.
  intros Hnd. rewrite dict_keys_set.
  destruct (decide (k ∈ dict_keys d)) as [Hin|Hout]; [exact Hnd|].
  apply NoDup_app. repeat split; auto.
  - intros x Hx [= ->]%list_elem_of_singleton. contradiction.
  - apply NoDup_singleton.
Qed.

Lemma dict_of_pairs_NoDup (pairs : list (str * json)) :
  NoDup (dict_keys (dict_of_pairs pairs)).
Proof.
  unfold dict_of_pairs.
  assert (H : forall d, NoDup (dict_keys d) ->
            NoDup (dict_keys (fold_left
                     (fun d kv => dict_set d (fst kv) (snd kv)) pairs d))).
  { induction pairs as [|kv pairs IH]; intros d Hd; simpl; [exact Hd|].
    apply IH, dict_set_NoDup, Hd. }
  apply H. constructor.
Qed.

(** The object decoded from a text that opens with a brace is built by
    [dict] from the pairs read, so has no key twice. *)
Lemma json_loads_brace_NoDup (rest : str) (d : dict) :
  json_loads ("{"%char :: rest) = Ok (JObject d) -> NoDup (dict_keys d).
Proof.
  intros [pairs [= ->]]%json_loads_at_brace. apply dict_of_pairs_NoDup.
Qed.

(** Where a record of a text comes from. *)
Lemma record_origin (text : str) (records : list dict) (r : dict) :
  extract_json_from_text text = Ok records ->
  In r records ->
  exists rest d,
    In ("{"%char :: rest) (json_pattern text)
    /\ json_loads ("{"%char :: rest) = Ok (JObject d)
    /\ r = dict_set d chunk_id_key (JString (MD5.hexdigest ("{"%char :: rest))).
Proof.
  intros Hrun Hin. apply extract_ok_inv in Hrun as [_ ->].
  apply list_elem_of_In, list_elem_of_omap in Hin as (m & Hm & Hrec).
  apply list_elem_of_In in Hm.
  destruct (json_pattern_shape _ _ Hm) as (body & -> & _).
  apply record_of_inv in Hrec as (d & Hd & _ & ->).
  apply json_loads_of_extractor in Hd. eauto.
Qed.

(** X5.  A record never has a key twice, and under every key other than
    ["chunk_id"] it has what was decoded from its fragment: the value
    if the fragment has the key, nothing if it has not. *)
Theorem records_keep_fields (text : str) (records : list dict) (r : dict) :
  extract_json_from_text text = Ok records ->
  In r records ->
  NoDup (dict_keys r)
  /\ exists m d,
       In m (json_pattern text)
       /\ json_loads m = Ok (JObject d)
       /\ forall k, k <> chunk_id_key -> dict_get r k = dict_get d k.
Proof.
  intros Hrun Hin.
  destruct (record_origin _ _ _ Hrun Hin) as (rest & d & Hm & Hd & ->).
  split.
  - apply dict_set_NoDup. eapply json_loads_brace_NoDup, Hd.
  - exists ("{"%char :: rest), d. repeat split; auto.
    intros k Hk. now apply dict_get_set_other.
Qed.

Lemma records_keep_fields_witness :
  let text := lit "{'z': 'q', 'chunk_id': 5, 'z': 7}" in
  let r := [(raw "z", JInt 7);
            (chunk_id_key, JString (MD5.hexdigest text))] in
  extract_json_from_text text = Ok [r]
  /\ In r [r]
  /\ NoDup (dict_keys r).
Proof.
  intros text r.
  assert (Hrun : extract_json_from_text text = Ok [r]) by (vm_compute; reflexivity).
  assert (Hin : In r [r]) by (simpl; left; reflexivity).
  split; [exact Hrun|]. split; [exact Hin|].
  exact (proj1 (records_keep_fields text [r] r Hrun Hin)).
Defined.

(** ** Identifiers *)

Lemma hex_digit_is_hex (n : N) : is_hex (MD5.hex_digit n) = true.
Proof.
  unfold MD5.hex_digit, is_hex.
  destruct (N.to_nat n) as [|[|[|[|[|[|[|[|[|[|[|[|[|[|[|[|k]]]]]]]]]]]]]]]];
    try reflexivity.
  simpl. now destruct k.
Qed.

Lemma md5_digest_length (msg : list N) : length (MD5.digest msg) = 16.
Proof.
  unfold MD5.digest.
  destruct (MD5.blocks _ _ _) as [a b c d].
  rewrite !length_app. unfold MD5.bytes_of_word.
  now rewrite !length_map, !length_seq.
Qed.

Lemma hex_of_bytes_length (bs : list N) :
  length (concat (map MD5.hex_of_byte bs)) = 2 * length bs.
Proof. induction bs as [|b bs IH]; simpl; [reflexivity|]. rewrite IH. lia. Qed.

Lemma hex_of_bytes_hex (bs : list N) :
  forallb is_hex (concat (map MD5.hex_of_byte bs)) = true.
Proof.
  induction bs as [|b bs IH]; [reflexivity|].
  cbn [map concat MD5.hex_of_byte app forallb].
  now rewrite !hex_digit_is_hex, IH.
Qed.

(** X6.  The identifier of a record is a string of 32 lower-case
    hexadecimal digits. *)
Theorem chunk_id_format (text : str) (records : list dict) (r : dict) :
  extract_json_from_text text = Ok records ->
  In r records ->
  exists id,
    dict_get r chunk_id_key = Some (JString id)
    /\ length id = 32
    /\ forallb is_hex id = true.
Proof.
  intros Hrun Hin.
  destruct (record_origin _ _ _ Hrun Hin) as (rest & d & _ & _ & ->).
  eexists. split; [apply dict_get_set_same|].
  unfold MD5.hexdigest. split.
  - now rewrite hex_of_bytes_length, md5_digest_length.
  - apply hex_of_bytes_hex.
Qed.

Lemma chunk_id_format_witness :
  let text := lit "{'a': 1}" in
  let r := [(raw "a", JInt 1);
            (chunk_id_key, JString (raw "42b7b4f2921788ea14dac5566e6f06d0"))] in
  extract_json_from_text text = Ok [r]
  /\ In r [r]
  /\ exists id,
       dict_get r chunk_id_key = Some (JString id)
       /\ length id = 32
       /\ forallb is_hex id = true.
Proof.
  intros text r.
  assert (Hrun : extract_json_from_text text = Ok [r]) by (vm_compute; reflexivity).
  assert (Hin : In r [r]) by (simpl; left; reflexivity).
  split; [exact Hrun|]. split; [exact Hin|].
  exact (chunk_id_format text [r] r Hrun Hin).
Defined.

(** ** Tokens *)

Lemma str_split_not_nil (sep s : str) : str_split sep s <> [].
Proof.
  unfold str_split. destruct (length s); simpl; [discriminate|].
  destruct (str_partition sep s) as [[b a]|]; discriminate.
Qed.

Lemma join_cons (sep x : str) (rest : list str) :
  rest <> [] -> Encoder.join sep (x :: rest) = x ++ sep ++ Encoder.join sep rest.
Proof. destruct rest; [congruence|reflexivity]. Qed.

(** Joining the tokens with the separator gives the text back. *)
Lemma join_split (sep s : str) :
  sep <> [] -> Encoder.join sep (str_split sep s) = s.
Proof.
  intros Hsep. remember (length s) as n eqn:Hn. revert s Hn.
  induction n as [n IH] using lt_wf_ind. intros s ->.
  rewrite str_split_unfold by exact Hsep.
  destruct (str_partition sep s) as [[b a]|] eqn:E; [|reflexivity].
  pose proof (str_partition_shorter _ _ _ _ Hsep E) as Hlt.
  apply str_partition_some in E.
  rewrite join_cons by apply str_split_not_nil.
  rewrite (IH (length a) Hlt a eq_refl). now symmetry.
Qed.

(** What stands before the first occurrence of the separator holds no
    occurrence. *)
Lemma str_partition_before (sep s before after : str) :
  sep <> [] ->
  str_partition sep s = Some (before, after) ->
  str_partition sep before = None.
Proof.
  intros Hsep. revert before.
  induction s as [|c s IH]; intros before; simpl.
  - destruct (Decoder.strip_prefix sep []) eqn:E; [|discriminate].
    intros [= <- <-]. simpl.
    destruct sep; [contradiction|reflexivity].
  - destruct (Decoder.strip_prefix sep (c :: s)) eqn:E.
    + intros [= <- <-]. simpl. destruct sep; [contradiction|reflexivity].
    + destruct (str_partition sep s) as [[b a]|] eqn:Ep; [|discriminate].
      intros [= <- <-]. specialize (IH b eq_refl).
      apply str_partition_some in Ep. subst s.
      simpl.
      destruct (Decoder.strip_prefix sep (c :: b)) as [l|] eqn:Eb.
      * apply strip_prefix_app in Eb.
        assert (Hc : c :: b ++ sep ++ a = sep ++ (l ++ sep ++ a)).
        { change (c :: b ++ sep ++ a) with ((c :: b) ++ sep ++ a).
          rewrite Eb. now rewrite <- app_assoc. }
        apply (proj2 (strip_prefix_app _ _ _)) in Hc. congruence.
      * now rewrite IH.
Qed.

Lemma str_split_tokens (sep s tok : str) :
  sep <> [] -> In tok (str_split sep s) -> str_partition sep tok = None.
Proof.
  intros Hsep. remember (length s) as n eqn:Hn. revert s Hn.
  induction n as [n IH] using lt_wf_ind. intros s ->.
  rewrite str_split_unfold by exact Hsep.
  destruct (str_partition sep s) as [[b a]|] eqn:E.
  - intros [<-|Hin].
    + eapply str_partition_before; eauto.
    + eapply (IH (length a)); eauto.
      eapply str_partition_shorter; eauto.
  - intros [<-|[]]. exact E.
Qed.

Lemma join_mem_char (c : ascii) (sep : str) (parts : list str) (tok : str) :
  mem_char c (Encoder.join sep parts) = false ->
  In tok parts -> mem_char c tok = false.
Proof.
  induction parts as [|x parts IH]; [contradiction|].
  destruct parts as [|y parts].
  - simpl. intros H [<-|[]]. exact H.
  - rewrite join_cons by discriminate. rewrite !mem_char_app.
    intros [Hx [_ Hrest]%orb_false_iff]%orb_false_iff [<-|Hin]; auto.
Qed.

Lemma lstrip_mem_char (c : ascii) (chars s : str) :
  mem_char c s = false -> mem_char c (lstrip chars s) = false.
Proof.
  induction s as [|d s IH]; [auto|]. simpl.
  destruct (mem_char d chars); [|auto].
  intros [_ H]%orb_false_iff. auto.
Qed.

Lemma str_strip_mem_char (c : ascii) (chars s : str) :
  mem_char c s = false -> mem_char c (str_strip chars s) = false.
Proof.
  intros H. unfold str_strip, rstrip.
  rewrite mem_char_rev. apply lstrip_mem_char.
  rewrite mem_char_rev. now apply lstrip_mem_char.
Qed.

Lemma lstrip_head (chars s : str) :
  match lstrip chars s with
  | [] => true
  | c :: _ => negb (mem_char c chars)
  end = true.
Proof.
  induction s as [|d s IH]; [reflexivity|]. simpl.
  destruct (mem_char d chars) eqn:E; [exact IH|]. now rewrite E.
Qed.

(** What [lstrip] leaves is the end of the text. *)
Lemma lstrip_suffix (chars s : str) :
  exists gone, s = gone ++ lstrip chars s.
Proof.
  induction s as [|d s [gone IH]]; [now exists []|]. simpl.
  destruct (mem_char d chars).
  - exists (d :: gone). simpl. now rewrite <- IH.
  - now exists [].
Qed.

(** The two ends of a stripped text are not among the stripped
    characters. *)
Lemma str_strip_edges (chars s : str) :
  edges_kept chars (str_strip chars s) = true.
Proof.
  unfold edges_kept, str_strip, rstrip.
  set (t := lstrip chars s).
  apply andb_true_iff. split.
  - (* the first character: it is the first of [t] *)
    destruct (lstrip_suffix chars (rev t)) as [gone Hgone].
    assert (Ht : t = rev (lstrip chars (rev t)) ++ rev gone).
    { rewrite <- rev_app_distr, <- Hgone. now rewrite rev_involutive. }
    pose proof (lstrip_head chars s) as Hhead. fold t in Hhead.
    destruct (rev (lstrip chars (rev t))) as [|c u] eqn:Eu; [reflexivity|].
    rewrite Ht in Hhead. exact Hhead.
  - rewrite rev_involutive. apply lstrip_head.
Qed.

(** Stripping a delimited span strips what is between the delimiters. *)
Lemma str_strip_span (chars body : str) (o c : ascii) :
  mem_char o chars = true -> mem_char c chars = true ->
  str_strip chars (o :: body ++ [c]) = str_strip chars body.
Proof.
  intros Ho Hc. unfold str_strip, rstrip. cbn [lstrip]. rewrite Ho.
  destruct (lstrip_suffix chars body) as [gone Hgone].
  (* [lstrip] of [body ++ [c]] is [lstrip body ++ [c]] unless all of
     [body] goes *)
  assert (H : lstrip chars (body ++ [c]) = lstrip chars body ++ [c]
              \/ (lstrip chars body = [] /\ lstrip chars (body ++ [c]) = [])).
  { clear Hgone gone. induction body as [|d body IH]; simpl.
    - rewrite Hc. right. auto.
    - destruct (mem_char d chars); [exact IH|]. left. reflexivity. }
  destruct H as [-> |[-> ->]]; [|reflexivity].
  rewrite rev_app_distr. cbn [rev app lstrip]. now rewrite Hc.
Qed.

(** X7.  The tokens of a bracketed span: there is at least one; joined
    with [", "] they give the stripped span back; the stripped span
    neither begins nor ends with a bracket; and no token holds the
    separator or a closing bracket. *)
Theorem tokens_of_span (text m : str) :
  In m (concept_pattern text) ->
  concepts_of m <> []
  /\ Encoder.join (raw ", ") (concepts_of m) = str_strip (raw "[]") m
  /\ edges_kept (raw "[]") (str_strip (raw "[]") m) = true
  /\ forall tok, In tok (concepts_of m) ->
       str_partition (raw ", ") tok = None /\ mem_char "]" tok = false.
Proof.
  intros Hin. apply concept_pattern_shape in Hin as (body & -> & Hbody).
  assert (Hsep : raw ", " <> []) by discriminate.
  unfold concepts_of. repeat split.
  - apply str_split_not_nil.
  - now apply join_split.
  - apply str_strip_edges.
  - eapply str_split_tokens; [exact Hsep|exact H].
  - eapply join_mem_char; [|exact H].
    rewrite join_split by exact Hsep.
    rewrite (str_strip_span (raw "[]") body "[" "]") by reflexivity.
    now apply str_strip_mem_char.
Qed.

Lemma tokens_of_span_witness :
  In (raw "[[a, b,c, ]") (concept_pattern (raw "x [[a, b,c, ] y"))
  /\ concepts_of (raw "[[a, b,c, ]") = [raw "a"; raw "b,c"; raw ""]
  /\ Encoder.join (raw ", ") (concepts_of (raw "[[a, b,c, ]"))
     = str_strip (raw "[]") (raw "[[a, b,c, ]").
Proof.
  assert (Hin : In (raw "[[a, b,c, ]") (concept_pattern (raw "x [[a, b,c, ] y")))
    by (vm_compute; left; reflexivity).
  split; [exact Hin|]. split; [vm_compute; reflexivity|].
  exact (proj1 (proj2 (tokens_of_span _ _ Hin))).
Defined.

(** X8.  The concept space over texts: there is one token list per
    bracketed span; a text without an opening bracket, or without a
    closing bracket, has none; and behind a text in which every opening
    bracket is followed by a closing bracket the scan starts afresh, so
    the token lists of two texts put together are those of the first
    followed by those of the second. *)
Theorem concepts_of_texts :
  (forall text, exists groups,
      extract_conceptual_space text = [(all_concepts, groups)]
      /\ length groups = length (concept_pattern text))
  /\ (forall text,
        mem_char "[" text = false \/ mem_char "]" text = false ->
        extract_conceptual_space text = [(all_concepts, [])])
  /\ (forall text1 text2,
        closed_text "[" "]" text1 = true ->
        exists groups1 groups2,
          extract_conceptual_space text1 = [(all_concepts, groups1)]
          /\ extract_conceptual_space text2 = [(all_concepts, groups2)]
          /\ extract_conceptual_space (text1 ++ text2)
             = [(all_concepts, groups1 ++ groups2)]).
Proof.
  repeat split.
  - intros text. eexists. split; [apply extract_conceptual_space_map|].
    apply length_map.
  - intros text H. rewrite extract_conceptual_space_map. unfold concept_pattern.
    destruct H as [H|H].
    + now rewrite findall_no_open.
    + now rewrite findall_no_close.
  - intros text1 text2 Hclosed. do 2 eexists.
    rewrite !extract_conceptual_space_map. repeat split.
    unfold concept_pattern. rewrite findall_app_closed by exact Hclosed.
    now rewrite map_app.
Qed.

(** ** The frame of the records *)


(** Adding the keys of a record puts the new ones behind the columns
    there are. *)
Lemma add_columns_prefix (ks cols : list str) :
  exists more, fold_left add_column ks cols = cols ++ more.
Proof.
  revert cols. induction ks as [|k ks IH]; intros cols; simpl.
  - exists []. now rewrite app_nil_r.
  - destruct (IH (add_column cols k)) as [more ->].
    unfold add_column. destruct (decide (k ∈ cols)).
    + now exists more.
    + exists (k :: more). now rewrite <- app_assoc.
Qed.

Lemma union_from_prefix (records : list dict) (cols : list str) :
  exists more,
    fold_left (fun cols d => fold_left add_column (dict_keys d) cols)
              records cols = cols ++ more.
Proof.
  revert cols. induction records as [|d records IH]; intros cols; simpl.
  - exists []. now rewrite app_nil_r.
  - destruct (add_columns_prefix (dict_keys d) cols) as [m1 ->].
    destruct (IH (cols ++ m1)) as [m2 ->].
    exists (m1 ++ m2). now rewrite app_assoc.
Qed.

(** Keys that are distinct from one another and from the columns there
    are become columns as they stand. *)
Lemma add_columns_fresh (ks cols : list str) :
  NoDup (cols ++ ks) -> fold_left add_column ks cols = cols ++ ks.
Proof.
  revert cols. induction ks as [|k ks IH]; intros cols Hnd; simpl.
  - now rewrite app_nil_r.
  - assert (Hk : k ∉ cols).
    { apply NoDup_app in Hnd as (_ & Hdisj & _). intros Hin.
      apply (Hdisj k Hin). now left. }
    unfold add_column. rewrite decide_False by exact Hk.
    rewrite IH; [now rewrite <- app_assoc|].
    now rewrite <- app_assoc.
Qed.



(** X10.  The columns come in the order in which the keys first occur:
    the keys of the first record, as they stand, lead the columns. *)
Theorem first_record_leads_columns (text : str) (r : dict) (rest : list dict) :
  extract_json_from_text text = Ok (r :: rest) ->
  exists more, columns (make_frame (r :: rest)) = dict_keys r ++ more.
Proof.
  intros Hrun.
  assert (Hnd : NoDup (dict_keys r)).
  { destruct (record_origin _ _ _ Hrun (or_introl eq_refl))
      as (tl & d & _ & Hd & ->).
    apply dict_set_NoDup. eapply json_loads_brace_NoDup, Hd. }
  cbn [make_frame columns]. unfold union_keys. cbn [fold_left].
  rewrite (add_columns_fresh (dict_keys r) []) by exact Hnd.
  apply union_from_prefix.
Qed.

Lemma first_record_leads_columns_witness :
  let text := lit "{'b': 1, 'a': 2} and {'a': 3, 'c': 4}" in
  let records := omap record_of (json_pattern text) in
  extract_json_from_text text = Ok records
  /\ columns (make_frame records) = [raw "b"; raw "a"; chunk_id_key; raw "c"]
  /\ exists more,
       columns (make_frame records) = [raw "b"; raw "a"; chunk_id_key] ++ more.
Proof.
  intros text records.
  assert (Hrun : extract_json_from_text text = Ok records)
    by (vm_compute; reflexivity).
  split; [exact Hrun|]. split; [vm_compute; reflexivity|].
  exact (first_record_leads_columns text _ _ Hrun).
Defined.

(** ** Runs of [main] *)

Lemma confined_bind {A B : Type} (region : path -> Prop) (m : io A)
      (k : A -> io B) :
  confined region m -> (forall a, confined region (k a)) ->
  confined region (io_bind m k).
Proof.
  intros Hm Hk fs. unfold io_bind.
  destruct (Hm fs) as (Hf & Hkeep & Hd).
  destruct (result (m fs)) as [a|e]; cbn [final].
  - destruct (Hk a (final (m fs))) as (Hf' & Hkeep' & Hd').
    repeat split.
    + intros p Hp. now rewrite Hf', Hf.
    + auto.
    + set_solver.
  - repeat split; auto.
Qed.

Lemma confined_pure {A : Type} (region : path -> Prop) (m : io A) :
  (forall fs, final (m fs) = fs) -> confined region m.
Proof. intros H fs. rewrite H. repeat split; auto. Qed.

Lemma confined_read (region : path -> Prop) (p : path) :
  confined region (read_text p).
Proof.
  apply confined_pure. intros fs. unfold read_text.
  now destruct (files fs !! p).
Qed.

Lemma confined_mkdir (region : path -> Prop) (p : path) :
  confined region (mkdir_parents p).
Proof.
  intros fs. unfold mkdir_parents.
  destruct (existsb (is_file fs) (prefixes p)); cbn [final files dirs];
    repeat split; auto. set_solver.
Qed.

Lemma confined_write (region : path -> Prop) (p : path) (content : str) :
  region p -> confined region (write_text p content).
Proof.
  intros Hp fs. unfold write_text.
  destruct (is_dir fs p); [repeat split; auto|].
  destruct (is_dir fs (parent p)); [|repeat split; auto].
  cbn [final files dirs]. repeat split; auto.
  - intros q Hq. apply lookup_insert_ne. congruence.
  - intros q. unfold is_file. cbn [files].
    destruct (decide (p = q)) as [->|Hne].
    + now rewrite lookup_insert_eq.
    + now rewrite lookup_insert_ne.
Qed.

Section RunFacts.

Variable float_repr : str -> str.
Variable to_csv : ascii -> bool -> DataFrame -> rendering.

Lemma confined_df_to_csv (region : path -> Prop) (df : DataFrame) (file : path)
      (sep : ascii) (index : bool) :
  region file -> confined region (df_to_csv to_csv df file sep index).
Proof.
  intros Hfile. unfold df_to_csv.
  destruct (to_csv sep index df) as [csv|partial e|e].
  - now apply confined_write.
  - apply confined_bind; [now apply confined_write|].
    intros _. now apply confined_pure.
  - now apply confined_pure.
Qed.

Lemma main_confined (input_file out : path) :
  confined (output_file out) (main float_repr to_csv input_file out).
Proof.
  unfold main.
  apply confined_bind; [apply confined_read|]. intros text.
  apply confined_bind; [now apply confined_pure|]. intros records.
  apply confined_bind; [apply confined_mkdir|]. intros _.
  apply confined_bind; [apply confined_write; now left|]. intros _.
  apply confined_bind; [now apply confined_pure|]. intros _.
  apply confined_bind.
  - destruct records; [now apply confined_pure|].
    apply confined_bind; [apply confined_df_to_csv; right; now left|]. intros _.
    now apply confined_pure.
  - intros _.
    apply confined_bind; [apply confined_write; right; now right|]. intros _.
    now apply confined_pure.
Qed.

(** X11.  Whether it ends well or with an exception, [main] changes no
    file but [cleaned_data.json], [graph.csv] and
    [conceptual_space.json] of the output directory, removes no file,
    and removes no directory. *)
Theorem main_touches_only_outputs (input_file out : path) (fs : filesystem) :
  let o := main float_repr to_csv input_file out fs in
  (forall p, ~ output_file out p -> files (final o) !! p = files fs !! p)
  /\ (forall p, is_file fs p = true -> is_file (final o) p = true)
  /\ dirs fs ⊆ dirs (final o).
Proof.
  intros o. subst o.
  destruct (main_confined input_file out fs) as (Hkeep & Hfiles & Hdirs).
  repeat split; assumption.
Qed.

(** X12.  [main] ends well exactly when the input file can be read, the
    extraction returns (no exception escapes its loop), the output
    directory can be made and its files written, and, if there are
    records, pandas writes their frame. *)
Theorem main_ok_iff (input_file out : path) (fs : filesystem) :
  result (main float_repr to_csv input_file out fs) = Ok tt
  <-> exists text records,
        files fs !! input_file = Some text
        /\ extract_json_from_text text = Ok records
        /\ writable fs out (output_names records) = true
        /\ (records <> [] ->
            exists csv,
              to_csv "|"%char false (make_frame records) = Rendered csv).
Proof.
  split.
  - intros Hok.
    destruct (main_ok_inv _ _ _ _ _ Hok)
      as (text & records & csv & Hread & Hextract & Hw & Hcsv).
    exists text, records. repeat split; eauto.
  - intros (text & records & Hread & Hextract & Hw & Hcsv).
    destruct records as [|r records].
    + now rewrite (main_run _ _ _ _ _ _ _ [] Hread Hextract Hw)
        by congruence.
    + destruct Hcsv as [csv Hcsv]; [discriminate|].
      now rewrite (main_run _ _ _ _ _ _ _ csv Hread Hextract Hw)
        by (intros _; exact Hcsv).
Qed.


(** X14.  When pandas raises an exception on the frame, [main] ends
    after [cleaned_data.json] is written and its message printed, and
    before [conceptual_space.json] is written.  It ends with the
    exception of pandas, unless a directory has the name of
    [graph.csv] and pandas comes to open the file: then with
    [IsADirectoryError].  [graph.csv] is left as it was when pandas
    raises before it opens the file, and holds what pandas wrote when it
    raises later. *)
Theorem main_stops_at_pandas (input_file out : path) (fs : filesystem)
        (text : str) (records : list dict) (e : exn) :
  files fs !! input_file = Some text ->
  extract_json_from_text text = Ok records ->
  records <> [] ->
  writable fs out [cleaned_data_json] = true ->
  failure (to_csv "|"%char false (make_frame records)) = Some e ->
  let o := main float_repr to_csv input_file out fs in
  (exists e',
     result o = Raise e'
     /\ (e' = e \/ (e' = IsADirectoryError
                    /\ join_path out graph_csv ∈ dirs fs
                    /\ exists partial,
                         to_csv "|"%char false (make_frame records)
                         = Broken partial e)))
  /\ (join_path out graph_csv ∉ dirs fs -> result o = Raise e)
  /\ files (final o) !! join_path out cleaned_data_json
     = Some (cleaned_text float_repr records)
  /\ files (final o) !! join_path out conceptual_space_json
     = files fs !! join_path out conceptual_space_json
  /\ printed o = [raw "Cleaned JSON data has been saved to "
                  ++ path_str (join_path out cleaned_data_json)]
  /\ files (final o) !! join_path out graph_csv
     = match to_csv "|"%char false (make_frame records) with
       | Broken partial _ =>
           if decide (join_path out graph_csv ∈ dirs fs)
           then files fs !! join_path out graph_csv
           else Some partial
       | _ => files fs !! join_path out graph_csv
       end.
Proof.
  intros Hread Hextract Hne Hw Hfail o.
  destruct names_distinct as (Hcg & Hcs & Hgs).
  pose proof (df_to_csv_failed to_csv (make_frame records) out graph_csv
                "|"%char false
                (<[join_path out cleaned_data_json
                     := cleaned_text float_repr records]> (files fs))
                (dirs fs) e Hfail) as Htable.
  cbv zeta in Htable.
  assert (Hres : exists e',
             result (df_to_csv to_csv (make_frame records)
                       (join_path out graph_csv) "|"%char false
                       (FileSystem
                          (<[join_path out cleaned_data_json
                               := cleaned_text float_repr records]> (files fs))
                          (dirs fs ∪ list_to_set (prefixes out))))
             = Raise e').
  { rewrite Htable.
    destruct (to_csv "|"%char false (make_frame records)); [eauto| |eauto].
    destruct (decide (join_path out graph_csv ∈ dirs fs)); eauto. }
  destruct Hres as [e' Hres]. subst o.
  rewrite (main_to_table float_repr to_csv _ _ _ _ _ e' Hread Hextract Hne Hw Hres).
  rewrite Htable in Hres |- *. clear Htable.
  destruct (to_csv "|"%char false (make_frame records)) as [csv|partial e0|e0];
    [discriminate Hfail| |].
  - injection Hfail as ->.
    destruct (decide (join_path out graph_csv ∈ dirs fs)) as [Hin|Hout];
      cbn [result final printed files] in Hres |- *; injection Hres as <-.
    + repeat split.
      * exists IsADirectoryError. split; [reflexivity|]. right. eauto.
      * intros Hout. contradiction.
      * apply lookup_insert_eq.
      * apply lookup_insert_ne, join_path_ne. congruence.
      * apply lookup_insert_ne, join_path_ne. congruence.
    + repeat split.
      * exists e. auto.
      * rewrite lookup_insert_ne by (apply join_path_ne; congruence).
        apply lookup_insert_eq.
      * rewrite !lookup_insert_ne by (apply join_path_ne; congruence).
        reflexivity.
      * apply lookup_insert_eq.
  - injection Hfail as ->.
    cbn [result final printed files] in Hres |- *. injection Hres as <-.
    repeat split.
    + exists e. auto.
    + apply lookup_insert_eq.
    + apply lookup_insert_ne, join_path_ne. congruence.
    + apply lookup_insert_ne, join_path_ne. congruence.
Qed.

End RunFacts.


Lemma main_stops_at_pandas_witness :
  let text := lit "{'a': '\ud800'}" in
  let records := omap record_of (json_pattern text) in
  let o := main literal_repr strings_only notes_txt results_dir surrogate_fs in
  files surrogate_fs !! notes_txt = Some text
  /\ extract_json_from_text text = Ok records
  /\ records <> []
  /\ writable surrogate_fs results_dir [cleaned_data_json] = true
  /\ failure (strings_only "|"%char false (make_frame records))
     = Some UnicodeEncodeError
  /\ result o = Raise UnicodeEncodeError
  /\ files (final o) !! join_path results_dir conceptual_space_json = None
  /\ files (final o) !! join_path results_dir cleaned_data_json
     = Some (lit "[
    {
        'a': '\ud800',
        'chunk_id': 'd5a0776147fdef0125c45836d5e29e50'
    }
]").
Proof.
  intros text records o.
  assert (Hread : files surrogate_fs !! notes_txt = Some text)
    by (vm_compute; reflexivity).
  assert (Hextract : extract_json_from_text text = Ok records)
    by (vm_compute; reflexivity).
  assert (Hne : records <> []) by (vm_compute; discriminate).
  assert (Hw : writable surrogate_fs results_dir [cleaned_data_json] = true)
    by (vm_compute; reflexivity).
  assert (Hcsv : failure (strings_only "|"%char false (make_frame records))
                 = Some UnicodeEncodeError) by (vm_compute; reflexivity).
  destruct (main_stops_at_pandas literal_repr strings_only notes_txt results_dir
              surrogate_fs text records UnicodeEncodeError
              Hread Hextract Hne Hw Hcsv)
    as (_ & Hres & Hcleaned & Hspace & _).
  subst o. repeat (split; [assumption|]).
  split; [apply Hres; vm_compute; intros H; inversion H|].
  split; [exact Hspace|].
  rewrite Hcleaned. vm_compute. reflexivity.
Defined.

(** ** The script *)

Section ScriptFacts.

Variable float_repr : str -> str.
Variable to_csv : ascii -> bool -> DataFrame -> rendering.

Lemma script_confined (input_file out : path) (answer : prompt) :
  confined (output_file out) (script float_repr to_csv input_file out answer).
Proof.
  unfold script.
  apply confined_bind; [now apply confined_pure|]. intros _.
  apply confined_bind.
  - destruct answer; now apply confined_pure.
  - intros _. apply main_confined.
Qed.

(** X15.  Whatever the prompt comes to, the script changes no file but
    the three files of the output directory and removes no file and no
    directory; when the input is at its end at the prompt, it ends with
    [EOFError] and the file system as it was, [main] not having run. *)
Theorem script_touches_only_outputs (input_file out : path) (fs : filesystem)
        (answer : prompt) :
  let o := script float_repr to_csv input_file out answer fs in
  (forall p, ~ output_file out p -> files (final o) !! p = files fs !! p)
  /\ (forall p, is_file fs p = true -> is_file (final o) p = true)
  /\ dirs fs ⊆ dirs (final o)
  /\ (answer = EndOfInput -> result o = Raise EOFError /\ final o = fs).
Proof.
  intros o. subst o.
  destruct (script_confined input_file out answer fs) as (H1 & H2 & H3).
  repeat split; auto; now subst answer.
Qed.

End ScriptFacts.

(** ** Reading back what is written *)

Lemma code_points_ascii (s : str) :
  forallb is_ascii7 s = true -> Encoder.code_points s = map N_of_ascii s.
Proof.
  induction s as [|c s IH]; [reflexivity|].
  cbn [forallb]. intros [Hc Hs]%andb_true_iff.
  cbn [Encoder.code_points map]. unfold is_ascii7 in Hc.
  apply N.ltb_lt in Hc.
  destruct (N_of_ascii c <? 192)%N eqn:E; [now rewrite IH|].
  apply N.ltb_ge in E. lia.
Qed.

(** An escaped ASCII character is read back as the character. *)
Lemma scanstring_escape_char (c : ascii) (r : str) :
  is_ascii7 c = true ->
  Decoder.scanstring (Encoder.escape_char (N_of_ascii c) ++ r)
  = Decoder.prepend [c] (Decoder.scanstring r).
Proof.
  destruct c as [[] [] [] [] [] [] [] []]; intros H;
    try discriminate H; reflexivity.
Qed.

Lemma scanstring_encoded (s rest : str) :
  forallb is_ascii7 s = true ->
  Decoder.scanstring
    (concat (map Encoder.escape_char (map N_of_ascii s)) ++ dquote :: rest)
  = Some (s, rest).
Proof.
  induction s as [|c s IH]; [reflexivity|].
  cbn [forallb map concat]. intros [Hc Hs]%andb_true_iff.
  rewrite <- app_assoc, scanstring_escape_char by exact Hc.
  now rewrite IH.
Qed.

(** A printed ASCII string is read back as the string. *)
Lemma scanstring_encode_string (s rest : str) :
  forallb is_ascii7 s = true ->
  exists body,
    Encoder.encode_string s ++ rest = dquote :: body
    /\ Decoder.scanstring body = Some (s, rest).
Proof.
  intros Hs. unfold Encoder.encode_string.
  rewrite code_points_ascii by exact Hs.
  exists (concat (map Encoder.escape_char (map N_of_ascii s)) ++ dquote :: rest).
  split; [cbn [app]; now rewrite <- app_assoc|].
  now apply scanstring_encoded.
Qed.

(** *** Integers *)

Lemma digits_of_step (d : Decimal.uint) (acc : positive) :
  fold_left (fun a c => (10 * a + Z.of_N (N_of_ascii c - 48))%Z)
            (digits_of d) (Zpos acc)
  = Zpos (Pos.of_uint_acc d acc).
Proof.
  revert acc. unfold digits_of.
  induction d as [|d IH|d IH|d IH|d IH|d IH|d IH|d IH|d IH|d IH|d IH];
    intros acc; [reflexivity|..];
    cbn [NilEmpty.string_of_uint list_ascii_of_string fold_left Pos.of_uint_acc];
    rewrite <- IH; f_equal; cbn; lia.
Qed.

Lemma int_of_digits_of (d : Decimal.uint) :
  Decoder.int_of_digits (digits_of d) = Z.of_N (Pos.of_uint d).
Proof.
  unfold Decoder.int_of_digits, digits_of.
  induction d as [|d IH|d IH|d IH|d IH|d IH|d IH|d IH|d IH|d IH|d IH];
    [reflexivity|exact IH|..];
    cbn [NilEmpty.string_of_uint list_ascii_of_string fold_left Pos.of_uint];
    apply (digits_of_step d).
Qed.

Lemma digits_of_digits (d : Decimal.uint) :
  forallb Decoder.is_digit (digits_of d) = true.
Proof.
  unfold digits_of.
  induction d as [|d IH|d IH|d IH|d IH|d IH|d IH|d IH|d IH|d IH|d IH];
    [reflexivity|..]; exact IH.
Qed.

(** The numeral of a positive number opens with a digit that is not
    zero. *)
Lemma to_uint_head (p : positive) :
  exists c ds,
    digits_of (Pos.to_uint p) = c :: ds
    /\ Decoder.is_digit c = true
    /\ Ascii.eqb c "0" = false.
Proof.
  pose proof (DecimalPos.Unsigned.to_of (Pos.to_uint p)) as Hnorm.
  rewrite DecimalPos.Unsigned.of_to in Hnorm. cbn [N.to_uint] in Hnorm.
  pose proof (DecimalPos.Unsigned.to_uint_nonzero p) as Hnz.
  unfold Decimal.unorm in Hnorm.
  assert (Hhead : forall d, match Decimal.nzhead d with
                            | Decimal.D0 _ => False
                            | _ => True
                            end).
  { induction d; simpl; auto. }
  specialize (Hhead (Pos.to_uint p)).
  destruct (Decimal.nzhead (Pos.to_uint p)) eqn:E;
    try contradiction; rewrite Hnorm in *;
    try (now contradiction Hnz);
    unfold digits_of; cbn [NilEmpty.string_of_uint list_ascii_of_string];
    do 2 eexists; repeat split.
Qed.

(** What a digit is not. *)
Lemma digit_not_other (c : ascii) :
  Decoder.is_digit c = true ->
  Ascii.eqb c dquote = false /\ Ascii.eqb c "{" = false
  /\ Ascii.eqb c "[" = false /\ Ascii.eqb c "-" = false
  /\ Ascii.eqb "n" c = false /\ Ascii.eqb "t" c = false
  /\ Ascii.eqb "f" c = false.
Proof.
  destruct c as [[] [] [] [] [] [] [] []]; intros H;
    try discriminate H; repeat split.
Qed.

(** What a delimiter is not. *)
Lemma delimited_head (rest : str) :
  delimited rest = true ->
  match rest with
  | [] => True
  | c :: _ =>
      Decoder.is_digit c = false /\ Ascii.eqb c "." = false
      /\ Ascii.eqb c "e" = false /\ Ascii.eqb c "E" = false
  end.
Proof.
  destruct rest as [|c rest]; [auto|]. simpl.
  intros [H|H]%orb_true_iff; apply Ascii.eqb_eq in H; subst c; repeat split.
Qed.

Lemma span_digits_all (ds rest : str) :
  forallb Decoder.is_digit ds = true ->
  delimited rest = true ->
  Decoder.span_digits (ds ++ rest) = (ds, rest).
Proof.
  intros Hds Hrest. induction ds as [|c ds IH].
  - apply delimited_head in Hrest. destruct rest as [|c rest]; [reflexivity|].
    destruct Hrest as (Hd & _). simpl. now rewrite Hd.
  - cbn [forallb] in Hds. apply andb_true_iff in Hds as [Hc Hds].
    cbn [app Decoder.span_digits]. now rewrite Hc, IH.
Qed.

Lemma match_frac_none (rest : str) :
  delimited rest = true -> Decoder.match_frac rest = ([], rest).
Proof.
  intros H. apply delimited_head in H. destruct rest as [|c rest]; [reflexivity|].
  destruct H as (_ & Hdot & _). simpl. now rewrite Hdot.
Qed.

Lemma match_exp_none (rest : str) :
  delimited rest = true -> Decoder.match_exp rest = ([], rest).
Proof.
  intros H. apply delimited_head in H. destruct rest as [|c rest]; [reflexivity|].
  destruct H as (_ & _ & He & HE). simpl. now rewrite He, HE.
Qed.

(** The numeral of a positive number, read as the integer group. *)
Lemma match_integer_positive (p : positive) (rest : str) :
  delimited rest = true ->
  Decoder.match_integer (digits_of (Pos.to_uint p) ++ rest)
  = Some (digits_of (Pos.to_uint p), rest).
Proof.
  intros Hrest. pose proof (digits_of_digits (Pos.to_uint p)) as Hall.
  destruct (to_uint_head p) as (c & ds & E & Hc & Hz). rewrite E in *.
  cbn [forallb] in Hall. apply andb_true_iff in Hall as [_ Hds].
  destruct (digit_not_other c Hc) as (_ & _ & _ & Hminus & _).
  unfold Decoder.match_integer. cbn [app].
  rewrite Hminus, Hz, Hc. now rewrite span_digits_all.
Qed.

(** [int] of a text of digits within the limit, with or without a
    sign. *)
Lemma int_of_literal_plain (c : ascii) (ds : str) :
  Ascii.eqb c "-" = false ->
  length (c :: ds) <= int_max_str_digits ->
  Decoder.int_of_literal (c :: ds) = Ok (Decoder.int_of_digits (c :: ds)).
Proof.
  intros Hminus Hlen. unfold Decoder.int_of_literal. rewrite Hminus.
  now rewrite (proj2 (Nat.ltb_ge _ _) Hlen).
Qed.

Lemma int_of_literal_minus (ds : str) :
  length ds <= int_max_str_digits ->
  Decoder.int_of_literal ("-"%char :: ds) = Ok (- Decoder.int_of_digits ds)%Z.
Proof.
  intros Hlen. unfold Decoder.int_of_literal.
  change (Ascii.eqb "-" "-") with true. cbv iota.
  now rewrite (proj2 (Nat.ltb_ge _ _) Hlen).
Qed.

Lemma int_digits_signed (p : positive) :
  int_digits (Zpos p) = length (digits_of (Pos.to_uint p))
  /\ int_digits (Zneg p) = length (digits_of (Pos.to_uint p)).
Proof. split; reflexivity. Qed.

(** A printed integer within the limit on digits is read back as the
    integer. *)
Lemma match_number_int_repr (z : Z) (rest : str) :
  delimited rest = true ->
  int_digits z <= int_max_str_digits ->
  Decoder.match_number (Encoder.int_repr z ++ rest)
  = Decoder.Parsed (JInt z) rest.
Proof.
  intros Hrest Hlen. unfold Decoder.match_number, Encoder.int_repr.
  destruct z as [|p|p]; cbn [Z.to_int NilEmpty.string_of_int].
  - change (Decoder.match_integer
              (list_ascii_of_string (NilEmpty.string_of_uint (Decimal.D0 Decimal.Nil))
               ++ rest))
      with (Some (["0"%char], rest)).
    cbv iota beta. rewrite match_frac_none, match_exp_none by exact Hrest.
    rewrite int_of_literal_plain; [reflexivity|reflexivity|].
    unfold int_max_str_digits. cbn [length]. lia.
  - change (list_ascii_of_string (NilEmpty.string_of_uint (Pos.to_uint p)))
      with (digits_of (Pos.to_uint p)).
    rewrite (proj1 (int_digits_signed p)) in Hlen.
    rewrite match_integer_positive by exact Hrest.
    rewrite match_frac_none, match_exp_none by exact Hrest.
    destruct (to_uint_head p) as (c & ds & E & Hc & _).
    destruct (digit_not_other c Hc) as (_ & _ & _ & Hminus & _).
    pose proof (int_of_digits_of (Pos.to_uint p)) as Hval.
    rewrite DecimalPos.Unsigned.of_to in Hval.
    rewrite E in *. rewrite int_of_literal_plain by assumption.
    now rewrite Hval.
  - cbn [list_ascii_of_string].
    change (list_ascii_of_string (NilEmpty.string_of_uint (Pos.to_uint p)))
      with (digits_of (Pos.to_uint p)).
    rewrite (proj2 (int_digits_signed p)) in Hlen.
    unfold Decoder.match_integer. cbn [app].
    change (Ascii.eqb "-" "-") with true. cbv iota.
    pose proof (digits_of_digits (Pos.to_uint p)) as Hall.
    pose proof (int_of_digits_of (Pos.to_uint p)) as Hval.
    rewrite DecimalPos.Unsigned.of_to in Hval.
    destruct (to_uint_head p) as (c & ds & E & Hc & Hz). rewrite E in *.
    cbn [forallb] in Hall. apply andb_true_iff in Hall as [_ Hds].
    cbn [app]. rewrite Hz, Hc, span_digits_all by assumption.
    rewrite match_frac_none, match_exp_none by exact Hrest.
    cbn [app]. rewrite int_of_literal_minus by exact Hlen.
    now rewrite Hval.
Qed.

Lemma int_repr_head (z : Z) :
  exists c tail,
    Encoder.int_repr z = c :: tail
    /\ (Decoder.is_digit c = true \/ c = "-"%char).
Proof.
  unfold Encoder.int_repr.
  destruct z as [|p|p]; cbn [Z.to_int NilEmpty.string_of_int].
  - do 2 eexists. split; [reflexivity|now left].
  - destruct (to_uint_head p) as (c & ds & E & Hc & _).
    unfold digits_of in E. rewrite E. eauto.
  - cbn [list_ascii_of_string]. eauto.
Qed.

Lemma scan_once_int_repr (fuel room : nat) (z : Z) (rest : str) :
  delimited rest = true ->
  int_digits z <= int_max_str_digits ->
  Decoder.scan_once (S fuel) room (Encoder.int_repr z ++ rest)
  = Decoder.Parsed (JInt z) rest.
Proof.
  intros Hrest Hlen.
  pose proof (match_number_int_repr z rest Hrest Hlen) as Hnum.
  destruct (int_repr_head z) as (c & tail & E & Hc). rewrite E in *.
  cbn [app] in *. cbn [Decoder.scan_once].
  assert (Hfacts : Ascii.eqb c dquote = false /\ Ascii.eqb c "{" = false
                   /\ Ascii.eqb c "[" = false
                   /\ Ascii.eqb "n" c = false /\ Ascii.eqb "t" c = false
                   /\ Ascii.eqb "f" c = false).
  { destruct Hc as [Hc| ->]; [|repeat split].
    destruct (digit_not_other c Hc) as (? & ? & ? & _ & ? & ? & ?).
    repeat split; assumption. }
  destruct Hfacts as (H1 & H2 & H3 & Hn & Ht & Hf).
  rewrite H1, H2, H3. unfold Decoder.scan_atom.
  cbn [list_ascii_of_string Decoder.strip_prefix].
  now rewrite Hn, Ht, Hf, Hnum.
Qed.

(** *** Fuel does not matter *)

Section FuelFacts.

Import Decoder.

(** A result that is not [Exhausted] stays with more fuel. *)
Ltac not_exhausted H :=
  let E := fresh "E" in intros E; rewrite E in H; now apply H.

Lemma fuel_stable (f : nat) :
  (forall f' room s, f <= f' -> scan_once f room s <> Exhausted ->
                     scan_once f' room s = scan_once f room s)
  /\ (forall f' room s, f <= f' -> parse_elements f room s <> Exhausted ->
                        parse_elements f' room s = parse_elements f room s)
  /\ (forall f' room s, f <= f' -> parse_members f room s <> Exhausted ->
                        parse_members f' room s = parse_members f room s).
Proof.
  induction f as [|f (IHv & IHe & IHm)].
  { repeat split; intros f' room s _ H; now contradiction H. }
  repeat split; intros f' room s Hle; (destruct f' as [|f']; [lia|]);
    assert (Hf : f <= f') by lia.
  - (* scan_once *)
    cbn [scan_once]. destruct s as [|c s]; [reflexivity|].
    destruct (Ascii.eqb c dquote); [reflexivity|].
    destruct (Ascii.eqb c "{").
    { destruct room as [|room]; [reflexivity|].
      destruct (skip_ws s) as [|c1 r1]; [reflexivity|].
      destruct (Ascii.eqb c1 "}"); [reflexivity|].
      intros H.
      rewrite (IHm f' room (c1 :: r1) Hf); [reflexivity|].
      not_exhausted H. }
    destruct (Ascii.eqb c "[").
    { destruct room as [|room]; [reflexivity|].
      destruct (skip_ws s) as [|c1 r1]; [reflexivity|].
      destruct (Ascii.eqb c1 "]"); [reflexivity|].
      intros H.
      rewrite (IHe f' room (c1 :: r1) Hf); [reflexivity|].
      not_exhausted H. }
    reflexivity.
  - (* parse_elements *)
    cbn [parse_elements]. intros H.
    rewrite (IHv f' room s Hf) by (not_exhausted H).
    destruct (scan_once f room s) as [v r| | |]; try reflexivity.
    cbn [and_then] in *.
    destruct (skip_ws r) as [|c r1]; [reflexivity|].
    destruct (Ascii.eqb c "]"); [reflexivity|].
    destruct (Ascii.eqb c ","); [|reflexivity].
    rewrite (IHe f' room (skip_ws r1) Hf); [reflexivity|].
    not_exhausted H.
  - (* parse_members *)
    cbn [parse_members]. destruct s as [|q r0]; [reflexivity|].
    destruct (Ascii.eqb q dquote); [|reflexivity].
    destruct (scanstring r0) as [[key r1]|]; [|reflexivity].
    destruct (skip_ws r1) as [|c r2]; [reflexivity|].
    destruct (Ascii.eqb c ":"); [|reflexivity].
    intros H.
    rewrite (IHv f' room (skip_ws r2) Hf) by (not_exhausted H).
    destruct (scan_once f room (skip_ws r2)) as [v r3| | |]; try reflexivity.
    cbn [and_then] in *.
    destruct (skip_ws r3) as [|c' r4]; [reflexivity|].
    destruct (Ascii.eqb c' "}"); [reflexivity|].
    destruct (Ascii.eqb c' ","); [|reflexivity].
    rewrite (IHm f' room (skip_ws r4) Hf); [reflexivity|].
    not_exhausted H.
Qed.

(** A value read with some fuel is the value [decode] reads, and a
    value [decode] reads was read by the scanner. *)
Lemma decode_of_scan (f room : nat) (s : str) (v : json) :
  scan_once f room s = Parsed v [] ->
  skip_ws s = s ->
  decode room s = Parsed v [].
Proof.
  intros Hscan Hws. unfold decode. rewrite Hws.
  set (F := 2 * length s + 2).
  destruct (fuel_covers F) as (Hcov & _ & _).
  specialize (Hcov room s ltac:(lia)).
  destruct (fuel_stable F) as (HF & _ & _).
  destruct (fuel_stable f) as (Hf & _ & _).
  destruct (Nat.le_ge_cases f F) as [Hle|Hge].
  - rewrite (Hf F room s Hle) by (rewrite Hscan; discriminate).
    now rewrite Hscan.
  - assert (HE : scan_once F room s <> Exhausted)
      by (intros E; now rewrite E in Hcov).
    rewrite <- (HF f room s Hge HE). now rewrite Hscan.
Qed.

Lemma scan_of_decode (room : nat) (s : str) (v : json) (r : str) :
  decode room s = Parsed v r ->
  exists fuel t, scan_once fuel room (skip_ws s) = Parsed v t.
Proof.
  unfold decode. intros (v' & t & Hscan & Hk)%and_then_parsed.
  destruct (skip_ws t); [|discriminate]. injection Hk as <- _. eauto.
Qed.

End FuelFacts.

(** *** Values *)

(** Induction over values, through the lists inside them. *)
Lemma json_nested_ind (P : json -> Prop) :
  P JNull ->
  (forall b, P (JBool b)) ->
  (forall z, P (JInt z)) ->
  (forall literal, P (JFloat literal)) ->
  (forall s, P (JString s)) ->
  (forall items, Forall P items -> P (JArray items)) ->
  (forall members, Forall (fun kv => P (snd kv)) members -> P (JObject members)) ->
  forall v, P v.
Proof.
  intros Hnull Hbool Hint Hfloat Hstr Harr Hobj.
  fix IH 1. intros [| b | z | literal | s | items | members].
  - exact Hnull.
  - apply Hbool.
  - apply Hint.
  - apply Hfloat.
  - apply Hstr.
  - apply Harr. induction items as [|v items IHitems]; constructor.
    + apply IH.
    + exact IHitems.
  - apply Hobj. induction members as [|[k v] members IHmembers]; constructor.
    + apply IH.
    + exact IHmembers.
Qed.

Lemma dict_set_fresh (d : dict) (k : str) (v : json) :
  ~ In k (dict_keys d) -> dict_set d k v = d ++ [(k, v)].
Proof.
  induction d as [|[k' v'] d IH]; [reflexivity|]. simpl. intros H.
  destruct (decide (k' = k)) as [->|Hne]; [exfalso; apply H; now left|].
  rewrite IH; [reflexivity|]. intros Hin. apply H. now right.
Qed.

(** [dict] of pairs with distinct keys keeps the pairs as they are. *)
Lemma dict_of_pairs_distinct (pairs : list (str * json)) :
  NoDup (map fst pairs) -> dict_of_pairs pairs = pairs.
Proof.
  unfold dict_of_pairs.
  assert (H : forall d, NoDup (map fst (d ++ pairs)) ->
            fold_left (fun d kv => dict_set d (fst kv) (snd kv)) pairs d
            = d ++ pairs).
  { induction pairs as [|[k v] pairs IH]; intros d Hnd; simpl.
    - now rewrite app_nil_r.
    - rewrite dict_set_fresh.
      + rewrite IH; rewrite <- app_assoc; [reflexivity|exact Hnd].
      + rewrite map_app in Hnd. apply NoDup_app in Hnd as (_ & Hdisj & _).
        intros Hin. apply (Hdisj k); [now apply list_elem_of_In|]. now left. }
  apply (H []).
Qed.

Lemma skip_ws_indent (indent level : nat) (s : str) :
  Decoder.skip_ws (Encoder.newline_indent indent level ++ s)
  = Decoder.skip_ws s.
Proof.
  unfold Encoder.newline_indent. cbn [app Decoder.skip_ws].
  change (Decoder.is_ws (ascii_of_nat 10)) with true. cbv iota.
  induction (indent * level) as [|n IH]; [reflexivity|exact IH].
Qed.

Lemma delimited_indent (indent level : nat) (s : str) :
  delimited (Encoder.newline_indent indent level ++ s) = true.
Proof. reflexivity. Qed.

(** How a digit or a minus sign does not look. *)
Lemma number_head (c : ascii) :
  Decoder.is_digit c = true \/ c = "-"%char ->
  Decoder.is_ws c = false /\ Ascii.eqb c "]" = false
  /\ Ascii.eqb c "}" = false.
Proof.
  intros [H| ->]; [|repeat split].
  destruct c as [[] [] [] [] [] [] [] []]; try discriminate H; repeat split.
Qed.

Section ValueFacts.

Variable float_repr : str -> str.
Variable indent : nat.

(** A printed value opens with a character that is no white space and
    closes no container. *)
Lemma iterencode_head (level : nat) (v : json) :
  plain_json v = true ->
  exists c tail,
    Encoder.iterencode float_repr indent level v = c :: tail
    /\ Decoder.is_ws c = false
    /\ Ascii.eqb c "]" = false
    /\ Ascii.eqb c "}" = false.
Proof.
  destruct v as [| [] | z | literal | s | [|v items] | [|kv members]];
    intros Hplain; try discriminate Hplain;
    try (do 2 eexists; split; [reflexivity|repeat split]).
  destruct (int_repr_head z) as (c & tail & E & Hc).
  exists c, tail. split; [exact E|]. now apply number_head.
Qed.

Lemma skip_ws_iterencode (level : nat) (v : json) (rest : str) :
  plain_json v = true ->
  Decoder.skip_ws (Encoder.iterencode float_repr indent level v ++ rest)
  = Encoder.iterencode float_repr indent level v ++ rest.
Proof.
  intros Hplain.
  destruct (iterencode_head level v Hplain) as (c & tail & -> & Hws & _).
  cbn [app Decoder.skip_ws]. now rewrite Hws.
Qed.

Lemma skip_ws_join (level : nat) (sep : str) (items : list json) (rest : str) :
  forallb plain_json items = true ->
  items <> [] ->
  Decoder.skip_ws
    (Encoder.join sep (map (Encoder.iterencode float_repr indent level) items)
     ++ rest)
  = Encoder.join sep (map (Encoder.iterencode float_repr indent level) items)
    ++ rest.
Proof.
  destruct items as [|v items]; [congruence|].
  cbn [forallb map]. intros [Hv _]%andb_true_iff _.
  destruct items as [|v2 items].
  - now apply skip_ws_iterencode.
  - rewrite join_cons by discriminate. rewrite <- app_assoc.
    now apply skip_ws_iterencode.
Qed.

(** The elements of a printed array, read by the loop of the array. *)
Lemma reads_elements (level : nat) (items : list json) :
  Forall (fun v => plain_json v = true -> ints_within v = true ->
                   reads_back float_repr indent v)
         items ->
  forallb plain_json items = true ->
  forallb ints_within items = true ->
  items <> [] ->
  forall room rest,
    fold_right (fun v n => Nat.max (nesting v) n) 0 items <= room ->
    exists f0, forall fuel, f0 <= fuel ->
      Decoder.parse_elements fuel room
        (Encoder.join (","%char :: Encoder.newline_indent indent (S level))
           (map (Encoder.iterencode float_repr indent (S level)) items)
         ++ Encoder.newline_indent indent level ++ "]"%char :: rest)
      = Decoder.Parsed items rest.
Proof.
  intros Hall. induction Hall as [|v items Hv _ IH]; [congruence|].
  cbn [forallb fold_right].
  intros [Hpv Hpitems]%andb_true_iff [Hiv Hiitems]%andb_true_iff _ room rest
         Hroom.
  destruct items as [|v2 items].
  - cbn [map Encoder.join].
    destruct (Hv Hpv Hiv room (S level)
                (Encoder.newline_indent indent level ++ "]"%char :: rest)
                ltac:(lia) (delimited_indent _ _ _)) as [f1 Hf1].
    exists (S f1). intros [|fuel] Hfuel; [lia|].
    cbn [Decoder.parse_elements]. rewrite Hf1 by lia.
    cbn [Decoder.and_then]. rewrite skip_ws_indent. reflexivity.
  - destruct (IH Hpitems Hiitems ltac:(discriminate) room rest ltac:(lia))
      as [f2 Hf2].
    cbn [map]. rewrite join_cons by discriminate.
    rewrite <- !app_assoc. cbn [app].
    set (more := Encoder.join _ _ ++ _) in *.
    destruct (Hv Hpv Hiv room (S level)
                (","%char :: Encoder.newline_indent indent (S level) ++ more)
                ltac:(lia) eq_refl) as [f1 Hf1].
    exists (S (Nat.max f1 f2)). intros [|fuel] Hfuel; [lia|].
    cbn [Decoder.parse_elements]. rewrite Hf1 by lia.
    cbn [Decoder.and_then Decoder.skip_ws].
    change (Decoder.is_ws ",") with false. cbv iota.
    change (Ascii.eqb "," "]") with false.
    change (Ascii.eqb "," ",") with true. cbv iota.
    rewrite skip_ws_indent. subst more.
    rewrite (skip_ws_join (S level) _ (v2 :: items)) by (auto; discriminate).
    cbn [map] in Hf2. now rewrite Hf2 by lia.
Qed.

Lemma skip_ws_join_members (level : nat) (sep : str)
      (members : list (str * json)) (rest : str) :
  members <> [] ->
  Decoder.skip_ws
    (Encoder.join sep
       (map (fun kv => Encoder.encode_string (fst kv)
                       ++ list_ascii_of_string ": "
                       ++ Encoder.iterencode float_repr indent level (snd kv))
            members)
     ++ rest)
  = Encoder.join sep
      (map (fun kv => Encoder.encode_string (fst kv)
                      ++ list_ascii_of_string ": "
                      ++ Encoder.iterencode float_repr indent level (snd kv))
           members)
    ++ rest.
Proof.
  destruct members as [|kv [|kv2 members]]; [congruence| |]; intros _.
  - reflexivity.
  - cbn [map]. rewrite join_cons by discriminate. reflexivity.
Qed.

(** The members of a printed object, read by the loop of the object. *)
Lemma reads_members (level : nat) (members : list (str * json)) :
  Forall (fun kv => plain_json (snd kv) = true ->
                    ints_within (snd kv) = true ->
                    reads_back float_repr indent (snd kv)) members ->
  forallb (fun kv => forallb is_ascii7 (fst kv) && plain_json (snd kv))
          members = true ->
  forallb (fun kv => ints_within (snd kv)) members = true ->
  members <> [] ->
  forall room rest,
    fold_right (fun kv n => Nat.max (nesting (snd kv)) n) 0 members <= room ->
    exists f0, forall fuel, f0 <= fuel ->
      Decoder.parse_members fuel room
        (Encoder.join (","%char :: Encoder.newline_indent indent (S level))
           (map (fun kv => Encoder.encode_string (fst kv)
                           ++ list_ascii_of_string ": "
                           ++ Encoder.iterencode float_repr indent (S level)
                                (snd kv)) members)
         ++ Encoder.newline_indent indent level ++ "}"%char :: rest)
      = Decoder.Parsed members rest.
Proof.
  intros Hall. induction Hall as [|[k v] members Hv _ IH]; [congruence|].
  cbn [forallb fst snd fold_right] in *.
  intros [[Hk Hpv]%andb_true_iff Hpmembers]%andb_true_iff
         [Hiv Himembers]%andb_true_iff _ room rest Hroom.
  destruct members as [|kv2 members].
  - cbn [map Encoder.join fst snd]. rewrite <- !app_assoc.
    destruct (Hv Hpv Hiv room (S level)
                (Encoder.newline_indent indent level ++ "}"%char :: rest)
                ltac:(cbn [fold_right] in Hroom; lia)
                (delimited_indent _ _ _)) as [f1 Hf1].
    destruct (scanstring_encode_string k
                (list_ascii_of_string ": "
                 ++ Encoder.iterencode float_repr indent (S level) v
                 ++ Encoder.newline_indent indent level ++ "}"%char :: rest)
                Hk) as (body & -> & Hbody).
    exists (S f1). intros [|fuel] Hfuel; [lia|].
    cbn [Decoder.parse_members].
    change (Ascii.eqb dquote dquote) with true. cbv iota.
    rewrite Hbody. cbn [list_ascii_of_string app Decoder.skip_ws].
    change (Decoder.is_ws ":") with false. cbv iota.
    change (Ascii.eqb ":" ":") with true. cbv iota.
    cbn [Decoder.skip_ws]. change (Decoder.is_ws " ") with true. cbv iota.
    rewrite skip_ws_iterencode by exact Hpv.
    rewrite Hf1 by lia. cbn [Decoder.and_then].
    rewrite skip_ws_indent. reflexivity.
  - destruct (IH Hpmembers Himembers ltac:(discriminate) room rest
                ltac:(cbn [fold_right] in Hroom |- *; lia)) as [f2 Hf2].
    cbn [map fst snd]. rewrite join_cons by discriminate.
    rewrite <- !app_assoc. cbn [app].
    set (more := Encoder.join _ _ ++ _) in *.
    destruct (Hv Hpv Hiv room (S level)
                (","%char :: Encoder.newline_indent indent (S level) ++ more)
                ltac:(cbn [fold_right] in Hroom; lia) eq_refl) as [f1 Hf1].
    destruct (scanstring_encode_string k
                (list_ascii_of_string ": "
                 ++ Encoder.iterencode float_repr indent (S level) v
                 ++ ","%char :: Encoder.newline_indent indent (S level) ++ more)
                Hk) as (body & -> & Hbody).
    exists (S (Nat.max f1 f2)). intros [|fuel] Hfuel; [lia|].
    cbn [Decoder.parse_members].
    change (Ascii.eqb dquote dquote) with true. cbv iota.
    rewrite Hbody. cbn [list_ascii_of_string app Decoder.skip_ws].
    change (Decoder.is_ws ":") with false. cbv iota.
    change (Ascii.eqb ":" ":") with true. cbv iota.
    cbn [Decoder.skip_ws]. change (Decoder.is_ws " ") with true. cbv iota.
    rewrite skip_ws_iterencode by exact Hpv.
    rewrite Hf1 by lia.
    cbn [Decoder.and_then Decoder.skip_ws].
    change (Decoder.is_ws ",") with false. cbv iota.
    change (Ascii.eqb "," "}") with false.
    change (Ascii.eqb "," ",") with true. cbv iota.
    rewrite skip_ws_indent. subst more.
    rewrite (skip_ws_join_members (S level) _ (kv2 :: members)) by discriminate.
    now rewrite Hf2 by lia.
Qed.

(** Every plain value whose integers are within the limit on digits is
    read back. *)
Lemma reads_plain (v : json) :
  plain_json v = true -> ints_within v = true ->
  reads_back float_repr indent v.
Proof.
  induction v as [| b | z | literal | s | items Hitems | members Hmembers]
    using json_nested_ind; intros Hplain Hints room level rest Hroom Hrest.
  - exists 1. intros [|fuel] Hfuel; [lia|]. reflexivity.
  - exists 1. intros [|fuel] Hfuel; [lia|]. now destruct b.
  - exists 1. intros [|fuel] Hfuel; [lia|].
    apply scan_once_int_repr; [exact Hrest|].
    cbn [ints_within] in Hints. now apply Nat.leb_le in Hints.
  - discriminate Hplain.
  - cbn [plain_json] in Hplain. cbn [Encoder.iterencode].
    destruct (scanstring_encode_string s rest Hplain) as (body & -> & Hbody).
    exists 1. intros [|fuel] Hfuel; [lia|].
    cbn [Decoder.scan_once]. change (Ascii.eqb dquote dquote) with true.
    cbv iota. now rewrite Hbody.
  - cbn [plain_json] in Hplain. cbn [ints_within] in Hints.
    cbn [nesting] in Hroom. destruct room as [|room]; [lia|].
    destruct items as [|v items].
    { exists 1. intros [|fuel] Hfuel; [lia|]. reflexivity. }
    destruct (reads_elements level (v :: items) Hitems Hplain Hints
                ltac:(discriminate) room rest ltac:(lia)) as [f0 Hf0].
    exists (S f0). intros [|fuel] Hfuel; [lia|].
    cbn [Encoder.iterencode]. cbn [app]. rewrite <- !app_assoc. cbn [app].
    cbn [Decoder.scan_once].
    change (Ascii.eqb "[" dquote) with false.
    change (Ascii.eqb "[" "{") with false.
    change (Ascii.eqb "[" "[") with true. cbv iota.
    rewrite skip_ws_indent.
    rewrite (skip_ws_join (S level) _ (v :: items)) by (auto; discriminate).
    specialize (Hf0 fuel ltac:(lia)).
    apply andb_true_iff in Hplain as [Hv _].
    destruct (iterencode_head (S level) v Hv) as (c & tail & E & _ & Hc & _).
    assert (Hshape : exists t,
              Encoder.join (","%char :: Encoder.newline_indent indent (S level))
                (map (Encoder.iterencode float_repr indent (S level)) (v :: items))
              ++ Encoder.newline_indent indent level ++ "]"%char :: rest
              = c :: t).
    { cbn [map]. destruct items as [|v2 items].
      - cbn [map Encoder.join]. rewrite E. eauto.
      - rewrite join_cons by discriminate. rewrite E. eauto. }
    destruct Hshape as [t Ht]. rewrite Ht in *. rewrite Hc.
    now rewrite Hf0.
  - cbn [plain_json] in Hplain. cbn [ints_within] in Hints.
    cbn [nesting] in Hroom. destruct room as [|room]; [lia|].
    destruct members as [|kv members].
    { exists 1. intros [|fuel] Hfuel; [lia|]. reflexivity. }
    apply andb_true_iff in Hplain as [Hnd Hplain].
    apply bool_decide_eq_true in Hnd.
    destruct (reads_members level (kv :: members) Hmembers Hplain Hints
                ltac:(discriminate) room rest ltac:(lia)) as [f0 Hf0].
    exists (S f0). intros [|fuel] Hfuel; [lia|].
    cbn [Encoder.iterencode]. cbn [app]. rewrite <- !app_assoc. cbn [app].
    cbn [Decoder.scan_once].
    change (Ascii.eqb "{" dquote) with false.
    change (Ascii.eqb "{" "{") with true. cbv iota.
    rewrite skip_ws_indent.
    rewrite (skip_ws_join_members (S level) _ (kv :: members)) by discriminate.
    specialize (Hf0 fuel ltac:(lia)).
    assert (Hshape : exists t,
              Encoder.join (","%char :: Encoder.newline_indent indent (S level))
                (map (fun kv => Encoder.encode_string (fst kv)
                                ++ list_ascii_of_string ": "
                                ++ Encoder.iterencode float_repr indent (S level)
                                     (snd kv)) (kv :: members))
              ++ Encoder.newline_indent indent level ++ "}"%char :: rest
              = dquote :: t).
    { cbn [map]. destruct members as [|kv2 members].
      - cbn [map Encoder.join]. eauto.
      - rewrite join_cons by discriminate. eauto. }
    destruct Hshape as [t Ht]. rewrite Ht in *.
    change (Ascii.eqb dquote "}") with false. cbv iota.
    rewrite Hf0. cbn [Decoder.and_then]. now rewrite dict_of_pairs_distinct.
Qed.

(** What [json.dumps] prints of a plain value, [json.loads] reads back
    as the value, when the integers of the value are within the limit on
    digits and its containers are nested no deeper than the scanner has
    room for. *)
Lemma loads_dumps (v : json) :
  plain_json v = true ->
  ints_within v = true ->
  nesting v <= scanner_room at_module ->
  json_loads (json_dumps float_repr indent v) = Ok v.
Proof.
  intros Hplain Hints Hroom.
  destruct (reads_plain v Hplain Hints (scanner_room at_module) 0 [] Hroom
              eq_refl) as [f0 Hf0].
  specialize (Hf0 f0 (Nat.le_refl _)). rewrite app_nil_r in Hf0.
  unfold json_loads, json_loads_at, json_dumps.
  rewrite (decode_of_scan f0 _ _ v Hf0); [reflexivity|].
  rewrite <- (app_nil_r (Encoder.iterencode _ _ _ _)).
  now apply skip_ws_iterencode.
Qed.

End ValueFacts.

(** *** What the scanner returns is within the limits *)

Lemma digits_of_length (d : Decimal.uint) :
  length (digits_of d) = Decimal.nb_digits d.
Proof.
  unfold digits_of.
  induction d;
    cbn [NilEmpty.string_of_uint list_ascii_of_string length Decimal.nb_digits];
    congruence.
Qed.

Lemma digits_of_uint (ds : str) :
  forallb Decoder.is_digit ds = true -> digits_of (uint_of_digits ds) = ds.
Proof.
  induction ds as [|c ds IH]; [reflexivity|].
  cbn [forallb]. intros [Hc Hds]%andb_true_iff. specialize (IH Hds).
  destruct c as [[] [] [] [] [] [] [] []]; try discriminate Hc;
    unfold digits_of in *; cbn [uint_of_digits];
    match goal with
    | |- context [N_of_ascii ?c] =>
        let n := eval vm_compute in (N_of_ascii c) in
        change (N_of_ascii c) with n
    end;
    cbv iota; cbn [NilEmpty.string_of_uint list_ascii_of_string];
    f_equal; exact IH.
Qed.

Lemma span_digits_digits (s ds r : str) :
  Decoder.span_digits s = (ds, r) -> forallb Decoder.is_digit ds = true.
Proof.
  revert ds r. induction s as [|c s IH]; simpl; intros ds r.
  - now intros [= <- _].
  - destruct (Decoder.is_digit c) eqn:Hc; [|now intros [= <- _]].
    destruct (Decoder.span_digits s) as [ds' r'] eqn:E. intros [= <- _].
    cbn [forallb]. rewrite Hc. now apply (IH ds' r').
Qed.

(** Printed again, a number takes no more digits than the digits it was
    read from. *)
Lemma repr_length (ds : str) :
  forallb Decoder.is_digit ds = true ->
  ds <> [] ->
  exists n,
    Decoder.int_of_digits ds = Z.of_N n
    /\ length (Encoder.int_repr (Z.of_N n)) <= length ds.
Proof.
  intros Hds Hne. pose proof (digits_of_uint ds Hds) as E.
  set (d := uint_of_digits ds) in *.
  assert (Hd : d <> Decimal.Nil) by (intros Hd; rewrite Hd in E; now subst ds).
  exists (Pos.of_uint d). rewrite <- E.
  rewrite int_of_digits_of, digits_of_length. split; [reflexivity|].
  pose proof (DecimalPos.Unsigned.to_of d) as Hn.
  pose proof (DecimalFacts.nb_digits_unorm d Hd) as Hle.
  destruct (Pos.of_uint d) as [|p].
  - destruct d; [congruence|..]; cbn; lia.
  - cbn [N.to_uint] in Hn.
    change (Encoder.int_repr (Z.of_N (N.pos p))) with (digits_of (Pos.to_uint p)).
    now rewrite digits_of_length, Hn.
Qed.

(** The integer group is a sign or none and digits behind it. *)
Lemma match_integer_digits (s integer r : str) :
  Decoder.match_integer s = Some (integer, r) ->
  exists c ds,
    (integer = c :: ds \/ integer = "-"%char :: c :: ds)
    /\ Ascii.eqb c "-" = false
    /\ forallb Decoder.is_digit (c :: ds) = true.
Proof.
  assert (Hdigit : forall c, Decoder.is_digit c = true -> Ascii.eqb c "-" = false).
  { intros c Hc. now destruct (digit_not_other c Hc) as (_ & _ & _ & H & _). }
  assert (Hcase : forall s1 digits r1,
            match s1 with
            | c :: r0 =>
                if Ascii.eqb c "0" then Some ([c], r0)
                else if Decoder.is_digit c then
                  let '(ds, r') := Decoder.span_digits r0 in Some (c :: ds, r')
                else None
            | [] => None
            end = Some (digits, r1) ->
            exists c ds, digits = c :: ds
                         /\ forallb Decoder.is_digit (c :: ds) = true).
  { intros [|c r0] digits r1; [discriminate|].
    destruct (Ascii.eqb c "0") eqn:Ez.
    - apply Ascii.eqb_eq in Ez. subst c. intros [= <- _]. now exists "0"%char, [].
    - destruct (Decoder.is_digit c) eqn:Hc; [|discriminate].
      destruct (Decoder.span_digits r0) as [ds r'] eqn:E. intros [= <- _].
      exists c, ds. split; [reflexivity|]. cbn [forallb]. rewrite Hc.
      now apply span_digits_digits in E. }
  unfold Decoder.match_integer.
  destruct s as [|c0 s0]; [discriminate|].
  destruct (Ascii.eqb c0 "-") eqn:E0.
  - apply Ascii.eqb_eq in E0. subst c0. intros H.
    destruct s0 as [|c r0]; [discriminate|].
    destruct (Hcase (c :: r0) (tl integer) r) as (c' & ds & Hds & Hall).
    { destruct (Ascii.eqb c "0"); [now injection H as <- <-|].
      destruct (Decoder.is_digit c); [|discriminate].
      destruct (Decoder.span_digits r0). now injection H as <- <-. }
    exists c', ds. split; [|split; [|exact Hall]].
    + right. destruct (Ascii.eqb c "0"); [injection H as <- _|];
        [cbn [app tl] in *; now rewrite Hds|].
      destruct (Decoder.is_digit c); [|discriminate].
      destruct (Decoder.span_digits r0). injection H as <- _.
      cbn [app tl] in *. now rewrite Hds.
    + cbn [forallb] in Hall. apply andb_true_iff in Hall as [Hc' _]. auto.
  - intros H. destruct (Hcase (c0 :: s0) integer r) as (c' & ds & -> & Hall).
    { destruct (Ascii.eqb c0 "0"); [exact H|].
      destruct (Decoder.is_digit c0); [|discriminate].
      destruct (Decoder.span_digits s0). exact H. }
    exists c', ds. split; [now left|]. split; [|exact Hall].
    cbn [forallb] in Hall. apply andb_true_iff in Hall as [Hc' _]. auto.
Qed.

(** An integer that [int] returned prints within the limit on digits. *)
Lemma int_of_literal_bound (s integer r : str) (z : Z) :
  Decoder.match_integer s = Some (integer, r) ->
  Decoder.int_of_literal integer = Ok z ->
  int_digits z <= int_max_str_digits.
Proof.
  intros (c & ds & Hshape & Hminus & Hall)%match_integer_digits.
  destruct (repr_length (c :: ds) Hall ltac:(discriminate)) as (n & Hn & Hlen).
  unfold Decoder.int_of_literal.
  destruct Hshape as [-> | ->].
  - rewrite Hminus.
    destruct (int_max_str_digits <? length (c :: ds)) eqn:El; [discriminate|].
    apply Nat.ltb_ge in El. intros [= <-]. unfold int_digits.
    rewrite Hn, Z.abs_eq by apply N2Z.is_nonneg. lia.
  - change (Ascii.eqb "-" "-") with true. cbv iota.
    destruct (int_max_str_digits <? length (c :: ds)) eqn:El; [discriminate|].
    apply Nat.ltb_ge in El. intros [= <-]. unfold int_digits.
    rewrite Hn, Z.abs_opp, Z.abs_eq by apply N2Z.is_nonneg. lia.
Qed.

Lemma scan_atom_value (s : str) (v : json) (r : str) :
  Decoder.scan_atom s = Decoder.Parsed v r ->
  Decoder.match_number s = Decoder.Parsed v r
  \/ (nesting v = 0 /\ ints_within v = true).
Proof.
  unfold Decoder.scan_atom. intros H.
  destruct (Decoder.match_number s) as [v' r'| | e|] eqn:E;
    repeat match type of H with
           | context [Decoder.strip_prefix ?w s] =>
               destruct (Decoder.strip_prefix w s)
           end;
    try discriminate H;
    injection H as <- <-;
    first [ left; reflexivity | right; split; reflexivity ].
Qed.

Lemma bounded_array (room : nat) (items : list json) :
  Forall (bounded room) items -> bounded (S room) (JArray items).
Proof.
  intros Hall. split.
  - cbn [nesting]. apply le_n_S.
    induction Hall as [|v items [Hv _] _ IH]; cbn [fold_right]; lia.
  - cbn [ints_within]. apply forallb_forall. intros v Hv.
    rewrite Forall_forall in Hall. apply list_elem_of_In in Hv.
    now destruct (Hall v Hv).
Qed.

Lemma bounded_object (room : nat) (members : list (str * json)) :
  Forall (fun kv => bounded room (snd kv)) members ->
  bounded (S room) (JObject members).
Proof.
  intros Hall. split.
  - cbn [nesting]. apply le_n_S.
    induction Hall as [|kv members [Hv _] _ IH]; cbn [fold_right]; lia.
  - cbn [ints_within]. apply forallb_forall. intros kv Hkv.
    rewrite Forall_forall in Hall. apply list_elem_of_In in Hkv.
    now destruct (Hall kv Hkv).
Qed.

Lemma bounded_object_inv (room : nat) (members : list (str * json)) :
  bounded room (JObject members) ->
  exists room', room = S room'
                /\ Forall (fun kv => bounded room' (snd kv)) members.
Proof.
  intros [Hn Hi]. cbn [nesting ints_within] in *.
  destruct room as [|room']; [lia|]. exists room'. split; [reflexivity|].
  apply le_S_n in Hn. rewrite forallb_forall in Hi.
  induction members as [|kv members IH]; constructor.
  - split; [cbn [fold_right] in Hn; lia|]. apply Hi. now left.
  - apply IH; [cbn [fold_right] in Hn; lia|]. intros x Hx. apply Hi. now right.
Qed.

Lemma dict_set_bounded (room : nat) (d : dict) (k : str) (v : json) :
  Forall (fun kv => bounded room (snd kv)) d ->
  bounded room v ->
  Forall (fun kv => bounded room (snd kv)) (dict_set d k v).
Proof.
  intros Hd Hv. induction Hd as [|[k' v'] d Hkv Hd IH]; cbn [dict_set].
  - constructor; [exact Hv|constructor].
  - destruct (decide (k' = k)); constructor; auto.
Qed.

Lemma dict_of_pairs_bounded (room : nat) (pairs : list (str * json)) :
  Forall (fun kv => bounded room (snd kv)) pairs ->
  Forall (fun kv => bounded room (snd kv)) (dict_of_pairs pairs).
Proof.
  unfold dict_of_pairs.
  assert (H : forall d, Forall (fun kv => bounded room (snd kv)) d ->
            Forall (fun kv => bounded room (snd kv)) pairs ->
            Forall (fun kv => bounded room (snd kv))
                   (fold_left (fun d kv => dict_set d (fst kv) (snd kv)) pairs d)).
  { induction pairs as [|kv pairs IH]; intros d Hd Hp; cbn [fold_left]; [exact Hd|].
    inversion Hp as [|? ? Hkv Hrest]; subst.
    apply IH; [|exact Hrest]. now apply dict_set_bounded. }
  intros Hp. apply H; [constructor|exact Hp].
Qed.

Section BoundFacts.

Import Decoder.

(** What the scanner returns with room [room] is nested no deeper than
    [room], and its integers are within the limit on digits. *)
Lemma scan_bounds (fuel : nat) :
  (forall room s v r, scan_once fuel room s = Parsed v r -> bounded room v)
  /\ (forall room s items r, parse_elements fuel room s = Parsed items r ->
                             Forall (bounded room) items)
  /\ (forall room s pairs r, parse_members fuel room s = Parsed pairs r ->
                             Forall (fun kv => bounded room (snd kv)) pairs).
Proof.
  induction fuel as [|fuel (IHv & IHe & IHm)].
  { split; [|split]; intros room s v r H; discriminate H. }
  split; [|split].
  - intros room s v r. cbn [scan_once]. destruct s as [|c s]; [discriminate|].
    destruct (Ascii.eqb c dquote).
    { destruct (scanstring s) as [[v0 r0]|]; [|discriminate].
      intros [= <- _]. split; [cbn [nesting]; lia|reflexivity]. }
    destruct (Ascii.eqb c "{").
    { destruct room as [|room]; [discriminate|].
      destruct (skip_ws s) as [|c1 r1]; [discriminate|].
      destruct (Ascii.eqb c1 "}").
      - intros [= <- _]. now apply bounded_object.
      - intros (pairs & r0 & H & [= <- _])%and_then_parsed.
        apply bounded_object, dict_of_pairs_bounded. now apply IHm in H. }
    destruct (Ascii.eqb c "[").
    { destruct room as [|room]; [discriminate|].
      destruct (skip_ws s) as [|c1 r1]; [discriminate|].
      destruct (Ascii.eqb c1 "]").
      - intros [= <- _]. now apply bounded_array.
      - intros (items & r0 & H & [= <- _])%and_then_parsed.
        apply bounded_array. now apply IHe in H. }
    intros [H|[Hn Hi]]%scan_atom_value; [|split; [lia|exact Hi]].
    apply match_number_inv in H
      as (integer & r1 & frac & r2 & exp & E1 & _ & _ & Hv).
    destruct Hv as [(_ & _ & z & Hz & ->)| ->].
    + split; [cbn [nesting]; lia|]. cbn [ints_within].
      apply Nat.leb_le. now apply (int_of_literal_bound _ _ _ _ E1).
    + split; [cbn [nesting]; lia|reflexivity].
  - intros room s items r. cbn [parse_elements].
    intros (v & r0 & Hv & Hk)%and_then_parsed. apply IHv in Hv.
    destruct (skip_ws r0) as [|c r1]; [discriminate|].
    destruct (Ascii.eqb c "]");
      [injection Hk as <- _; constructor; [exact Hv|constructor]|].
    destruct (Ascii.eqb c ","); [|discriminate].
    apply and_then_parsed in Hk as (vs & r2 & Hvs & [= <- _]).
    constructor; [exact Hv|]. now apply IHe in Hvs.
  - intros room s pairs r. cbn [parse_members].
    destruct s as [|q r0]; [discriminate|].
    destruct (Ascii.eqb q dquote); [|discriminate].
    destruct (scanstring r0) as [[key r1]|]; [|discriminate].
    destruct (skip_ws r1) as [|c r2]; [discriminate|].
    destruct (Ascii.eqb c ":"); [|discriminate].
    intros (v & r3 & Hv & Hk)%and_then_parsed. apply IHv in Hv.
    destruct (skip_ws r3) as [|c' r4]; [discriminate|].
    destruct (Ascii.eqb c' "}");
      [injection Hk as <- _; constructor; [exact Hv|constructor]|].
    destruct (Ascii.eqb c' ","); [|discriminate].
    apply and_then_parsed in Hk as (kvs & r5 & Hkvs & [= <- _]).
    constructor; [exact Hv|]. now apply IHm in Hkvs.
Qed.

End BoundFacts.

Lemma json_loads_at_bounded (depth : nat) (s : str) (v : json) :
  json_loads_at depth s = Ok v -> bounded (scanner_room depth) v.
Proof.
  unfold json_loads_at.
  destruct (Decoder.decode _ s) as [v' r| | e|] eqn:E; try discriminate.
  intros [= <-]. apply scan_of_decode in E as (fuel & t & E).
  now apply (proj1 (scan_bounds fuel)) in E.
Qed.

(** The records of a text, as one array, are within the limits of a
    call of [json.loads] made outside every function. *)
Lemma records_bounded (text : str) (records : list dict) :
  extract_json_from_text text = Ok records ->
  bounded (scanner_room at_module) (JArray (map JObject records)).
Proof.
  intros [_ ->]%extract_ok_inv.
  change (scanner_room at_module) with (S (S (scanner_room in_extractor))).
  apply bounded_array, Forall_forall. intros v Hv.
  apply list_elem_of_In, in_map_iff in Hv as (r & <- & Hr).
  apply list_elem_of_In, list_elem_of_omap in Hr as (m & _ & Hrec).
  apply record_of_inv in Hrec as (d & Hd & _ & ->).
  apply json_loads_at_bounded, bounded_object_inv in Hd as (room' & Hroom & Hd).
  rewrite Hroom. apply bounded_object.
  assert (Hwider : forall v, bounded room' v -> bounded (S room') v).
  { intros v [Hn Hi]. split; [lia|exact Hi]. }
  apply dict_set_bounded.
  - eapply Forall_impl; [exact Hd|]. intros kv. apply Hwider.
  - split; [cbn [nesting]; lia|reflexivity].
Qed.

(** The concept space is nested three deep and holds no integer. *)
Lemma space_bounded (text : str) :
  bounded (scanner_room at_module)
          (json_of_space (extract_conceptual_space text)).
Proof.
  rewrite extract_conceptual_space_map.
  unfold json_of_space. cbn [map fst snd].
  change (dict_of_pairs [(all_concepts, ?v)]) with [(all_concepts, v)].
  change (scanner_room at_module) with (S (S (S 992))).
  apply bounded_object. constructor; [|constructor]. cbn [snd].
  apply bounded_array, Forall_forall. intros g Hg.
  apply list_elem_of_In, in_map_iff in Hg as (toks & <- & _).
  apply bounded_array, Forall_forall. intros t Ht.
  apply list_elem_of_In, in_map_iff in Ht as (tok & <- & _).
  split; [cbn [nesting]; lia|reflexivity].
Qed.

(** *** The files of a run *)

Lemma weave_incl (pieces : list (str * str)) (tail m : str) :
  In m (map snd pieces) -> incl m (weave pieces tail).
Proof.
  induction pieces as [|[gap m'] pieces IH]; [contradiction|].
  cbn [map snd weave]. intros [<-|Hin] c Hc.
  - apply in_or_app. right. apply in_or_app. now left.
  - apply in_or_app. right. apply in_or_app. right. now apply IH.
Qed.

(** A match holds characters of the text only. *)
Lemma findall_incl (open close : ascii) (s m : str) :
  In m (Regex.findall open close s) -> incl m s.
Proof.
  destruct (findall_weave open close s) as (pieces & tail & Hs & Hms & _).
  rewrite <- Hms. intros Hin. rewrite Hs. now apply weave_incl.
Qed.

Lemma lstrip_incl (chars s : str) : incl (lstrip chars s) s.
Proof.
  destruct (lstrip_suffix chars s) as [gone H]. intros c Hc.
  rewrite H. apply in_or_app. now right.
Qed.

Lemma str_strip_incl (chars s : str) : incl (str_strip chars s) s.
Proof.
  unfold str_strip, rstrip. intros c Hc.
  apply in_rev, lstrip_incl, in_rev in Hc. now apply lstrip_incl in Hc.
Qed.

Lemma join_incl (sep : str) (parts : list str) (tok : str) :
  In tok parts -> incl tok (Encoder.join sep parts).
Proof.
  induction parts as [|x parts IH]; [contradiction|].
  destruct parts as [|y parts].
  - intros [<-|[]]. simpl. apply incl_refl.
  - rewrite join_cons by discriminate. intros [<-|Hin].
    + now apply incl_appl.
    + apply incl_appr, incl_appr. now apply IH.
Qed.

Lemma str_split_incl (sep s tok : str) :
  sep <> [] -> In tok (str_split sep s) -> incl tok s.
Proof.
  intros Hsep Hin. rewrite <- (join_split sep s Hsep). now apply join_incl.
Qed.

Lemma forallb_incl (P : ascii -> bool) (s t : str) :
  incl t s -> forallb P s = true -> forallb P t = true.
Proof.
  intros Hincl Hs. apply forallb_forall. intros c Hc.
  rewrite forallb_forall in Hs. auto.
Qed.

(** The concept space of an ASCII text is a plain value. *)
Lemma space_plain (text : str) :
  forallb is_ascii7 text = true ->
  plain_json (json_of_space (extract_conceptual_space text)) = true.
Proof.
  intros Htext. rewrite extract_conceptual_space_map.
  unfold json_of_space. cbn [map fst snd].
  change (dict_of_pairs [(all_concepts, ?v)]) with [(all_concepts, v)].
  cbn [plain_json map fst forallb snd].
  rewrite bool_decide_eq_true_2 by (repeat constructor; set_solver).
  change (forallb is_ascii7 all_concepts) with true. cbn [andb].
  rewrite andb_true_r.
  apply forallb_forall. intros g Hg.
  apply in_map_iff in Hg as (toks & <- & Htoks).
  apply in_map_iff in Htoks as (m & <- & Hm).
  cbn [plain_json]. apply forallb_forall. intros t Ht.
  apply in_map_iff in Ht as (tok & <- & Htok).
  cbn [plain_json].
  apply (forallb_incl _ text); [|exact Htext].
  intros c Hc. unfold concepts_of in Htok.
  apply (str_split_incl (raw ", ")) in Htok; [|discriminate].
  apply Htok, str_strip_incl in Hc.
  now apply (findall_incl _ _ _ _ Hm) in Hc.
Qed.

Section ReadBack.

Variable float_repr : str -> str.
Variable to_csv : ascii -> bool -> DataFrame -> rendering.

(** X16.  After a run that ended well on an ASCII text,
    [conceptual_space.json] holds a document that [json.loads] reads
    back as the concept space of the text. *)
Theorem conceptual_space_reads_back (input_file out : path) (fs : filesystem)
        (text : str) :
  files fs !! input_file = Some text ->
  result (main float_repr to_csv input_file out fs) = Ok tt ->
  forallb is_ascii7 text = true ->
  exists content,
    files (final (main float_repr to_csv input_file out fs))
      !! join_path out conceptual_space_json = Some content
    /\ json_loads content
       = Ok (json_of_space (extract_conceptual_space text)).
Proof.
  intros Hread Hok Htext.
  destruct (main_ok_inv _ _ _ _ _ Hok)
    as (text' & records & csv & Hread' & Hextract & Hw & Hcsv).
  assert (text' = text) as -> by congruence.
  rewrite (main_run _ _ _ _ _ _ _ csv Hread Hextract Hw Hcsv).
  cbn [final files]. rewrite written_space.
  eexists. split; [reflexivity|].
  unfold space_text. destruct (space_bounded text) as [Hn Hi].
  apply loads_dumps; [now apply space_plain|exact Hi|exact Hn].
Qed.

(** X17.  After a run that ended well and extracted records without a
    float, with ASCII strings and no key twice in an object,
    [cleaned_data.json] holds a document that [json.loads] reads back
    as the list of the records. *)
Theorem cleaned_data_reads_back (input_file out : path) (fs : filesystem)
        (text : str) (records : list dict) :
  files fs !! input_file = Some text ->
  result (main float_repr to_csv input_file out fs) = Ok tt ->
  extract_json_from_text text = Ok records ->
  forallb plain_json (map JObject records) = true ->
  exists content,
    files (final (main float_repr to_csv input_file out fs))
      !! join_path out cleaned_data_json = Some content
    /\ json_loads content = Ok (JArray (map JObject records)).
Proof.
  intros Hread Hok Hextract Hplain.
  destruct (main_ok_inv _ _ _ _ _ Hok)
    as (text' & records' & csv & Hread' & Hextract' & Hw & Hcsv).
  assert (text' = text) as -> by congruence.
  assert (records' = records) as -> by congruence.
  rewrite (main_run _ _ _ _ _ _ _ csv Hread Hextract Hw Hcsv).
  cbn [final files]. rewrite written_cleaned.
  eexists. split; [reflexivity|].
  unfold cleaned_text. destruct (records_bounded _ _ Hextract) as [Hn Hi].
  now apply loads_dumps.
Qed.

End ReadBack.

Lemma conceptual_space_reads_back_witness :
  let text := lit "x {'a': 1} y {'b': [2, 3], 'a': null} [p, q]" in
  let o := main literal_repr header_only notes_txt results_dir notes_fs in
  files notes_fs !! notes_txt = Some text
  /\ result o = Ok tt
  /\ forallb is_ascii7 text = true
  /\ exists content,
       files (final o) !! join_path results_dir conceptual_space_json
       = Some content
       /\ json_loads content
          = Ok (json_of_space (extract_conceptual_space text)).
Proof.
  intros text o.
  assert (Hread : files notes_fs !! notes_txt = Some text) by (vm_compute; reflexivity).
  assert (Hok : result o = Ok tt) by (vm_compute; reflexivity).
  assert (Htext : forallb is_ascii7 text = true) by (vm_compute; reflexivity).
  split; [exact Hread|]. split; [exact Hok|]. split; [exact Htext|].
  exact (conceptual_space_reads_back literal_repr header_only notes_txt
           results_dir notes_fs text Hread Hok Htext).
Defined.

Lemma cleaned_data_reads_back_witness :
  let text := lit "x {'a': -12, 'b': ['p\n', [null, false]], 'd': true} y [u, v]" in
  let records := omap record_of (json_pattern text) in
  let o := main literal_repr header_only notes_txt results_dir plain_fs in
  files plain_fs !! notes_txt = Some text
  /\ result o = Ok tt
  /\ extract_json_from_text text = Ok records
  /\ forallb plain_json (map JObject records) = true
  /\ length records = 1
  /\ exists content,
       files (final o) !! join_path results_dir cleaned_data_json = Some content
       /\ json_loads content = Ok (JArray (map JObject records)).
Proof.
  intros text records o.
  assert (Hread : files plain_fs !! notes_txt = Some text) by (vm_compute; reflexivity).
  assert (Hok : result o = Ok tt) by (vm_compute; reflexivity).
  assert (Hextract : extract_json_from_text text = Ok records)
    by (vm_compute; reflexivity).
  assert (Hplain : forallb plain_json (map JObject records) = true)
    by (vm_compute; reflexivity).
  split; [exact Hread|]. split; [exact Hok|]. split; [exact Hextract|].
  split; [exact Hplain|]. split; [vm_compute; reflexivity|].
  exact (cleaned_data_reads_back literal_repr header_only notes_txt
           results_dir plain_fs text records Hread Hok Hextract Hplain).
Defined.

(** Two runs on the same text in different file systems. *)
Lemma main_outputs_from_text_witness :
  let o1 := main literal_repr header_only notes_txt results_dir notes_fs in
  let o2 := main literal_repr header_only notes_txt results_dir crowded_fs in
  result o1 = Ok tt
  /\ result o2 = Ok tt
  /\ files notes_fs !! notes_txt = files crowded_fs !! notes_txt
  /\ printed o1 = printed o2
  /\ files (final o1) !! join_path results_dir cleaned_data_json
     = files (final o2) !! join_path results_dir cleaned_data_json
  /\ files (final o1) !! join_path results_dir graph_csv
     = files (final o2) !! join_path results_dir graph_csv.
Proof.
  intros o1 o2.
  assert (H1 : result o1 = Ok tt) by (vm_compute; reflexivity).
  assert (H2 : result o2 = Ok tt) by (vm_compute; reflexivity).
  assert (H3 : files notes_fs !! notes_txt = files crowded_fs !! notes_txt)
    by (vm_compute; reflexivity).
  destruct (main_outputs_from_text literal_repr header_only notes_txt
              results_dir notes_fs crowded_fs H1 H2 H3)
    as (Hp & Hc & _ & Hg).
  subst o1 o2. repeat (split; [assumption|]).
  apply Hg. vm_compute. discriminate.
Defined.

(** ** Running again, and fragments given twice *)

Section RerunFacts.

Variable float_repr : str -> str.
Variable to_csv : ascii -> bool -> DataFrame -> rendering.

(** X19.  When the input file is none of the three files of the output
    directory, a run that ended well can be repeated at once: the
    second run reads the same text, ends well, leaves every file as it
    found it and prints the same lines. *)
Theorem main_rerun (input_file out : path) (fs : filesystem) :
  ~ output_file out input_file ->
  result (main float_repr to_csv input_file out fs) = Ok tt ->
  files (final (main float_repr to_csv input_file out fs)) !! input_file
  = files fs !! input_file
  /\ main float_repr to_csv input_file out
          (final (main float_repr to_csv input_file out fs))
     = main float_repr to_csv input_file out fs.
Proof.
  intros Hin Hok.
  destruct (main_confined float_repr to_csv input_file out fs) as (Hkeep & _).
  specialize (Hkeep input_file Hin). split; [exact Hkeep|].
  destruct (main_ok_inv _ _ _ _ _ Hok)
    as (text & records & csv & Hread & Hextract & Hw & Hcsv).
  rewrite (main_run _ _ _ _ _ _ _ csv Hread Hextract Hw Hcsv) in *.
  cbn [final] in *. rewrite Hread in Hkeep.
  rewrite (main_run _ _ _ _ _ text records csv Hkeep Hextract
             (writable_written _ _ _ _ _ _ _ Hw) Hcsv).
  cbn [files dirs]. rewrite written_twice.
  do 2 f_equal. now rewrite <- (assoc_L (∪)), (idemp_L (∪)).
Qed.

End RerunFacts.

Lemma main_rerun_witness :
  let o := main literal_repr header_only notes_txt results_dir crowded_fs in
  ~ output_file results_dir notes_txt
  /\ result o = Ok tt
  /\ main literal_repr header_only notes_txt results_dir (final o) = o.
Proof.
  intros o.
  assert (Hin : ~ output_file results_dir notes_txt)
    by (intros [H|[H|H]]; discriminate H).
  assert (Hok : result o = Ok tt) by (vm_compute; reflexivity).
  split; [exact Hin|]. split; [exact Hok|].
  exact (proj2 (main_rerun literal_repr header_only notes_txt results_dir
                  crowded_fs Hin Hok)).
Defined.

(** X20.  Nothing is removed as a duplicate: a fragment that occurs
    twice in a text gives two records, equal to one another, with the
    same identifier. *)
Theorem repeated_fragment_repeats_record (fragment gap : str) :
  closed_once fragment = true ->
  mem_char "{" gap = false ->
  exists r,
    record_of fragment = Some r
    /\ extract_json_from_text (fragment ++ gap ++ fragment) = Ok [r; r].
Proof.
  intros Hfragment Hgap.
  pose proof (json_pattern_embed [(fragment, gap); (fragment, [])] []) as Hp.
  cbn [embed app map fst] in Hp. rewrite app_nil_r in Hp.
  rewrite extract_json_from_text_spec, Hp.
  - apply closed_once_inv in Hfragment as (body & d & _ & _ & Hd & Hs).
    destruct (record_of_decoded _ _ Hd Hs) as [Hrec Hesc].
    rewrite collected_ok by (repeat constructor; exact Hesc).
    cbn [omap list_omap]. rewrite Hrec. eexists. split; reflexivity.
  - reflexivity.
  - unfold plain_segments. cbn [forallb fst snd].
    now rewrite Hfragment, Hgap.
Qed.

Lemma repeated_fragment_repeats_record_witness :
  closed_once (lit "{'a': 1}") = true
  /\ mem_char "{" (lit " and again ") = false
  /\ exists r,
       record_of (lit "{'a': 1}") = Some r
       /\ extract_json_from_text
            (lit "{'a': 1}" ++ lit " and again " ++ lit "{'a': 1}")
          = Ok [r; r].
Proof.
  assert (H1 : closed_once (lit "{'a': 1}") = true) by (vm_compute; reflexivity).
  assert (H2 : mem_char "{" (lit " and again ") = false) by reflexivity.
  split; [exact H1|]. split; [exact H2|].
  exact (repeated_fragment_repeats_record _ _ H1 H2).
Defined.
